(** * OpenPhase: sparse phase-field storage, increment limiting and merging

    A shallow embedding of the parts of [PhaseField], [DrivingForce] and
    [Temperature] that carry the conservation and boundedness invariants of
    the multi-phase-field time integration, followed by further parts of
    these classes and of [Nucleation] and [Settings].

    The C++ code computes in [double].  Every definition below is written
    once, over an abstract scalar type with exactly the operations the
    source uses, and is instantiated twice:
    - [binary64]: Rocq's primitive IEEE-754 binary64 floats, bit-exact with
      the [double] arithmetic of the program; used to run the code on
      concrete cells;
    - [exactQ]: the rationals, i.e. the same program under exact
      arithmetic; used for statements quantified over all inputs, where
      rounding is deliberately left out.  Such a statement says nothing
      about the rounded result; where the two differ, a binary64 run
      next to it shows it. *)

From Stdlib Require Import ZArith NArith QArith Qabs Lia Lqa List Bool Floats Uint63
  Sorted.
Import ListNotations.

Set Warnings "-inexact-float".

(** ** Scalars *)

Class Scalar (T : Type) : Type := {
  s0 : T;
  s1 : T;
  sadd : T -> T -> T;
  ssub : T -> T -> T;
  smul : T -> T -> T;
  sdiv : T -> T -> T;
  sopp : T -> T;
  sabs : T -> T;
  sltb : T -> T -> bool;
  sleb : T -> T -> bool;
  seqb : T -> T -> bool;
  sofZ : Z -> T;
  DBL_EPSILON : T;
  FLT_EPSILON : T
}.

Declare Scope sc_scope.
Delimit Scope sc_scope with sc.
Notation "x + y" := (sadd x y) : sc_scope.
Notation "x - y" := (ssub x y) : sc_scope.
Notation "x * y" := (smul x y) : sc_scope.
Notation "x / y" := (sdiv x y) : sc_scope.
Notation "- x" := (sopp x) : sc_scope.
Notation "x <? y" := (sltb x y) : sc_scope.
Notation "x >? y" := (sltb y x) : sc_scope.
Notation "x <=? y" := (sleb x y) : sc_scope.
Notation "x >=? y" := (sleb y x) : sc_scope.
Notation "x =? y" := (seqb x y) : sc_scope.

(** Conversion of an integer to [double] (exact below 2^53). *)
Definition float_of_Z (z : Z) : float :=
  match z with
  | Z0 => 0%float
  | Zpos _ => PrimFloat.of_uint63 (Uint63.of_Z z)
  | Zneg p => PrimFloat.opp (PrimFloat.of_uint63 (Uint63.of_Z (Zpos p)))
  end.

(** [double] as the program has it. *)
#[export] Instance binary64 : Scalar float := {|
  s0 := 0%float;
  s1 := 1%float;
  sadd := PrimFloat.add;
  ssub := PrimFloat.sub;
  smul := PrimFloat.mul;
  sdiv := PrimFloat.div;
  sopp := PrimFloat.opp;
  sabs := PrimFloat.abs;
  sltb := PrimFloat.ltb;
  sleb := PrimFloat.leb;
  seqb := PrimFloat.eqb;
  sofZ := float_of_Z;
  DBL_EPSILON := 0x1p-52%float;
  FLT_EPSILON := 0x1p-23%float
|}.

Definition Qlt_bool (a b : Q) : bool := negb (Qle_bool b a).

(** The same operations without rounding. *)
#[export] Instance exactQ : Scalar Q := {|
  s0 := 0%Q;
  s1 := 1%Q;
  sadd := Qplus;
  ssub := Qminus;
  smul := Qmult;
  sdiv := Qdiv;
  sopp := Qopp;
  sabs := Qabs;
  sltb := Qlt_bool;
  sleb := Qle_bool;
  seqb := Qeq_bool;
  sofZ := inject_Z;
  DBL_EPSILON := (1 # 4503599627370496)%Q;
  FLT_EPSILON := (1 # 8388608)%Q
|}.

Section Kernel.

Context {T : Type} `{Scalar T}.
Local Open Scope sc_scope.

(** [std::min(a,b)] is [(b < a) ? b : a]; [std::max(a,b)] is [(a < b) ? b : a]. *)
Definition std_min (a b : T) : T := if b <? a then b else a.
Definition std_max (a b : T) : T := if a <? b then b else a.

(** ** NodePF: the per-cell active set *)

(** Modelled from the spec: one entry of a cell's Active-Set Node, the
    region index and its occupancy value (the gradient and Laplacian of the
    entry play no role below; the header of [NodePF] is not part of the
    sources). *)
Record PFEntry : Type := { index : N; value : T }.

(** Modelled from the spec: the Active-Set Node of a cell (the header of
    [NodePF] is not part of the sources).  [flag] is 0 in the bulk, 1 next
    to an interface and 2 on an interface (see [SetFlagsSR]). *)
Record NodePF : Type := { flag : Z; Fields : list PFEntry }.

(** Modelled from the spec: [NodePF::wide_interface] (the header is not part
    of the sources); the cell lies on or next to an interface. *)
Definition wide_interface (n : NodePF) : bool := negb (Z.eqb (flag n) 0).

(** Modelled from the spec: [NodePF::get_value], 0 for an absent index. *)
Fixpoint get_value (l : list PFEntry) (n : N) : T :=
  match l with
  | [] => s0
  | e :: l' => if N.eqb (index e) n then value e else get_value l' n
  end.

(** Modelled from the spec: [NodePF::add_value] updates the entry of [n] or
    creates it with value 0 first. *)
Fixpoint add_value (l : list PFEntry) (n : N) (v : T) : list PFEntry :=
  match l with
  | [] => [ {| index := n; value := s0 + v |} ]
  | e :: l' =>
      if N.eqb (index e) n
      then {| index := n; value := value e + v |} :: l'
      else e :: add_value l' n v
  end.

(** Modelled from the spec: [NodePF::finalize] removes the entries whose
    magnitude is below machine epsilon; an interface cell is one that keeps
    at least two entries.  No reserved background index is modelled, and
    the debug-only assertion on the sum is left out. *)
Definition finalize (n : NodePF) : NodePF :=
  let kept := filter (fun e => negb (sabs (value e) <? DBL_EPSILON)) (Fields n) in
  {| flag := if (1 <? length kept)%nat then 2%Z else 0%Z; Fields := kept |}.

(** The sum of a cell's occupancy values, in the order of the entries. *)
Definition sum_values (l : list PFEntry) : T :=
  fold_left (fun acc e => acc + value e) l s0.

(** ** NodeAB: the per-cell pairwise store *)

(** Modelled from the spec: the records [{indexA, indexB, value1, value2}]
    of the Pairwise Increment Store (the header of [NodeAB] is not part of
    the sources). *)
Record ABEntry : Type := { indexA : N; indexB : N; value1 : T; value2 : T }.

Definition NodeAB : Type := list ABEntry.

(** The record is stored as the ordered pair [(n, m)]. *)
Definition same_pair (e : ABEntry) (n m : N) : bool :=
  N.eqb (indexA e) n && N.eqb (indexB e) m.

(** Modelled from the spec: the store is keyed by the pair of indices; a
    symmetric ([sym]) access finds the record of the unordered pair. *)
Definition sym_pair (e : ABEntry) (n m : N) : bool :=
  same_pair e n m || same_pair e m n.

(** Modelled from the spec: [NodeAB::get_sym1] and [get_sym2], the first
    and the second tracked value of the pair, 0 when the pair is absent. *)
Fixpoint get_sym1 (l : NodeAB) (n m : N) : T :=
  match l with
  | [] => s0
  | e :: l' => if sym_pair e n m then value1 e else get_sym1 l' n m
  end.

Fixpoint get_sym2 (l : NodeAB) (n m : N) : T :=
  match l with
  | [] => s0
  | e :: l' => if sym_pair e n m then value2 e else get_sym2 l' n m
  end.

(** Modelled from the spec: [NodeAB::get_asym1] and [get_asym2]; the
    record is antisymmetric (a positive value moves occupancy from B into
    A), so the value changes sign when the pair is stored the other way
    round. *)
Fixpoint get_asym1 (l : NodeAB) (n m : N) : T :=
  match l with
  | [] => s0
  | e :: l' =>
      if same_pair e n m then value1 e
      else if same_pair e m n then - value1 e
      else get_asym1 l' n m
  end.

Fixpoint get_asym2 (l : NodeAB) (n m : N) : T :=
  match l with
  | [] => s0
  | e :: l' =>
      if same_pair e n m then value2 e
      else if same_pair e m n then - value2 e
      else get_asym2 l' n m
  end.

(** Modelled from the spec: the writing accesses [set_sym1], [set_sym2],
    [add_sym1], [add_sym2] and [set_sym_pair] change the record of the
    unordered pair, or append a new record when there is none.
    [upd_sym f mk l n m] applies [f] to that record or appends [mk]. *)
Fixpoint upd_sym (f : ABEntry -> ABEntry) (mk : ABEntry)
    (l : NodeAB) (n m : N) : NodeAB :=
  match l with
  | [] => [mk]
  | e :: l' => if sym_pair e n m then f e :: l' else e :: upd_sym f mk l' n m
  end.

Definition with1 (v : T) (e : ABEntry) : ABEntry :=
  {| indexA := indexA e; indexB := indexB e; value1 := v; value2 := value2 e |}.
Definition with2 (v : T) (e : ABEntry) : ABEntry :=
  {| indexA := indexA e; indexB := indexB e; value1 := value1 e; value2 := v |}.

Definition set_sym1 (l : NodeAB) (n m : N) (v : T) : NodeAB :=
  upd_sym (with1 v) {| indexA := n; indexB := m; value1 := v; value2 := s0 |} l n m.
Definition set_sym2 (l : NodeAB) (n m : N) (v : T) : NodeAB :=
  upd_sym (with2 v) {| indexA := n; indexB := m; value1 := s0; value2 := v |} l n m.
Definition add_sym1 (l : NodeAB) (n m : N) (v : T) : NodeAB :=
  upd_sym (fun e => with1 (value1 e + v) e)
          {| indexA := n; indexB := m; value1 := v; value2 := s0 |} l n m.
Definition add_sym2 (l : NodeAB) (n m : N) (v : T) : NodeAB :=
  upd_sym (fun e => with2 (value2 e + v) e)
          {| indexA := n; indexB := m; value1 := s0; value2 := v |} l n m.
Definition set_sym_pair (l : NodeAB) (n m : N) (v1 v2 : T) : NodeAB :=
  upd_sym (fun e => with2 v2 (with1 v1 e))
          {| indexA := n; indexB := m; value1 := v1; value2 := v2 |} l n m.

(** Modelled from the spec: [NodeAB::operator*=] scales both tracked
    contributions of every record. *)
Definition scale (l : NodeAB) (c : T) : NodeAB :=
  map (fun e => with2 (value2 e * c) (with1 (value1 e * c) e)) l.

End Kernel.

Arguments PFEntry T : clear implicits.
Arguments NodePF T : clear implicits.
Arguments ABEntry T : clear implicits.
Arguments NodeAB T : clear implicits.

(** ** PhaseField::NormalizeIncrementsSR, one cell *)

Section Normalize.

Context {T : Type} `{Scalar T}.
Local Open Scope sc_scope.

(** [case 1] of the switch on the store's size: exactly one record. *)
Definition normalize_single (dt : T) (fields : list (PFEntry T))
    (dot : NodeAB T) : NodeAB T :=
  match dot with
  | [] => dot
  | front :: _ =>
      let valueA := (value1 front + value2 front) * dt in
      let old_value := get_value fields (indexA front) in
      if (old_value =? s0) && (valueA <? s0) || (old_value =? s1) && (valueA >? s0)
      then []
      else
        let new_value := old_value + valueA in
        let norm :=
          if new_value <? s0 then s1 * (- old_value / valueA)
          else if new_value >? s1 then s1 * ((s1 - old_value) / valueA)
          else s1 in
        if norm >? DBL_EPSILON then scale dot norm else []
  end.

(** The [beta] loops run over every entry at a position other than that of
    [alpha] (the iterators are compared, not the indices). *)
Definition others {A : Type} (p : nat) (l : list A) : list A :=
  firstn p l ++ skipn (S p) l.

Definition dPsiAlpha (fields : list (PFEntry T)) (dot : NodeAB T)
    (p : nat) (alpha : PFEntry T) : T :=
  fold_left
    (fun acc beta =>
       acc + get_asym1 dot (index alpha) (index beta)
           + get_asym2 dot (index alpha) (index beta))
    (others p fields) s0.

(** "Set out of bounds sets to zero". *)
Definition pin_step (fields : list (PFEntry T)) (dot : NodeAB T)
    (pa : nat * PFEntry T) : NodeAB T :=
  let (p, alpha) := pa in
  let d := dPsiAlpha fields dot p alpha in
  if (value alpha =? s0) && (d <? s0) || (value alpha =? s1) && (d >? s0)
  then fold_left
         (fun acc beta => set_sym_pair acc (index alpha) (index beta) s0 s0)
         (others p fields) dot
  else dot.

Definition pin_out_of_bounds (fields : list (PFEntry T)) (dot : NodeAB T)
    : NodeAB T :=
  fold_left (pin_step fields) (combine (seq 0 (length fields)) fields) dot.

(** "Remove zero-sets from the storage". *)
Definition remove_zero_sets (dot : NodeAB T) : NodeAB T :=
  filter (fun e => negb ((value1 e =? s0) && (value2 e =? s0))) dot.

(** "Collect increments": per region the positive total under key
    [(region,0)] in [value1] and the negative total in [value2]. *)
Definition collect_step (loc : NodeAB T) (it : ABEntry T) : NodeAB T :=
  let loc1 :=
    if value1 it <? s0
    then add_sym1 (add_sym2 loc (indexA it) 0%N (value1 it))
                  (indexB it) 0%N (- value1 it)
    else loc in
  if value1 it >? s0
  then add_sym2 (add_sym1 loc1 (indexA it) 0%N (value1 it))
                (indexB it) 0%N (- value1 it)
  else loc1.

Definition collect_increments (dot : NodeAB T) : NodeAB T :=
  fold_left collect_step dot [].

(** "Calculate limits". *)
Definition limit_step (dt : T) (locIncrements : NodeAB T)
    (locLimits : NodeAB T) (alpha : PFEntry T) : NodeAB T :=
  let posIncrement := get_sym1 locIncrements (index alpha) 0%N in
  let negIncrement := get_sym2 locIncrements (index alpha) 0%N in
  let newPFvalue := value alpha + (posIncrement + negIncrement) * dt in
  let lim := set_sym1 (set_sym2 locLimits (index alpha) 0%N s1)
                      (index alpha) 0%N s1 in
  let lim :=
    if newPFvalue <? s0
    then
      let tmpLim := get_sym2 lim (index alpha) 0%N in
      let tmpLim2 :=
        std_min tmpLim
                (- (value alpha + posIncrement * dt) / (negIncrement * dt)) in
      set_sym2 lim (index alpha) 0%N tmpLim2
    else lim in
  if newPFvalue >? s1
  then
    let tmpLim := get_sym1 lim (index alpha) 0%N in
    let tmpLim2 :=
      std_min tmpLim
              ((s1 - (value alpha + negIncrement * dt)) / (posIncrement * dt)) in
    set_sym1 lim (index alpha) 0%N tmpLim2
  else lim.

Definition calculate_limits (dt : T) (fields : list (PFEntry T))
    (locIncrements : NodeAB T) : NodeAB T :=
  fold_left (limit_step dt locIncrements) fields [].

(** "Limit increments": the second test reads the value the first branch
    has just written. *)
Definition limit_record (locLimits : NodeAB T) (it : ABEntry T)
    : ABEntry T * bool :=
  let '(v, need1) :=
    if value1 it <? s0
    then
      let tmpLim := std_min (get_sym2 locLimits (indexA it) 0%N)
                            (get_sym1 locLimits (indexB it) 0%N) in
      (value1 it * tmpLim, tmpLim <? s1)
    else (value1 it, false) in
  let '(v', need2) :=
    if v >? s0
    then
      let tmpLim := std_min (get_sym1 locLimits (indexA it) 0%N)
                            (get_sym2 locLimits (indexB it) 0%N) in
      (v * tmpLim, tmpLim <? s1)
    else (v, false) in
  (with1 v' it, need1 || need2).

(** One turn of the body of [while (LimitingNeeded)], before the cap is
    looked at: the limited store and whether some record was scaled. *)
Definition limiting_pass (dt : T) (fields : list (PFEntry T))
    (dot : NodeAB T) : NodeAB T * bool :=
  let locLimits := calculate_limits dt fields (collect_increments dot) in
  let rs := map (limit_record locLimits) dot in
  (map fst rs, existsb snd rs).

(** The [while] loop.  [fuel] bounds the number of turns the model may
    take; the loop's own counter [number_of_iterations] is the program's.
    The result carries the counter and the last turn's [LimitingNeeded]
    as it was before the cap overrode it. *)
Fixpoint limiting_loop (fuel : nat) (dt : T) (fields : list (PFEntry T))
    (number_of_iterations : Z) (dot : NodeAB T)
    : option (NodeAB T * Z * bool) :=
  match fuel with
  | O => None
  | S fuel' =>
      let number_of_iterations := (number_of_iterations + 1)%Z in
      let '(dot', needed) := limiting_pass dt fields dot in
      let LimitingNeeded :=
        if (number_of_iterations >? 24)%Z then false else needed in
      if LimitingNeeded
      then limiting_loop fuel' dt fields number_of_iterations dot'
      else Some (dot', number_of_iterations, needed)
  end.

(** "Clean up values which are too small". *)
Definition clean_up (dt : T) (dot : NodeAB T) : NodeAB T :=
  filter (fun e => negb (sabs (value1 e * dt) <? DBL_EPSILON)) dot.

(** "End plausibility check": one warning per entry of the scratch node
    that left [[-precision, 1+precision]]. *)
Record Warning : Type := { grain : N; oldFields : T; newFields : T }.

Definition scratch_step (dt : T) (tmpPF : list (PFEntry T)) (psi : ABEntry T)
    : list (PFEntry T) :=
  if negb (value1 psi =? s0)
  then add_value (add_value tmpPF (indexA psi) (value1 psi * dt))
                 (indexB psi) (- value1 psi * dt)
  else tmpPF.

Definition scratch (dt : T) (fields : list (PFEntry T)) (dot : NodeAB T)
    : list (PFEntry T) :=
  fold_left (scratch_step dt) dot fields.

Definition implausible (it : PFEntry T) : bool :=
  (value it <? - FLT_EPSILON) || (value it >? s1 + FLT_EPSILON).

Definition plausibility_check (dt : T) (fields : list (PFEntry T))
    (dot : NodeAB T) : list Warning :=
  map (fun it => {| grain := index it;
                    oldFields := get_value fields (index it);
                    newFields := value it |})
      (filter implausible (scratch dt fields dot)).

(** What the pass leaves for one cell. *)
Record Normalized : Type := {
  increments : NodeAB T;
  warnings : list Warning;
  iterations : Z;
  unconverged : bool
}.

Definition untouched (dot : NodeAB T) : Normalized :=
  {| increments := dot; warnings := []; iterations := 0%Z; unconverged := false |}.

(** [default] of the switch: two records or more. *)
Definition normalize_general (fuel : nat) (dt : T) (fields : list (PFEntry T))
    (dot : NodeAB T) : option Normalized :=
  match remove_zero_sets (pin_out_of_bounds fields dot) with
  | [] => Some (untouched [])
  | dot1 =>
      match limiting_loop fuel dt fields 0%Z dot1 with
      | None => None
      | Some (dot2, its, needed) =>
          let dot3 := clean_up dt dot2 in
          Some {| increments := dot3;
                  warnings := plausibility_check dt fields dot3;
                  iterations := its;
                  unconverged := needed |}
      end
  end.

(** The body of the storage loop of [NormalizeIncrementsSR]. *)
Definition NormalizeIncrementsSR_cell (fuel : nat) (dt : T) (n : NodePF T)
    (dot : NodeAB T) : option Normalized :=
  if wide_interface n
  then
    match dot with
    | [] => Some (untouched dot)
    | [_] => Some (untouched (normalize_single dt (Fields n) dot))
    | _ => normalize_general fuel dt (Fields n) dot
    end
  else Some (untouched dot).

(** ** PhaseField::MergeIncrementsSR and FinalizeSR, one cell *)

(** [violation] tells whether a region's [GrowthConstraintsViolation] is
    not [None]; [growth] is [PairwiseGrowthFactors.get_sym1]. *)
Definition merge_record (violation : N -> bool) (growth : N -> N -> T)
    (dt : T) (fields : list (PFEntry T)) (psi : ABEntry T) : list (PFEntry T) :=
  let factor :=
    if violation (indexA psi) && violation (indexB psi)
    then s1 * growth (indexA psi) (indexB psi)
    else s1 in
  let v := factor * (value1 psi + value2 psi) * dt in
  if sabs v >=? DBL_EPSILON
  then add_value (add_value fields (indexA psi) v) (indexB psi) (- v)
  else fields.

Definition merge_fields (violation : N -> bool) (growth : N -> N -> T)
    (dt : T) (fields : list (PFEntry T)) (dot : NodeAB T) : list (PFEntry T) :=
  fold_left (merge_record violation growth dt) dot fields.

(** The storage loop of [MergeIncrementsSR] for one cell, before the call
    of [Finalize]. *)
Definition merge_cell (violation : N -> bool) (growth : N -> N -> T)
    (dt : T) (clear : bool) (n : NodePF T) (dot : NodeAB T)
    : NodePF T * NodeAB T :=
  if wide_interface n
  then ({| flag := flag n;
           Fields := merge_fields violation growth dt (Fields n) dot |},
        if clear then [] else dot)
  else (n, dot).

(** The first loop of [FinalizeSR]. *)
Definition FinalizeSR_cell (do_finalize : bool) (n : NodePF T) : NodePF T :=
  if do_finalize && wide_interface n then finalize n else n.

Definition MergeIncrementsSR_cell (violation : N -> bool)
    (growth : N -> N -> T) (dt : T) (do_finalize clear : bool)
    (n : NodePF T) (dot : NodeAB T) : NodePF T * NodeAB T :=
  let (n', dot') := merge_cell violation growth dt clear n dot in
  (FinalizeSR_cell do_finalize n', dot').

End Normalize.

Arguments Warning T : clear implicits.
Arguments Normalized T : clear implicits.

(** ** PhaseField::CalculateGrainsVolume *)

(** Modelled from the spec: the lifecycle stages of a region
    ([GrainStages], declared in a header that is not part of the
    sources). *)
Inductive GrainStages : Type := Seed | Nucleus | Stable.

Section Registry.

Context {T : Type} `{Scalar T}.
Local Open Scope sc_scope.

(** The fields of a [FieldsProperties] entry that the function touches. *)
Record GrainInfo : Type := {
  Exist : bool;
  Stage : GrainStages;
  Volume : T;
  MAXVolume : T;
  RefVolume : T;
  VolumeRatio : T
}.

(** [Volume[thread][it->index] += it->value] over the storage loop (one
    thread), read for one index. *)
Definition cell_volume (idx : N) (acc : T) (n : NodePF T) : T :=
  fold_left (fun a it => if N.eqb (index it) idx then a + value it else a)
            (Fields n) acc.

Definition grid_volume (cells : list (NodePF T)) (idx : N) : T :=
  fold_left (cell_volume idx) cells s0.

(** "Add volumes from different OpenMP chunks". *)
Definition set_volume (cells : list (NodePF T)) (idx : N) (g : GrainInfo)
    : GrainInfo :=
  {| Exist := Exist g; Stage := Stage g;
     Volume := s0 + grid_volume cells idx;
     MAXVolume := MAXVolume g; RefVolume := RefVolume g;
     VolumeRatio := VolumeRatio g |}.

(** "Calculate MAXVolume and VolumeRatio for all phase fields". *)
Definition set_ratio (g : GrainInfo) : GrainInfo :=
  let m := std_max (Volume g) (MAXVolume g) in
  {| Exist := Exist g; Stage := Stage g; Volume := Volume g;
     MAXVolume := m; RefVolume := RefVolume g;
     VolumeRatio := m / RefVolume g |}.

(** "Update statistics based on actual grains volume". *)
Definition update_statistics (g : GrainInfo) : GrainInfo :=
  if Exist g && (Volume g <=? s0)
  then {| Exist := false; Stage := Stable; Volume := s0; MAXVolume := s0;
          RefVolume := RefVolume g; VolumeRatio := s1 |}
  else if Volume g >? s0
  then
    let st := match Stage g with Seed => Nucleus | st => st end in
    if VolumeRatio g >? s1
    then {| Exist := true; Stage := Stable; Volume := Volume g;
            MAXVolume := MAXVolume g; RefVolume := RefVolume g;
            VolumeRatio := s1 |}
    else {| Exist := true; Stage := st; Volume := Volume g;
            MAXVolume := MAXVolume g; RefVolume := RefVolume g;
            VolumeRatio := VolumeRatio g |}
  else g.

Definition recompute (cells : list (NodePF T)) (ig : nat * GrainInfo)
    : GrainInfo :=
  update_statistics (set_ratio (set_volume cells (N.of_nat (fst ig)) (snd ig))).

(** The registry after the call (the reduction into [FractionsTotal] that
    follows reads the entries and does not change them). *)
Definition CalculateGrainsVolume (cells : list (NodePF T))
    (FieldsProperties : list GrainInfo) : list GrainInfo :=
  map (recompute cells)
      (combine (seq 0 (length FieldsProperties)) FieldsProperties).

(** [NucleationPresent = (NumberOfNuclei > 0)]. *)
Definition NucleationPresent (FieldsProperties : list GrainInfo) : bool :=
  existsb (fun g => (Volume g >? s0)
                    && match Stage g with Stable => false | _ => true end)
          FieldsProperties.

(** ** DrivingForce::MaxTimeStep *)

(** [maxPsi] is the object's recorded maximum increment and
    [ReportMaximumTimeStep] the value of [IP.ReportMaximumTimeStep()]. *)
Definition MaxTimeStep (maxPsi ReportMaximumTimeStep TheorLimit NumerLimit : T)
    : T :=
  let maxTheorTimeStep := TheorLimit * ReportMaximumTimeStep in
  let maxNumerTimeStep :=
    if maxPsi >? DBL_EPSILON then NumerLimit / maxPsi else s0 in
  std_min maxTheorTimeStep maxNumerTimeStep.

End Registry.

Arguments GrainInfo T : clear implicits.

(** ** Temperature::SetInitial *)

Section Temperature.

Context {T : Type} `{Scalar T}.
Local Open Scope sc_scope.

(** A [Storage3D] with its ghost layers, as a map on all integer
    coordinates: a write outside the allocated box (undefined behaviour in
    the program) is recorded like any other. *)
Definition Storage3D (A : Type) : Type := Z -> Z -> Z -> A.

Definition poke {A : Type} (s : Storage3D A) (i j k : Z) (v : A) : Storage3D A :=
  fun i' j' k' =>
    if Z.eqb i' i && Z.eqb j' j && Z.eqb k' k then v else s i' j' k'.

Record TemperatureSettings : Type := {
  sizeX : Z; sizeY : Z; sizeZ : Z;
  BcellsX : Z; BcellsY : Z; BcellsZ : Z;
  T0 : T; dT_dr : T * T * T; r0 : T * T * T; Grid_dx : T;
  TBC0X : T; TBC0Y : T; TBC0Z : T;
  TBCNX : T; TBCNY : T; TBCNZ : T
}.

(** [for (long int n = a; n < b; n++) body]: a loop whose body leaves its
    counter alone. *)
Definition for_range {S : Type} (a b : Z) (body : Z -> S -> S) (s : S) : S :=
  fold_left (fun s n => body (a + Z.of_nat n)%Z s) (seq 0 (Z.to_nat (b - a))) s.

(** The storage loop that writes the linear profile, ghost layers
    included. *)
Definition initial_profile (p : TemperatureSettings) (tx : Storage3D T)
    : Storage3D T :=
  fun i j k =>
    if ((- BcellsX p <=? i) && (i <? sizeX p + BcellsX p)
        && (- BcellsY p <=? j) && (j <? sizeY p + BcellsY p)
        && (- BcellsZ p <=? k) && (k <? sizeZ p + BcellsZ p))%Z
    then
      let '(gx, gy, gz) := dT_dr p in
      let '(rx, ry, rz) := r0 p in
      T0 p + (gx * (sofZ i - rx) + gy * (sofZ j - ry) + gz * (sofZ k - rz))
             * Grid_dx p
    else tx i j k.

(** A boundary block whose three loops each step their own counter. *)
Definition fill_box (xlo xhi ylo yhi zlo zhi : Z) (v : T) (tx : Storage3D T)
    : Storage3D T :=
  for_range xlo xhi (fun i =>
    for_range ylo yhi (fun j =>
      for_range zlo zhi (fun k tx => poke tx i j k v))) tx.

(** The innermost loop of the NY0 block as written:
    [for(long int k = -Tx.BcellsZ(); k < Tx.sizeZ() + Tx.BcellsZ(); j++)].
    It steps [j]; [k] keeps its initial value.  The result is [j] and the
    storage once the test fails, [None] when [fuel] turns do not reach
    that point. *)
Fixpoint NY0_k_loop (fuel : nat) (p : TemperatureSettings) (i j k : Z)
    (tx : Storage3D T) : option (Z * Storage3D T) :=
  match fuel with
  | O => None
  | S fuel' =>
      if (k <? sizeZ p + BcellsZ p)%Z
      then NY0_k_loop fuel' p i (j + 1)%Z k (poke tx i j k (TBC0Y p))
      else Some (j, tx)
  end.

(** [for(long int j = -Tx.BcellsY(); j < 0; j++)] around it; [j] is shared
    with the inner loop. *)
Fixpoint NY0_j_loop (fuel : nat) (p : TemperatureSettings) (i j : Z)
    (tx : Storage3D T) : option (Storage3D T) :=
  match fuel with
  | O => None
  | S fuel' =>
      if (j <? 0)%Z
      then
        match NY0_k_loop fuel' p i j (- BcellsZ p)%Z tx with
        | None => None
        | Some (j', tx') => NY0_j_loop fuel' p i (j' + 1)%Z tx'
        end
      else Some tx
  end.

Fixpoint NY0_i_loop (fuel : nat) (p : TemperatureSettings) (i : Z)
    (tx : Storage3D T) : option (Storage3D T) :=
  match fuel with
  | O => None
  | S fuel' =>
      if (i <? sizeX p + BcellsX p)%Z
      then
        match NY0_j_loop fuel' p i (- BcellsY p)%Z tx with
        | None => None
        | Some tx' => NY0_i_loop fuel' p (i + 1)%Z tx'
        end
      else Some tx
  end.

(** The state of that inner loop after [n] turns (or at its exit, if it
    leaves earlier). *)
Fixpoint NY0_k_run (n : nat) (p : TemperatureSettings) (i j k : Z)
    (tx : Storage3D T) : Z * Storage3D T :=
  match n with
  | O => (j, tx)
  | S n' =>
      if (k <? sizeZ p + BcellsZ p)%Z
      then NY0_k_run n' p i (j + 1)%Z k (poke tx i j k (TBC0Y p))
      else (j, tx)
  end.

Definition NY0 (fuel : nat) (p : TemperatureSettings) (tx : Storage3D T)
    : option (Storage3D T) :=
  if negb (TBC0Y p =? s0) then NY0_i_loop fuel p (- BcellsX p)%Z tx else Some tx.

Definition when_set (v : T) (f : Storage3D T -> Storage3D T)
    (tx : Storage3D T) : Storage3D T :=
  if negb (v =? s0) then f tx else tx.

(** The storage part of [SetInitial]: the profile and the six boundary
    blocks, in the order of the source. *)
Definition SetInitial (fuel : nat) (p : TemperatureSettings) (tx : Storage3D T)
    : option (Storage3D T) :=
  let xlo := (- BcellsX p)%Z in let xhi := (sizeX p + BcellsX p)%Z in
  let ylo := (- BcellsY p)%Z in let yhi := (sizeY p + BcellsY p)%Z in
  let zlo := (- BcellsZ p)%Z in let zhi := (sizeZ p + BcellsZ p)%Z in
  let tx := initial_profile p tx in
  let tx := when_set (TBC0X p) (fill_box xlo 0 ylo yhi zlo zhi (TBC0X p)) tx in
  match NY0 fuel p tx with
  | None => None
  | Some tx =>
      let tx := when_set (TBC0Z p) (fill_box xlo xhi ylo yhi zlo 0 (TBC0Z p)) tx in
      let tx := when_set (TBCNX p) (fill_box (sizeX p) xhi ylo yhi zlo zhi (TBCNX p)) tx in
      let tx := when_set (TBCNY p) (fill_box xlo xhi (sizeY p) yhi zlo zhi (TBCNY p)) tx in
      Some (when_set (TBCNZ p) (fill_box xlo xhi ylo yhi (sizeZ p) zhi (TBCNZ p)) tx)
  end.

(** The NY0 block as its neighbours are written (every loop steps its own
    counter): what the specification describes. *)
Definition NY0_intended (p : TemperatureSettings) (tx : Storage3D T)
    : Storage3D T :=
  when_set (TBC0Y p)
    (fill_box (- BcellsX p) (sizeX p + BcellsX p) (- BcellsY p) 0
              (- BcellsZ p) (sizeZ p + BcellsZ p) (TBC0Y p)) tx.

End Temperature.

Arguments TemperatureSettings T : clear implicits.

(** ** PhaseField::Coarsen and PhaseField::Refine *)

Section DualResolution.

Context {T : Type} `{Scalar T}.
Local Open Scope sc_scope.

(** Modelled from the spec: [NodePF::operator+=], values of matching
    indices are added. *)
Definition node_add (a b : list (PFEntry T)) : list (PFEntry T) :=
  fold_left (fun acc e => add_value acc (index e) (value e)) b a.

(** Modelled from the spec: [NodePF::operator*=], every value is scaled. *)
Definition node_scale (a : list (PFEntry T)) (c : T) : list (PFEntry T) :=
  map (fun e => {| index := index e; value := value e * c |}) a.

(** The coarse grid: its size and, per axis, 1 when the axis is active and
    0 when it is not. *)
Record GridParameters : Type := {
  Nx : Z; Ny : Z; Nz : Z;
  dNx : Z; dNy : Z; dNz : Z
}.

Definition Active (g : GridParameters) : Z := (dNx g + dNy g + dNz g)%Z.

Definition interior (g : GridParameters) (i j k : Z) : bool :=
  ((0 <=? i) && (i <? Nx g) && (0 <=? j) && (j <? Ny g)
   && (0 <=? k) && (k <? Nz g))%Z.

(** [for(int di = -d; di <= d; di += 2)]. *)
Definition steps2 (d : Z) : list Z :=
  if (d <? 0)%Z then []
  else map (fun n => (- d + 2 * Z.of_nat n)%Z) (seq 0 (S (Z.to_nat d))).

Definition offsets (g : GridParameters) : list (Z * Z * Z) :=
  flat_map (fun di =>
    flat_map (fun dj => map (fun dk => (di, dj, dk)) (steps2 (dNz g)))
             (steps2 (dNy g)))
    (steps2 (dNx g)).

(** The fine cell [(fx*i+(di+1)/2, fy*j+(dj+1)/2, fz*k+(dk+1)/2)]; the
    division is C's, towards zero. *)
Definition child (g : GridParameters) (i j k : Z) (o : Z * Z * Z) : Z * Z * Z :=
  let '(di, dj, dk) := o in
  (((1 + dNx g) * i + Z.quot (di + 1) 2)%Z,
   ((1 + dNy g) * j + Z.quot (dj + 1) 2)%Z,
   ((1 + dNz g) * k + Z.quot (dk + 1) 2)%Z).

Definition at3 {A : Type} (s : Storage3D A) (c : Z * Z * Z) : A :=
  let '(i, j, k) := c in s i j k.

(** [pow(2.0, n)]. *)
Definition pow2 (n : nat) : T := Nat.iter n (fun x => x * (s1 + s1)) s1.

(** The sum over the children, then the mean (before [finalize]). *)
Definition coarse_mean (g : GridParameters) (FieldsDR : Storage3D (NodePF T))
    (i j k : Z) : list (PFEntry T) :=
  let norm := s1 / pow2 (Z.to_nat (Active g)) in
  node_scale
    (fold_left (fun acc o => node_add acc (Fields (at3 FieldsDR (child g i j k o))))
               (offsets g) [])
    norm.

(** The body of the storage loop of [Coarsen]. *)
Definition Coarsen_cell (g : GridParameters) (FieldsDR : Storage3D (NodePF T))
    (i j k : Z) (n : NodePF T) : NodePF T :=
  if wide_interface n
  then finalize {| flag := flag n; Fields := coarse_mean g FieldsDR i j k |}
  else n.

Definition Coarsen (g : GridParameters) (Fields0 FieldsDR : Storage3D (NodePF T))
    : Storage3D (NodePF T) :=
  fun i j k =>
    if interior g i j k then Coarsen_cell g FieldsDR i j k (Fields0 i j k)
    else Fields0 i j k.

(** Modelled from the spec: [Storage3D::at], linear sampling of the coarse
    grid at a quarter offset.  Along one axis the sampling point
    [x = i + di*0.25] lies between the cells [x0 = floor(x)] and [x0 + d]
    and weighs them [1 - dx] and [dx], with [dx = |x - x0| * d]. *)
Definition axis_samples (d i di : Z) : list (Z * T) :=
  let x := sofZ i + sofZ di * (s1 / sofZ 4) in
  let x0 := ((if (di <? 0)%Z then i - 1 else i) * d)%Z in
  let dx := sabs (x - sofZ x0) * sofZ d in
  [ (x0, s1 - dx); ((x0 + d)%Z, dx) ].

(** The eight coarse cells around the sampling point with their weights. *)
Definition linear_stencil (g : GridParameters) (i j k : Z) (o : Z * Z * Z)
    : list (Z * Z * Z * T) :=
  let '(di, dj, dk) := o in
  flat_map (fun '(z, wz) =>
    flat_map (fun '(y, wy) =>
      map (fun '(x, wx) => ((x, y, z), wx * wy * wz))
          (axis_samples (dNx g) i di))
      (axis_samples (dNy g) j dj))
    (axis_samples (dNz g) k dk).

(** The weighted sum of the sampled nodes. *)
Definition interpolate (Fields0 : Storage3D (NodePF T))
    (stencil : list (Z * Z * Z * T)) : list (PFEntry T) :=
  fold_left (fun acc cw =>
               node_add acc (node_scale (Fields (at3 Fields0 (fst cw))) (snd cw)))
            stencil [].

(** The node [Refine] writes to the child [o] of the coarse cell
    [(i,j,k)], for a sampling rule [at_] that lists the coarse cells read
    and their weights. *)
Definition Refine_child (at_ : Z -> Z -> Z -> Z * Z * Z -> list (Z * Z * Z * T))
    (Fields0 : Storage3D (NodePF T)) (i j k : Z) (o : Z * Z * Z) : NodePF T :=
  finalize {| flag := 0%Z; Fields := interpolate Fields0 (at_ i j k o) |}.

(** The storage loop of [Refine] over the coarse cells [cells]. *)
Definition Refine (g : GridParameters)
    (at_ : Z -> Z -> Z -> Z * Z * Z -> list (Z * Z * Z * T))
    (cells : list (Z * Z * Z))
    (Fields0 FieldsDR : Storage3D (NodePF T)) : Storage3D (NodePF T) :=
  fold_left
    (fun dr c =>
       let '(i, j, k) := c in
       fold_left
         (fun dr o =>
            let '(ci, cj, ck) := child g i j k o in
            poke dr ci cj ck (Refine_child at_ Fields0 i j k o))
         (offsets g) dr)
    cells FieldsDR.

End DualResolution.

(** ** One time step of a cell, and the cells used below *)

Section Scenarios.

Context {T : Type} `{Scalar T}.

(** [Phi.NormalizeIncrements(BC, dt); Phi.MergeIncrements(BC, dt);] as the
    time loop calls them (finalize and clear are on), for one cell. *)
Definition time_step_cell (fuel : nat) (violation : N -> bool)
    (growth : N -> N -> T) (dt : T) (n : NodePF T) (dot : NodeAB T)
    : option (NodePF T * NodeAB T) :=
  match NormalizeIncrementsSR_cell fuel dt n dot with
  | None => None
  | Some r =>
      Some (MergeIncrementsSR_cell violation growth dt true true n (increments r))
  end.

Definition no_violation : N -> bool := fun _ => false.
Definition no_damping : N -> N -> T := fun _ _ => s1.

Definition pf (i : N) (v : T) : PFEntry T := {| index := i; value := v |}.
Definition ab (a b : N) (v1 v2 : T) : ABEntry T :=
  {| indexA := a; indexB := b; value1 := v1; value2 := v2 |}.
Definition interface_cell (l : list (PFEntry T)) : NodePF T :=
  {| flag := 2; Fields := l |}.

(** A five-region cell: the regions 1, 2 and 3 feed one another in a
    cycle and each also feeds region 4; region 5 takes no part.  Every
    record carries the rate [q] in [value1]. *)
Definition junction_cell (eighth half : T) : NodePF T :=
  interface_cell [pf 1 eighth; pf 2 eighth; pf 3 eighth; pf 4 eighth; pf 5 half].
Definition junction_store (q : T) : NodeAB T :=
  [ab 2 1 q s0; ab 3 2 q s0; ab 1 3 q s0; ab 4 1 q s0; ab 4 2 q s0; ab 4 3 q s0].

(** A bulk cell of region [i], and a registry entry of a nucleus that has
    reached the volume 1 against a reference volume of 2. *)
Definition bulk_cell (i : N) : NodePF T := {| flag := 0; Fields := [pf i s1] |}.
Definition growing_nucleus : GrainInfo T :=
  {| Exist := true; Stage := Nucleus; Volume := s1; MAXVolume := s1;
     RefVolume := sadd s1 s1; VolumeRatio := sdiv s1 (sadd s1 s1) |}.

(** A grid of one cell with one ghost layer on every side, a flat
    profile at [t0] and the lower Y boundary held at [tb]. *)
Definition one_cell_room (t0 tb : T) : TemperatureSettings T :=
  {| sizeX := 1; sizeY := 1; sizeZ := 1;
     BcellsX := 1; BcellsY := 1; BcellsZ := 1;
     T0 := t0; dT_dr := (s0, s0, s0); r0 := (s0, s0, s0); Grid_dx := s1;
     TBC0X := s0; TBC0Y := tb; TBC0Z := s0;
     TBCNX := s0; TBCNY := s0; TBCNZ := s0 |}.

(** A cell next to an interface that hosts the single region [i]. *)
Definition near_interface_cell (i : N) : NodePF T :=
  {| flag := 1; Fields := [pf i s1] |}.

End Scenarios.

(** Every entry of a cell holds a value in [[0,1]] (rationals). *)
Definition unit_values (l : list (PFEntry Q)) : Prop :=
  forall x, In x l -> (0 <= value x <= 1)%Q.

(** ** Notions used to state the properties of the two grids *)




Definition Qsum (l : list Q) : Q := fold_right Qplus 0%Q l.





(** A grid of [n] coarse cells along X, the only active axis. *)
Definition line_grid (n : Z) : GridParameters :=
  {| Nx := n; Ny := 1; Nz := 1; dNx := 1; dNy := 0; dNz := 0 |}.

(** * Further parts of the program *)

(** ** PhaseField: flags, fractions and per-cell queries *)

Section CellQueries.

Context {T : Type} `{Scalar T}.
Local Open Scope sc_scope.

(** Modelled from the spec: [NodePF::interface] (the header is not part of
    the sources); the cell lies on an interface, i.e. its flag is 2. *)
Definition interface (n : NodePF T) : bool := Z.eqb (flag n) 2.

(** [for(int ii = -d; ii <= +d; ++ii)]. *)
Definition around (d : Z) : list Z :=
  map (fun n => (- d + Z.of_nat n)%Z) (seq 0 (Z.to_nat (2 * d + 1))).

(** The cells [(i+ii, j+jj, k+kk)] the three loops of [SetFlagsSR] visit
    around [(i,j,k)], in their order. *)
Definition neighbourhood (g : GridParameters) (c : Z * Z * Z) : list (Z * Z * Z) :=
  let '(i, j, k) := c in
  flat_map (fun ii =>
    flat_map (fun jj => map (fun kk => ((i + ii)%Z, (j + jj)%Z, (k + kk)%Z))
                            (around (dNz g)))
             (around (dNy g)))
    (around (dNx g)).

(** [if(!(Fields(c).flag)) Fields(c).flag = 1;] *)
Definition mark_near (F : Storage3D (NodePF T)) (c : Z * Z * Z)
    : Storage3D (NodePF T) :=
  let '(i, j, k) := c in
  if Z.eqb (flag (F i j k)) 0
  then poke F i j k {| flag := 1; Fields := Fields (F i j k) |}
  else F.

(** The body of the storage loop of [SetFlagsSR] at the cell [c]. *)
Definition SetFlags_cell (g : GridParameters) (F : Storage3D (NodePF T))
    (c : Z * Z * Z) : Storage3D (NodePF T) :=
  if Z.eqb (flag (at3 F c)) 2
  then fold_left mark_near (neighbourhood g c) F
  else F.

(** [SetFlagsSR], the storage updated in place while the loop visits the
    cells [cells] one after the other. *)
Definition SetFlagsSR (g : GridParameters) (cells : list (Z * Z * Z))
    (F : Storage3D (NodePF T)) : Storage3D (NodePF T) :=
  fold_left (SetFlags_cell g) cells F.

(** A [Tensor<double,1>] as a map on all indices, and
    [t({n}) += v]. *)
Definition tensor_add (t : N -> T) (n : N) (v : T) : N -> T :=
  fun m => if N.eqb m n then t m + v else t m.

Definition tensor_sub (t : N -> T) (n : N) (v : T) : N -> T :=
  fun m => if N.eqb m n then t m - v else t m.

(** [Fractions(i,j,k,{FieldsProperties[it->index].Phase}) += it->value]
    for every entry of the cell; [Phase] is [FieldsProperties[idx].Phase]. *)
Definition add_fractions (Phase : N -> N) (l : list (PFEntry T)) (fr : N -> T)
    : N -> T :=
  fold_left (fun fr it => tensor_add fr (Phase (index it)) (value it)) l fr.

(** The body of the storage loop of [CalculateFractions]: the tensor is
    set to zero and the entries are added. *)
Definition CalculateFractions_cell (Phase : N -> N) (n : NodePF T) : N -> T :=
  add_fractions Phase (Fields n) (fun _ => s0).

(** The sum of the first [Nphases] components of a tensor. *)
Definition tensor_total (Nphases : nat) (t : N -> T) : T :=
  fold_left (fun a p => a + t (N.of_nat p)) (seq 0 Nphases) s0.

(** [CalculateNewFractions], and the member [NewFractions(x,y,z,locdt)]
    which also applies the pairwise growth factor. *)
Definition CalculateNewFractions (Phase : N -> N) (oldFractions : N -> T)
    (FieldsDot : NodeAB T) (locdt : T) : N -> T :=
  fold_left
    (fun nf it =>
       let pIndexA := Phase (indexA it) in
       let pIndexB := Phase (indexB it) in
       if negb (N.eqb pIndexA pIndexB)
       then tensor_sub (tensor_add nf pIndexA (value1 it * locdt))
                       pIndexB (value1 it * locdt)
       else nf)
    FieldsDot oldFractions.

Definition NewFractions (Phase : N -> N) (violation : N -> bool)
    (growth : N -> N -> T) (Fractions : N -> T) (FieldsDot : NodeAB T)
    (locdt : T) : N -> T :=
  fold_left
    (fun nf it =>
       let pIndexA := Phase (indexA it) in
       let pIndexB := Phase (indexB it) in
       if negb (N.eqb pIndexA pIndexB)
       then
         let factor :=
           if violation (indexA it) && violation (indexB it)
           then s1 * growth (indexA it) (indexB it) else s1 in
         tensor_sub (tensor_add nf pIndexA (factor * value1 it * locdt))
                    pIndexB (factor * value1 it * locdt)
       else nf)
    FieldsDot Fractions.

(** [sum -= alpha->value*beta->value] for every [beta] after [alpha]. *)
Fixpoint pair_products (l : list (PFEntry T)) (sum : T) : T :=
  match l with
  | [] => sum
  | alpha :: rest =>
      pair_products rest
        (fold_left (fun s beta => s - value alpha * value beta) rest sum)
  end.

(** [PhaseField::Interfaces]. *)
Definition Interfaces (n : NodePF T) : T :=
  let sum := s1 / sofZ 2 in
  let sum := if interface n then pair_products (Fields n) sum else sum in
  s1 / (sum * sofZ 2).

(** [int locVariant = FieldsProperties[alpha->index].Variant]: the registry
    field is unsigned ([CalculateGrainsVolume] reduces it as an
    [unsigned long]) and is narrowed to a 32-bit [int], which wraps modulo
    [2^32] into [[-2^31, 2^31)]. *)
Definition int_of_unsigned (n : N) : Z :=
  ((Z.of_N n + 2 ^ 31) mod 2 ^ 32 - 2 ^ 31)%Z.

(** The scan shared by [Variants] and [ParentGrain]: the registry field
    [prop], as an [int], of the entry with the largest value seen so far,
    starting from the value 0.0 and the answer 0. *)
Definition largest_entry (prop : N -> N) (l : list (PFEntry T)) : T * Z :=
  fold_left
    (fun st alpha =>
       if value alpha >? fst st
       then (value alpha, int_of_unsigned (prop (index alpha))) else st)
    l (s0, 0%Z).

(** [PhaseField::Variants] and [PhaseField::ParentGrain]; the [int] found
    is returned as a [double]. *)
Definition Variants (Variant : N -> N) (n : NodePF T) : T :=
  sofZ (snd (largest_entry Variant (Fields n))).

Definition ParentGrain (Parent : N -> N) (n : NodePF T) : T :=
  sofZ (snd (largest_entry Parent (Fields n))).

(** [PhaseField::SolidPhaseFraction]. *)
Definition SolidPhaseFraction (is_solid : N -> bool) (n : NodePF T) : T :=
  fold_left (fun a alpha => if is_solid (index alpha) then a + value alpha else a)
            (Fields n) s0.

(** The loop of [PhaseField::CombinePhaseFields] and of
    [SelectiveCombinePhaseFieldsSR] over the entries of a cell: the value
    of every selected entry is added to [acc] and set to 0.0. *)
Fixpoint absorb (sel : N -> bool) (l : list (PFEntry T)) (acc : T)
    : list (PFEntry T) * T :=
  match l with
  | [] => ([], acc)
  | it :: rest =>
      if sel (index it)
      then let (rest', a) := absorb sel rest (acc + value it) in
           ({| index := index it; value := s0 |} :: rest', a)
      else let (rest', a) := absorb sel rest acc in (it :: rest', a)
  end.

(** The body of the storage loop of [CombinePhaseFields] for the phase [p]
    and the majority index found for it. *)
Definition CombinePhaseFields_cell (Phase : N -> N) (StageOf : N -> GrainStages)
    (p MajorityIndex : N) (fields : list (PFEntry T)) : list (PFEntry T) :=
  let sel := fun idx =>
    N.eqb (Phase idx) p
    && match StageOf idx with Stable => true | _ => false end
    && negb (N.eqb idx MajorityIndex) in
  let (fields', value_to_combine) := absorb sel fields s0 in
  if value_to_combine >? DBL_EPSILON
  then add_value fields' MajorityIndex value_to_combine
  else fields'.

(** The search for the majority field of the phase [p]. *)
Record Majority : Type := {
  MajorityIndex : N;
  MajorityVolume : T;
  MajorityFound : bool;
  Nfields : Z
}.

Definition candidate (Phase : N -> N) (p : N) (ng : nat * GrainInfo T) : bool :=
  Exist (snd ng) && N.eqb (Phase (N.of_nat (fst ng))) p
  && match Stage (snd ng) with Stable => true | _ => false end.

Definition majority_step (Phase : N -> N) (p : N) (m : Majority)
    (ng : nat * GrainInfo T) : Majority :=
  if candidate Phase p ng
  then
    if Volume (snd ng) >? MajorityVolume m
    then {| MajorityIndex := N.of_nat (fst ng);
            MajorityVolume := Volume (snd ng);
            MajorityFound := true;
            Nfields := (Nfields m + 1)%Z |}
    else {| MajorityIndex := MajorityIndex m;
            MajorityVolume := MajorityVolume m;
            MajorityFound := MajorityFound m;
            Nfields := (Nfields m + 1)%Z |}
  else m.

Definition find_majority (Phase : N -> N) (p : N)
    (FieldsProperties : list (GrainInfo T)) : Majority :=
  fold_left (majority_step Phase p)
            (combine (seq 0 (length FieldsProperties)) FieldsProperties)
            {| MajorityIndex := 0%N; MajorityVolume := s0;
               MajorityFound := false; Nfields := 0%Z |}.

(** The stage of a registry entry; an index beyond the registry (an
    out-of-range read in the program) counts as not [Stable]. *)
Definition stage_of (FieldsProperties : list (GrainInfo T)) (idx : N)
    : GrainStages :=
  match nth_error FieldsProperties (N.to_nat idx) with
  | Some g => Stage g
  | None => Seed
  end.

(** [CombinePhaseFields] for one phase [p] with [Combine[p]] set, on the
    cells of the single-resolution storage. *)
Definition CombinePhaseFields_phase (Phase : N -> N)
    (FieldsProperties : list (GrainInfo T)) (p : N)
    (cells : list (NodePF T)) : list (NodePF T) :=
  let m := find_majority Phase p FieldsProperties in
  if MajorityFound m && (1 <? Nfields m)%Z
  then map (fun n =>
              {| flag := flag n;
                 Fields := CombinePhaseFields_cell Phase
                             (stage_of FieldsProperties) p (MajorityIndex m)
                             (Fields n) |})
           cells
  else cells.

(** The body of the storage loop of [SelectiveCombinePhaseFieldsSR]. *)
Definition SelectiveCombine_cell (TargetPFIndex SourcePFIndex : N)
    (fields : list (PFEntry T)) : list (PFEntry T) :=
  let ChangedPF := existsb (fun it => N.eqb (index it) SourcePFIndex) fields in
  let (fields', loc_value) := absorb (fun idx => N.eqb idx SourcePFIndex) fields s0 in
  if ChangedPF then add_value fields' TargetPFIndex loc_value else fields'.

(** The body of the storage loop of [FixSpreading]. *)
Definition FixSpreading_cell (StageOf : N -> GrainStages) (cutoff : T)
    (n : NodePF T) : NodePF T :=
  {| flag := flag n;
     Fields :=
       map (fun alpha =>
              if (value alpha <? cutoff)
                 && match StageOf (index alpha) with Stable => true | _ => false end
              then {| index := index alpha; value := s0 |}
              else alpha)
           (Fields n) |}.

(** The factor [MergeIncrementsSR] and [NewFractions] put on a record. *)
Definition damping (violation : N -> bool) (growth : N -> N -> T)
    (psi : ABEntry T) : T :=
  if violation (indexA psi) && violation (indexB psi)
  then s1 * growth (indexA psi) (indexB psi) else s1.

(** The total of the values of the entries whose index is selected. *)
Definition selected_total (sel : N -> bool) (l : list (PFEntry T)) : T :=
  fold_left (fun a it => if sel (index it) then a + value it else a) l s0.

(** [PhaseField::GetPresentPhaseFields]. *)
Definition GetPresentPhaseFields (FieldsProperties : list (GrainInfo T))
    : list Z :=
  map (fun ng => Z.of_nat (fst ng))
      (filter (fun ng => Exist (snd ng))
              (combine (seq 0 (length FieldsProperties)) FieldsProperties)).

End CellQueries.

(** The sum of the squares of a cell's values, and the sum of the products
    of its values over the pairs of different entries. *)
Definition sum_squares (l : list (PFEntry Q)) : Q :=
  fold_right (fun e a => value e * value e + a)%Q 0%Q l.

Fixpoint cross_products (l : list (PFEntry Q)) : Q :=
  match l with
  | [] => 0%Q
  | a :: r => (value a * sum_values r + cross_products r)%Q
  end.

(** ** Temperature: prescribed profile, statistics and frame shift *)

Section TemperatureControl.

Context {T : Type} `{Scalar T}.
Local Open Scope sc_scope.

(** The search of [Temperature::Set] through the table read from file:
    [for(size_t i = 1; i < nEntries; i++)] with [prev] the entry [i-1] and
    the head of [rest] the entry [i]; the first interval that holds the
    time ends the loop. *)
Fixpoint profile_scan (simulation_time : T) (prev : T * T)
    (rest : list (T * T)) (TemperatureInput : T) : T :=
  match rest with
  | [] => TemperatureInput
  | cur :: rest' =>
      if (simulation_time >=? fst prev) && (simulation_time <? fst cur)
      then
        let TemperatureInput := snd prev in
        let locTimeRange := fst cur - fst prev in
        if locTimeRange >? DBL_EPSILON
        then
          let locTimeOffset := simulation_time - fst prev in
          let locTempRange := snd cur - snd prev in
          TemperatureInput + locTimeOffset * locTempRange / locTimeRange
        else TemperatureInput
      else profile_scan simulation_time cur rest' TemperatureInput
  end.

(** The temperature [Temperature::Set] takes from the table
    [TemperatureProfile] of (time, temperature) pairs; [None] is the exit
    on an empty table. *)
Definition TemperatureInput (TemperatureProfile : list (T * T))
    (simulation_time : T) : option T :=
  match TemperatureProfile with
  | [] => None
  | [e] => Some (snd e)
  | first :: rest =>
      if simulation_time <=? fst first then Some (snd first)
      else if simulation_time >=? fst (last rest first)
      then Some (snd (last rest first))
      else Some (profile_scan simulation_time first rest (sofZ 293))
  end.

(** [Temperature::CalculateMinMaxAvg] over the interior cells, read in the
    order of the storage loop. *)
Record MinMaxAvg : Type := { Tmin : T; Tmax : T; Tavg : T }.

Definition CalculateMinMaxAvg (cells : list T) (TotalNumberOfCells : T)
    : MinMaxAvg :=
  let '(locTmin, locTmax, locTavg) :=
    fold_left
      (fun st tx =>
         let '(locTmin, locTmax, locTavg) := st in
         (std_min locTmin tx, std_max locTmax tx, locTavg + tx))
      cells (sofZ 6000, s0, s0) in
  {| Tmin := locTmin; Tmax := locTmax; Tavg := locTavg / TotalNumberOfCells |}.

(** The test [if(Tmin < 0.0)] that ends the run with "Negative temperature
    detected!". *)
Definition negative_temperature_detected (cells : list T)
    (TotalNumberOfCells : T) : bool :=
  Tmin (CalculateMinMaxAvg cells TotalNumberOfCells) <? s0.

End TemperatureControl.

(** ** MoveFrame: shifting a storage in place *)

Section FrameShift.

(** The values the counter takes in
    [for(int i = Beg; ((d >= 0) and (i <= End)) or ((d < 0) and (i >= End)); i += Inc)],
    at most [n] of them. *)
Fixpoint frame_steps (n : nat) (d i End Inc : Z) : list Z :=
  match n with
  | O => []
  | S n' =>
      if ((d >=? 0) && (i <=? End) || (d <? 0) && (i >=? End))%Z
      then i :: frame_steps n' d (i + Inc)%Z End Inc
      else []
  end.

(** The loop of [MoveFrame] along one axis of [N] cells:
    [Beg = (d >= 0) + (d < 0)*N - 1], [End = (d >= 0)*N + (d < 0) - 1],
    [Inc = 1 - 2*(d < 0)]. *)
Definition frame_range (d N : Z) : list Z :=
  let Beg := (Z.b2z (d >=? 0) + Z.b2z (d <? 0) * N - 1)%Z in
  let End := (Z.b2z (d >=? 0) * N + Z.b2z (d <? 0) - 1)%Z in
  let Inc := (1 - 2 * Z.b2z (d <? 0))%Z in
  frame_steps (Z.to_nat N) d Beg End Inc.

(** The cells the three nested loops visit, in their order. *)
Definition frame_cells (dx dy dz : Z) (g : GridParameters) : list (Z * Z * Z) :=
  flat_map (fun i =>
    flat_map (fun j => map (fun k => (i, j, k)) (frame_range dz (Nz g)))
             (frame_range dy (Ny g)))
    (frame_range dx (Nx g)).

(** [Tx(i,j,k) = Tx(i + dx*Grid.dNx, j + dy*Grid.dNy, k + dz*Grid.dNz)],
    the storage read and written in place. *)
Definition shift_cell {A : Type} (dx dy dz : Z) (g : GridParameters)
    (s : Storage3D A) (c : Z * Z * Z) : Storage3D A :=
  let '(i, j, k) := c in
  poke s i j k (s (i + dx * dNx g)%Z (j + dy * dNy g)%Z (k + dz * dNz g)%Z).

(** The loop nest of [Temperature::MoveFrame] and of
    [PhaseField::MoveFrameSR] (there once for [Fields] and once for
    [Fractions]). *)
Definition MoveFrame {A : Type} (dx dy dz : Z) (g : GridParameters)
    (s : Storage3D A) : Storage3D A :=
  fold_left (shift_cell dx dy dz g) (frame_cells dx dy dz g) s.

End FrameShift.

(** ** Notions used to state the properties of the temperature field *)

(** [v] lies between two temperatures of the table. *)
Definition within_table (profile : list (Q * Q)) (v : Q) : Prop :=
  exists e1 e2, In e1 profile /\ In e2 profile /\ (snd e1 <= v <= snd e2)%Q.

(** The table entry [a] has an earlier time than [b]. *)
Definition earlier (a b : Q * Q) : Prop := (fst a < fst b)%Q.

Definition in_box (xlo xhi ylo yhi zlo zhi i j k : Z) : bool :=
  ((xlo <=? i) && (i <? xhi) && (ylo <=? j) && (j <? yhi)
   && (zlo <=? k) && (k <? zhi))%Z.

Section Boundaries.

Context {T : Type} `{Scalar T}.

(** The last boundary block of [SetInitial] that is set (its temperature is
    not 0) and covers the cell decides its value; a cell no such block
    covers holds the profile. *)
Definition boundary_or_profile (p : TemperatureSettings T) (tx : Storage3D T)
    (i j k : Z) : T :=
  let xlo := (- BcellsX p)%Z in let xhi := (sizeX p + BcellsX p)%Z in
  let ylo := (- BcellsY p)%Z in let yhi := (sizeY p + BcellsY p)%Z in
  let zlo := (- BcellsZ p)%Z in let zhi := (sizeZ p + BcellsZ p)%Z in
  if negb (seqb (TBCNZ p) s0) && in_box xlo xhi ylo yhi (sizeZ p) zhi i j k
  then TBCNZ p
  else if negb (seqb (TBCNY p) s0) && in_box xlo xhi (sizeY p) yhi zlo zhi i j k
  then TBCNY p
  else if negb (seqb (TBCNX p) s0) && in_box (sizeX p) xhi ylo yhi zlo zhi i j k
  then TBCNX p
  else if negb (seqb (TBC0Z p) s0) && in_box xlo xhi ylo yhi zlo 0 i j k
  then TBC0Z p
  else if negb (seqb (TBC0X p) s0) && in_box xlo 0 ylo yhi zlo zhi i j k
  then TBC0X p
  else initial_profile p tx i j k.

End Boundaries.

(** The direction of a sweep of [MoveFrame]: 1 when the shift is not
    negative, else -1; and the order in which its loop nest visits two
    cells. *)
Definition sweep_sign (d : Z) : Z := if (d >=? 0)%Z then 1%Z else (-1)%Z.

Definition visited_before (dx dy dz : Z) (c c' : Z * Z * Z) : Prop :=
  let '(i, j, k) := c in
  let '(i', j', k') := c' in
  (sweep_sign dx * i < sweep_sign dx * i'
   \/ (i = i' /\ (sweep_sign dy * j < sweep_sign dy * j'
                  \/ (j = j' /\ sweep_sign dz * k < sweep_sign dz * k'))))%Z.

(** ** PhaseField::SolidMassDensity *)

(** The conversion of a [double] to [size_t] in
    [FieldsProperties[alpha->value]]: the fraction is discarded.  (A value
    that is negative, not a number or too large has no defined conversion;
    0 stands for it.) *)
Class Truncating (T : Type) : Type := to_size_t : T -> N.

#[export] Instance truncate_binary64 : Truncating float := fun f =>
  match Prim2SF f with
  | S754_finite false m e =>
      Z.to_N (if (0 <=? e)%Z then Z.pos m * 2 ^ e else Z.pos m / 2 ^ (- e))
  | _ => 0%N
  end.

#[export] Instance truncate_exactQ : Truncating Q := fun q =>
  Z.to_N (Z.quot (Qnum q) (Z.pos (Qden q))).

Section SolidMass.

Context {T : Type} `{Scalar T} `{Truncating T}.
Local Open Scope sc_scope.

(** [SolidMassDensity += alpha->value*FieldsProperties[alpha->value].Density]
    for the solid entries of the cell: the registry is indexed by the value
    of the entry.  [Density n] is [FieldsProperties[n].Density]. *)
Definition SolidMassDensity (is_solid : N -> bool) (Density : N -> T)
    (n : NodePF T) : T :=
  fold_left
    (fun a alpha =>
       if is_solid (index alpha)
       then a + value alpha * Density (to_size_t (value alpha))
       else a)
    (Fields n) s0.

End SolidMass.

(** ** Settings::GridHistoryParameters *)

Section History.

Context {G : Type}.

(** The loop over [n = 0 .. GridHistory.size()-1] with its [break]. *)
Fixpoint history_scan (ns : list nat) (time_step : Z)
    (history_record_idx : nat) : nat :=
  match ns with
  | [] => history_record_idx
  | n :: ns' =>
      if (Z.of_nat n <=? time_step)%Z
      then history_scan ns' time_step n
      else history_record_idx
  end.

(** [None] is the read of [GridHistory[0]] in an empty history. *)
Definition GridHistoryParameters (GridHistory : list G) (time_step : Z)
    : option G :=
  let time_step := if (time_step <? 0)%Z then 0%Z else time_step in
  nth_error GridHistory
            (history_scan (seq 0 (length GridHistory)) time_step 0).

End History.

(** ** Notions used to state the further properties of the phase field *)

(** Every selected entry of [l] holds the value 0.0. *)
Definition cleared (sel : N -> bool) (l : list (PFEntry Q)) : Prop :=
  forall e, In e l -> sel (index e) = true -> value e = 0%Q.

(** The record [e'] is the record [e] with each of its two tracked values
    multiplied by a factor between 0 and 1. *)
Definition limited_from (e e' : ABEntry Q) : Prop :=
  indexA e' = indexA e /\ indexB e' = indexB e /\
  exists c1 c2 : Q,
    (0 <= c1 <= 1 /\ 0 <= c2 <= 1 /\
     value1 e' == c1 * value1 e /\ value2 e' == c2 * value2 e)%Q.

(** The totals of "Collect increments": the positive one is not negative,
    the negative one not positive; and the limits of "Calculate limits". *)
Definition signed_totals (e : ABEntry Q) : Prop :=
  (0 <= value1 e /\ value2 e <= 0)%Q.

Definition unit_limits (e : ABEntry Q) : Prop :=
  (0 <= value1 e <= 1 /\ 0 <= value2 e <= 1)%Q.

(** ** Nucleation: seed positions, shielding and the generation loop *)

Module NucleiLocationModes.
(** The modes named in [SetSeedPosition] and [CheckLocation]. *)
Inductive t : Type :=
  | XBottom | XTop | YBottom | YTop | ZBottom | ZTop
  | BulkAndInterfaces | Bulk | BulkAndGrainBoundaries | GrainBoundaries
  | PhaseBoundaries | Junctions | Interfaces.
End NucleiLocationModes.

Module NucleiSizeDistributions.
(** The distributions named in [SetSeedRadius]. *)
Inductive t : Type := Normal | Cauchy | Uniform | FixedRadius | None.
End NucleiSizeDistributions.

Module Nucleation.

Section Seeds.

Context {T : Type} `{Scalar T}.
(** [Quaternion], and the state of the random number generators. *)
Context {Orientation Gen : Type}.
Local Open Scope sc_scope.

Record Nucleus : Type := {
  position : Z * Z * Z;
  radius : T;
  orientation : Orientation
}.

(** The members of [NucleationParameters] read or written below; the
    three [PositionDistribution_b] are [PositionDistributionX.b()] and so
    on, the largest coordinate the distribution draws ([Initialize] and
    [Remesh] set it to [Grid.TotalNx - 1]). *)
Record NucleationParameters : Type := {
  Allowed : bool;
  Generated : bool;
  Tmin : T;
  Tmax : T;
  MatrixPhase : N;
  LocationMode : NucleiLocationModes.t;
  Distribution : NucleiSizeDistributions.t;
  SeedRadius : T;
  SeedRadiusMIN : T;
  SeedRadiusMAX : T;
  ShieldingRadius : T;
  PositionDistributionX_b : Z;
  PositionDistributionY_b : Z;
  PositionDistributionZ_b : Z;
  Nsites : N;
  Nseeds : N;
  GeneratedNuclei : list Nucleus
}.

(** The draws from the random number generators. *)
Variable SizeDistributionNormal SizeDistributionCauchy
         SizeDistributionUniform : Gen -> T * Gen.
Variable PositionDistributionX PositionDistributionY
         PositionDistributionZ : Gen -> Z * Gen.
(** [NucleationParameters::SetSeedOrientation]. *)
Variable SetSeedOrientation : NucleationParameters -> Gen -> Orientation * Gen.

Definition half : T := s1 / sofZ 2.
Definition quarter : T := s1 / sofZ 4.

(** [NucleationParameters::SetSeedRadius] (the warning written for a
    radius of 0 is not part of the result). *)
Definition SetSeedRadius (P : NucleationParameters) (g : Gen) : T * Gen :=
  match Distribution P with
  | NucleiSizeDistributions.Normal =>
      let (d, g') := SizeDistributionNormal g in (half * d, g')
  | NucleiSizeDistributions.Cauchy =>
      let (d, g') := SizeDistributionCauchy g in (half * d, g')
  | NucleiSizeDistributions.Uniform =>
      let (d, g') := SizeDistributionUniform g in (half * d, g')
  | NucleiSizeDistributions.FixedRadius
  | NucleiSizeDistributions.None => (SeedRadius P, g)
  end.

(** [NucleationParameters::SetSeedPosition]. *)
Definition SetSeedPosition (P : NucleationParameters) (g : Gen)
    : Z * Z * Z * Gen :=
  let (x, g1) :=
    match LocationMode P with
    | NucleiLocationModes.XBottom => (0%Z, g)
    | NucleiLocationModes.XTop => ((PositionDistributionX_b P - 1)%Z, g)
    | _ => PositionDistributionX g
    end in
  let (y, g2) :=
    match LocationMode P with
    | NucleiLocationModes.YBottom => (0%Z, g1)
    | NucleiLocationModes.YTop => ((PositionDistributionY_b P - 1)%Z, g1)
    | _ => PositionDistributionY g1
    end in
  let (z, g3) :=
    match LocationMode P with
    | NucleiLocationModes.ZBottom => (0%Z, g2)
    | NucleiLocationModes.ZTop => ((PositionDistributionZ_b P - 1)%Z, g2)
    | _ => PositionDistributionZ g2
    end in
  (x, y, z, g3).

(** [std::min(std::fabs(x - p), std::min(std::fabs(x - p + TotalN),
    std::fabs(x - p - TotalN)))]. *)
Definition axis_distance (x p TotalN : Z) : T :=
  std_min (sabs (sofZ (x - p)))
          (std_min (sabs (sofZ (x - p + TotalN)))
                   (sabs (sofZ (x - p - TotalN)))).

(** [distanceSquare] of [PositionNotShielded] for one generated nucleus. *)
Definition distanceSquare (P : NucleationParameters) (pos : Z * Z * Z)
    (it : Nucleus) : T :=
  let '(x, y, z) := pos in
  let '(px, py, pz) := position it in
  let xdis := axis_distance x px (PositionDistributionX_b P) in
  let ydis := axis_distance y py (PositionDistributionY_b P) in
  let zdis := axis_distance z pz (PositionDistributionZ_b P) in
  xdis * xdis + ydis * ydis + zdis * zdis.

(** [NucleationParameters::PositionNotShielded]. *)
Definition PositionNotShielded (P : NucleationParameters) (pos : Z * Z * Z)
    : bool :=
  let ShieldingRadiusSquare := ShieldingRadius P * ShieldingRadius P in
  fold_left
    (fun my_return it =>
       if distanceSquare P pos it <? ShieldingRadiusSquare
       then false else my_return)
    (GeneratedNuclei P) true.

(** [NucleationParameters::CheckLocation].  [PositionInLocalBounds] and
    [Offset] are those of [Phase.Grid]; [PhaseFields] is [Phase.Fields]
    and [Fractions] is [Phase.Fractions]. *)
Definition CheckLocation (PositionInLocalBounds : Z * Z * Z -> bool)
    (Offset : Z * Z * Z) (PhaseFields : Storage3D (NodePF T))
    (Fractions : Storage3D (N -> T)) (P : NucleationParameters)
    (loc_position : Z * Z * Z) : bool :=
  if PositionInLocalBounds loc_position && PositionNotShielded P loc_position
  then
    let '(x, y, z) := loc_position in
    let '(OffsetX, OffsetY, OffsetZ) := Offset in
    let i := (x - OffsetX)%Z in
    let j := (y - OffsetY)%Z in
    let k := (z - OffsetZ)%Z in
    let fraction := Fractions i j k (MatrixPhase P) in
    match LocationMode P with
    | NucleiLocationModes.XBottom | NucleiLocationModes.XTop
    | NucleiLocationModes.YBottom | NucleiLocationModes.YTop
    | NucleiLocationModes.ZBottom | NucleiLocationModes.ZTop
    | NucleiLocationModes.BulkAndInterfaces => fraction >? quarter
    | NucleiLocationModes.Bulk =>
        negb (interface (PhaseFields i j k)) && (fraction =? s1)
    | NucleiLocationModes.BulkAndGrainBoundaries => fraction =? s1
    | NucleiLocationModes.GrainBoundaries =>
        interface (PhaseFields i j k) && (fraction =? s1)
    | NucleiLocationModes.PhaseBoundaries =>
        interface (PhaseFields i j k) && (fraction <? s1) && (fraction >? quarter)
    | NucleiLocationModes.Junctions =>
        (fraction =? s1) && (2 <? length (Fields (PhaseFields i j k)))%nat
    | NucleiLocationModes.Interfaces =>
        interface (PhaseFields i j k) && (fraction >? quarter)
    end
  else false.

(** [Phase.Fractions(i,j,k,{MatrixPhase})] at the cell of a position. *)
Definition matrix_fraction_at (Offset : Z * Z * Z)
    (Fractions : Storage3D (N -> T)) (P : NucleationParameters)
    (pos : Z * Z * Z) : T :=
  let '(x, y, z) := pos in
  let '(OffsetX, OffsetY, OffsetZ) := Offset in
  Fractions (x - OffsetX)%Z (y - OffsetY)%Z (z - OffsetZ)%Z (MatrixPhase P).

(** The state of the [while] loop of [GenerateSeeds]: the parameters it
    updates, its counter [attempts] and the random number generators. *)
Record SeedLoop : Type := {
  Parameters : NucleationParameters;
  attempts : Z;
  generators : Gen
}.

Definition push_back_seed (P : NucleationParameters) (locSeed : Nucleus)
    : NucleationParameters :=
  {| Allowed := Allowed P; Generated := Generated P;
     Tmin := Tmin P; Tmax := Tmax P;
     MatrixPhase := MatrixPhase P; LocationMode := LocationMode P;
     Distribution := Distribution P; SeedRadius := SeedRadius P;
     SeedRadiusMIN := SeedRadiusMIN P; SeedRadiusMAX := SeedRadiusMAX P;
     ShieldingRadius := ShieldingRadius P;
     PositionDistributionX_b := PositionDistributionX_b P;
     PositionDistributionY_b := PositionDistributionY_b P;
     PositionDistributionZ_b := PositionDistributionZ_b P;
     Nsites := Nsites P;
     Nseeds := (Nseeds P + 1)%N;
     GeneratedNuclei := GeneratedNuclei P ++ [locSeed] |}.

Definition set_Generated (P : NucleationParameters) (b : bool)
    : NucleationParameters :=
  {| Allowed := Allowed P; Generated := b;
     Tmin := Tmin P; Tmax := Tmax P;
     MatrixPhase := MatrixPhase P; LocationMode := LocationMode P;
     Distribution := Distribution P; SeedRadius := SeedRadius P;
     SeedRadiusMIN := SeedRadiusMIN P; SeedRadiusMAX := SeedRadiusMAX P;
     ShieldingRadius := ShieldingRadius P;
     PositionDistributionX_b := PositionDistributionX_b P;
     PositionDistributionY_b := PositionDistributionY_b P;
     PositionDistributionZ_b := PositionDistributionZ_b P;
     Nsites := Nsites P;
     Nseeds := Nseeds P;
     GeneratedNuclei := GeneratedNuclei P |}.

(** One turn of the body of the loop; [check] is [CheckLocation] on the
    phase field of the call. *)
Definition seed_turn (check : NucleationParameters -> Z * Z * Z -> bool)
    (st : SeedLoop) : SeedLoop :=
  let P := Parameters st in
  let (loc_radius, g1) := SetSeedRadius P (generators st) in
  if (loc_radius >=? SeedRadiusMIN P) && (loc_radius <=? SeedRadiusMAX P)
  then
    let '(loc_position, g2) := SetSeedPosition P g1 in
    if check P loc_position
    then
      let (o, g3) := SetSeedOrientation P g2 in
      let locSeed := {| position := loc_position; radius := loc_radius;
                        orientation := o |} in
      {| Parameters := push_back_seed P locSeed; attempts := 0;
         generators := g3 |}
    else {| Parameters := P; attempts := (attempts st + 1)%Z; generators := g2 |}
  else {| Parameters := P; attempts := (attempts st + 1)%Z; generators := g1 |}.

(** [while (Nseeds < Nsites and attempts < NumberOfAttempts)]; [fuel]
    bounds the number of turns the model may take. *)
Fixpoint seed_loop (fuel : nat)
    (check : NucleationParameters -> Z * Z * Z -> bool)
    (NumberOfAttempts : Z) (st : SeedLoop) : option SeedLoop :=
  match fuel with
  | O => None
  | S fuel' =>
      if (Nseeds (Parameters st) <? Nsites (Parameters st))%N
         && (attempts st <? NumberOfAttempts)%Z
      then seed_loop fuel' check NumberOfAttempts (seed_turn check st)
      else Some st
  end.

(** [Nucleation::GenerateSeeds] for one pair of phases: the parameters and
    the generators after it ([Tx_Tmin] and [Tx_Tmax] are those of the
    temperature field; the messages written are not part of the
    result). *)
Definition GenerateSeeds (fuel : nat)
    (check : NucleationParameters -> Z * Z * Z -> bool)
    (NumberOfAttempts : Z) (Tx_Tmin Tx_Tmax : T)
    (P : NucleationParameters) (g : Gen)
    : option (NucleationParameters * Gen) :=
  if Allowed P && negb (Generated P)
     && (Tmin P <=? Tx_Tmax) && (Tmax P >=? Tx_Tmin)
  then
    match seed_loop fuel check NumberOfAttempts
            {| Parameters := set_Generated P true; attempts := 0;
               generators := g |} with
    | Some st => Some (Parameters st, generators st)
    | None => None
    end
  else Some (P, g).

(** [P'] is [P] after some seeds have been pushed back, each one accepted
    by [check] on the parameters as they were when it was drawn, with its
    radius in the admitted range. *)
Inductive grown (check : NucleationParameters -> Z * Z * Z -> bool)
    : NucleationParameters -> NucleationParameters -> Prop :=
  | grown_none : forall P, grown check P P
  | grown_seed : forall P locSeed P',
      (Nseeds P < Nsites P)%N ->
      (radius locSeed >=? SeedRadiusMIN P) = true ->
      (radius locSeed <=? SeedRadiusMAX P) = true ->
      check P (position locSeed) = true ->
      grown check (push_back_seed P locSeed) P' ->
      grown check P P'.

(** The largest number of turns the loop can still take. *)
Definition turns_left (NumberOfAttempts : Z) (st : SeedLoop) : nat :=
  if (Nseeds (Parameters st) <? Nsites (Parameters st))%N
     && (attempts st <? NumberOfAttempts)%Z
  then ((N.to_nat (Nsites (Parameters st) - Nseeds (Parameters st)) - 1)
        * Z.to_nat NumberOfAttempts
        + Z.to_nat (NumberOfAttempts - attempts st))%nat
  else 0%nat.

End Seeds.

End Nucleation.

(** A run of the seed generation used below: two sites to fill in a box
    whose coordinates run from 0 to 9, fixed radius 1, shielding radius 2;
    the generators are a counter, the draw number [n] gives the coordinate
    [3 n mod 10] on every axis. *)
Definition two_sites : @Nucleation.NucleationParameters Q unit :=
  {| Nucleation.Allowed := true; Nucleation.Generated := false;
     Nucleation.Tmin := 0%Q; Nucleation.Tmax := 2000%Q;
     Nucleation.MatrixPhase := 0%N;
     Nucleation.LocationMode := NucleiLocationModes.BulkAndInterfaces;
     Nucleation.Distribution := NucleiSizeDistributions.FixedRadius;
     Nucleation.SeedRadius := 1%Q;
     Nucleation.SeedRadiusMIN := 0%Q; Nucleation.SeedRadiusMAX := 5%Q;
     Nucleation.ShieldingRadius := 2%Q;
     Nucleation.PositionDistributionX_b := 9%Z;
     Nucleation.PositionDistributionY_b := 9%Z;
     Nucleation.PositionDistributionZ_b := 9%Z;
     Nucleation.Nsites := 2%N; Nucleation.Nseeds := 0%N;
     Nucleation.GeneratedNuclei := [] |}.

Definition counted_size (n : nat) : Q * nat := (2%Q, S n).
Definition counted_position (n : nat) : Z * nat :=
  ((3 * Z.of_nat n) mod 10, S n)%Z.
Definition plain_orientation
    (P : @Nucleation.NucleationParameters Q unit) (n : nat) : unit * nat :=
  (tt, n).

(** ** PhaseField::VicinityPhaseFields *)

(** [std::sort] on a vector of [int], here by insertion. *)
Fixpoint insert_sorted (x : Z) (l : list Z) : list Z :=
  match l with
  | [] => [x]
  | y :: r => if (x <=? y)%Z then x :: l else y :: insert_sorted x r
  end.

Definition std_sort (l : list Z) : list Z := fold_right insert_sorted [] l.

(** [std::unique] followed by [erase]: of every run of equal neighbours the
    first is kept; [x] is the element kept last. *)
Fixpoint unique_after (x : Z) (l : list Z) : list Z :=
  match l with
  | [] => []
  | y :: r => if (x =? y)%Z then unique_after x r else y :: unique_after y r
  end.

Definition std_unique (l : list Z) : list Z :=
  match l with
  | [] => []
  | x :: r => x :: unique_after x r
  end.

Section Vicinity.

Context {T : Type} `{Scalar T}.

(** [None] is the call of [front()] on a cell without entries. *)
Definition VicinityPhaseFields (g : GridParameters)
    (F : Storage3D (NodePF T)) (c : Z * Z * Z) : option (list Z) :=
  match Fields (at3 F c) with
  | [] => None
  | front :: _ =>
      let tempPFindex :=
        Z.of_N (index front)
        :: flat_map
             (fun c' =>
                map (fun alpha => Z.of_N (index alpha))
                    (filter (fun alpha => negb (N.eqb (index alpha) (index front)))
                            (Fields (at3 F c'))))
             (neighbourhood g c) in
      Some (std_unique (std_sort tempPFindex))
  end.

End Vicinity.

(** ** Temperature::Set: the controlled temperature increment *)

Module ControlModes.
Inductive t : Type := None | Linear | Newton.
End ControlModes.

Section Control.

Context {T : Type} `{Scalar T}.
Local Open Scope sc_scope.

Record ControlParameter : Type := {
  ActivationTime : T;
  Mode : ControlModes.t;
  HoldingTemperature : T;
  LinearRate : T;
  NewtonRate : T
}.

(** [ControlCycle]: the loop over all [n] keeps the last one whose
    activation time has come; [-1] when there is none. *)
Definition ControlCycle (ControlParameters : list ControlParameter)
    (simulation_time : T) : Z :=
  fold_left
    (fun cycle ncp =>
       if simulation_time >=? ActivationTime (snd ncp)
       then Z.of_nat (fst ncp) else cycle)
    (combine (seq 0 (length ControlParameters)) ControlParameters)
    (-1)%Z.

(** "Apply temperature increment in all points": the new value of a cell
    whose value is [tx], for the control parameters [cp] of the cycle and
    the average [Tavg] of the field. *)
Definition control_cell (cp : ControlParameter) (Tavg dt tx : T) : T :=
  match Mode cp with
  | ControlModes.Linear =>
      if (HoldingTemperature cp >? Tavg) && (LinearRate cp >? s0)
         || (HoldingTemperature cp <? Tavg) && (LinearRate cp <? s0)
      then tx + dt * LinearRate cp
      else tx
  | ControlModes.Newton =>
      tx + dt * NewtonRate cp * (HoldingTemperature cp - tx)
  | ControlModes.None => tx
  end.

Definition controlled_temperature (ControlParameters : list ControlParameter)
    (simulation_time Tavg dt tx : T) : T :=
  let cycle := ControlCycle ControlParameters simulation_time in
  if (cycle =? -1)%Z then tx
  else
    match nth_error ControlParameters (Z.to_nat cycle) with
    | Some cp => control_cell cp Tavg dt tx
    | None => tx
    end.

End Control.

(** ** ConsumePlane: closing the storage over a plane, in place *)

Section PlaneConsumed.

(** The counter of the second loop nest,
    [for(int i = Beg; ((d >= 0) and (i >= End)) or ((d < 0) and (i <= End)); i += Inc)]. *)
Fixpoint back_steps (n : nat) (d i End Inc : Z) : list Z :=
  match n with
  | O => []
  | S n' =>
      if ((d >=? 0) && (i >=? End) || (d <? 0) && (i <=? End))%Z
      then i :: back_steps n' d (i + Inc)%Z End Inc
      else []
  end.

(** [Beg = (d >= 0)*N + (d < 0) - 1], [End = (d >= 0) + (d < 0)*N - 1],
    [Inc = 2*(d < 0) - 1]. *)
Definition back_range (d N : Z) : list Z :=
  let Beg := (Z.b2z (d >=? 0) * N + Z.b2z (d <? 0) - 1)%Z in
  let End := (Z.b2z (d >=? 0) + Z.b2z (d <? 0) * N - 1)%Z in
  let Inc := (2 * Z.b2z (d <? 0) - 1)%Z in
  back_steps (Z.to_nat N) d Beg End Inc.

Definition back_cells (dx dy dz : Z) (g : GridParameters) : list (Z * Z * Z) :=
  flat_map (fun i =>
    flat_map (fun j => map (fun k => (i, j, k)) (back_range dz (Nz g)))
             (back_range dy (Ny g)))
    (back_range dx (Nx g)).

(** [(i-x)*dx+(j-y)*dy+(k-z)*dz]. *)
Definition plane_side (dx dy dz x y z : Z) (c : Z * Z * Z) : Z :=
  let '(i, j, k) := c in ((i - x) * dx + (j - y) * dy + (k - z) * dz)%Z.

(** [Tx(i,j,k) = Tx(i - dx*Grid.dNx, j - dy*Grid.dNy, k - dz*Grid.dNz)]. *)
Definition pull_cell {A : Type} (dx dy dz : Z) (g : GridParameters)
    (s : Storage3D A) (c : Z * Z * Z) : Storage3D A :=
  let '(i, j, k) := c in
  poke s i j k (s (i - dx * dNx g)%Z (j - dy * dNy g)%Z (k - dz * dNz g)%Z).

(** The two loop nests of [Temperature::ConsumePlane] and of
    [PhaseField::ConsumePlaneSR]. *)
Definition ConsumePlane {A : Type} (dx dy dz x y z : Z) (g : GridParameters)
    (s : Storage3D A) : Storage3D A :=
  let s :=
    fold_left
      (fun s c => if (plane_side dx dy dz x y z c >=? 0)%Z
                  then shift_cell dx dy dz g s c else s)
      (frame_cells dx dy dz g) s in
  fold_left
    (fun s c => if (plane_side dx dy dz x y z c <? 0)%Z
                then pull_cell dx dy dz g s c else s)
    (back_cells dx dy dz g) s.

End PlaneConsumed.

(** The direction in which the second loop nest of [ConsumePlane] runs,
    as a shift of [MoveFrame] with the same order. *)
Definition backwards (d : Z) : Z := if (d >=? 0)%Z then (-1)%Z else 0%Z.

(** * Properties *)

(** ** Exact arithmetic: booleans and sums *)

Ltac qsimp :=
  cbn [s0 s1 sadd ssub smul sdiv sopp sabs sltb sleb seqb sofZ
       DBL_EPSILON FLT_EPSILON exactQ] in *.

Lemma Qlt_bool_iff (a b : Q) : Qlt_bool a b = true <-> (a < b)%Q.
Proof.
  unfold Qlt_bool. rewrite negb_true_iff.
  split; intro Hx.
  - apply Qnot_le_lt. intro Hle. apply Qle_bool_iff in Hle. congruence.
  - destruct (Qle_bool b a) eqn:E; [|reflexivity].
    apply Qle_bool_iff in E. exfalso. apply (Qlt_not_le _ _ Hx E).
Qed.

Lemma Qlt_bool_false (a b : Q) : Qlt_bool a b = false <-> (b <= a)%Q.
Proof.
  unfold Qlt_bool. rewrite negb_false_iff. apply Qle_bool_iff.
Qed.

Lemma Qle_bool_false (a b : Q) : Qle_bool a b = false -> (b < a)%Q.
Proof.
  intro E. apply Qnot_le_lt. intro Hle. apply Qle_bool_iff in Hle. congruence.
Qed.

Lemma Qeq_bool_false (a b : Q) : Qeq_bool a b = false -> ~ (a == b)%Q.
Proof. apply Qeq_bool_neq. Qed.

Section ExactSums.

Local Open Scope Q_scope.

Lemma fold_sum_shift (l : list (PFEntry Q)) (a : Q) :
  fold_left (fun acc e => sadd acc (value e)) l a == a + sum_values l.
Proof.
  revert a. induction l as [|e l IH]; intro a.
  - unfold sum_values. qsimp. simpl. lra.
  - unfold sum_values. simpl fold_left.
    pose proof (IH (sadd a (value e))) as H1.
    pose proof (IH (sadd s0 (value e))) as H2.
    unfold sum_values in *. qsimp. lra.
Qed.

Lemma sum_values_cons (e : PFEntry Q) (l : list (PFEntry Q)) :
  sum_values (e :: l) == value e + sum_values l.
Proof.
  unfold sum_values at 1. simpl fold_left.
  pose proof (fold_sum_shift l (sadd s0 (value e))) as H1. qsimp. lra.
Qed.

Lemma sum_add_value (l : list (PFEntry Q)) (n : N) (v : Q) :
  sum_values (add_value l n v) == sum_values l + v.
Proof.
  induction l as [|e l IH]; simpl add_value.
  - rewrite sum_values_cons. unfold sum_values. qsimp. simpl. lra.
  - destruct (N.eqb (index e) n).
    + rewrite !sum_values_cons. qsimp. simpl. lra.
    + rewrite !sum_values_cons, IH. lra.
Qed.

(** One record moves [v] into [indexA] and [v] out of [indexB]. *)
Lemma merge_record_sum violation growth dt (fields : list (PFEntry Q)) psi :
  sum_values (merge_record violation growth dt fields psi) == sum_values fields.
Proof.
  unfold merge_record.
  match goal with |- context [if ?c then add_value _ _ _ else _] => destruct c end.
  - rewrite !sum_add_value. qsimp. lra.
  - reflexivity.
Qed.

Lemma merge_fields_sum violation growth dt (dot : NodeAB Q) :
  forall fields,
    sum_values (merge_fields violation growth dt fields dot) == sum_values fields.
Proof.
  induction dot as [|psi dot IH]; intro fields.
  - reflexivity.
  - unfold merge_fields in *. simpl. rewrite IH. apply merge_record_sum.
Qed.

Lemma inject_nat_S (n : nat) :
  inject_Z (Z.of_nat (S n)) == inject_Z (Z.of_nat n) + 1.
Proof.
  rewrite Nat2Z.inj_succ. unfold Z.succ. rewrite inject_Z_plus. reflexivity.
Qed.

Lemma inject_nat_nonneg (n : nat) : 0 <= inject_Z (Z.of_nat n).
Proof. unfold Qle. simpl. lia. Qed.

(** Pruning changes the sum by less than machine epsilon per entry. *)
Lemma prune_sum (l : list (PFEntry Q)) :
  Qabs (sum_values (filter (fun e => negb (sltb (sabs (value e)) DBL_EPSILON)) l)
        - sum_values l)
  <= inject_Z (Z.of_nat (length l)) * DBL_EPSILON.
Proof.
  induction l as [|e l IH].
  - apply Qle_bool_iff. reflexivity.
  - cbn [filter length]. rewrite inject_nat_S.
    apply Qabs_Qle_condition in IH. destruct IH as [IH1 IH2].
    assert (Heps : 0 < DBL_EPSILON) by (qsimp; reflexivity).
    pose proof (inject_nat_nonneg (length l)) as Hn.
    pose proof (sum_values_cons e l) as Hc.
    destruct (sltb (sabs (value e)) DBL_EPSILON) eqn:E; cbn [negb].
    + qsimp. apply Qlt_bool_iff in E. apply Qabs_Qlt_condition in E.
      destruct E as [E1 E2]. apply Qabs_Qle_condition. split; nra.
    + match goal with |- context [sum_values (e :: ?k)] =>
        pose proof (sum_values_cons e k) as Hc' end.
      apply Qabs_Qle_condition. qsimp. split; nra.
Qed.

Lemma finalize_sum (n : NodePF Q) :
  Qabs (sum_values (Fields (finalize n)) - sum_values (Fields n))
  <= inject_Z (Z.of_nat (length (Fields n))) * DBL_EPSILON.
Proof. apply prune_sum. Qed.

End ExactSums.

(** C2, amended: under exact arithmetic.  In [MergeIncrementsSR] every
    record adds [v] to [indexA] and [-v] to [indexB], so the store loop
    leaves the sum of the cell's values exactly as it was, for every store,
    damping factor and [dt]; the [finalize] that follows moves it by less
    than machine epsilon per entry.  A cell that summed to 1 therefore sums
    to 1 within that tolerance after the step.  In the program's [double]
    arithmetic a record is skipped or adds some [v] of magnitude at least
    [DBL_EPSILON] to [indexA] and the exact opposite [-v] to [indexB]; the
    two additions round on their own, and neither the equality of the sums
    nor the tolerance carries over (see the binary64 run below). *)
Theorem merge_conserves_cell_sum
    (violation : N -> bool) (growth : N -> N -> Q) (dt : Q)
    (do_finalize clear : bool) (n : NodePF Q) (dot : NodeAB Q) :
  let merged := fst (merge_cell violation growth dt clear n dot) in
  let final := fst (MergeIncrementsSR_cell violation growth dt do_finalize clear n dot) in
  ((sum_values (Fields merged) == sum_values (Fields n))%Q /\
   (Qabs (sum_values (Fields final) - sum_values (Fields n))
    <= inject_Z (Z.of_nat (length (Fields merged))) * DBL_EPSILON)%Q) /\
  (forall (growth64 : N -> N -> float) (dt64 : float)
          (fields : list (PFEntry float)) (psi : ABEntry float),
     merge_record violation growth64 dt64 fields psi = fields \/
     exists v : float,
       PrimFloat.leb DBL_EPSILON (PrimFloat.abs v) = true /\
       merge_record violation growth64 dt64 fields psi
       = add_value (add_value fields (indexA psi) v) (indexB psi)
                   (PrimFloat.opp v)).
Proof.
  cbv zeta. split.
  2:{ intros growth64 dt64 fields psi. unfold merge_record.
      cbn [sleb sabs sopp binary64].
      match goal with |- context [PrimFloat.leb ?a (PrimFloat.abs ?v)] =>
        destruct (PrimFloat.leb a (PrimFloat.abs v)) eqn:E;
        [right; exists v; split; [exact E | reflexivity] | left; reflexivity]
      end. }
  unfold MergeIncrementsSR_cell, merge_cell.
  destruct (wide_interface n) eqn:W; cbn [fst Fields].
  - pose proof (merge_fields_sum violation growth dt dot (Fields n)) as Hs.
    split; [exact Hs|].
    unfold FinalizeSR_cell.
    set (m := {| flag := flag n;
                 Fields := merge_fields violation growth dt (Fields n) dot |}).
    assert (Hm : Fields m = merge_fields violation growth dt (Fields n) dot)
      by reflexivity.
    pose proof (finalize_sum m) as Hf. rewrite Hm in Hf.
    pose proof (inject_nat_nonneg
                  (length (merge_fields violation growth dt (Fields n) dot))) as Hn.
    assert (Heps : (0 < DBL_EPSILON)%Q) by (qsimp; reflexivity).
    destruct (do_finalize && wide_interface m).
    + apply Qabs_Qle_condition in Hf. destruct Hf as [Hf1 Hf2].
      apply Qabs_Qle_condition. qsimp. split; nra.
    + rewrite Hm. apply Qabs_Qle_condition. qsimp. split; nra.
  - split; [reflexivity|].
    pose proof (inject_nat_nonneg (length (Fields n))) as Hn.
    pose proof (finalize_sum n) as Hf.
    unfold FinalizeSR_cell. rewrite W, andb_false_r.
    apply Qabs_Qle_condition. qsimp. split; nra.
Qed.

(** C2, counterexample, in binary64 as the program runs.  The cell
    [{1: 0.3, 2: 0.7}] sums to 1.0; merging the record (1,2) of rate 0.03
    with [dt = 1] adds 0.03 to region 1 and subtracts 0.03 from region 2,
    each sum is rounded on its own, and the cell sums to [1 - 2^-53]
    afterwards: the sum is not preserved exactly.  With the record (1,2) of
    rate 1e6 over [{1: 0.1, 2: 0.2, 3: 0.7}] the sum after the merge and
    [finalize] is off 1.0 by more than [3 * DBL_EPSILON], the bound exact
    arithmetic gives for the three entries. *)
Lemma merge_rounds_the_cell_sum :
  sum_values [pf 1%N 0.3%float; pf 2%N 0.7%float] = 1%float /\
  fst (merge_cell no_violation no_damping 1%float true
         (interface_cell [pf 1%N 0.3%float; pf 2%N 0.7%float])
         [ab 1%N 2%N 0.03%float 0%float])
  = interface_cell [pf 1%N 0.32999999999999996%float;
                    pf 2%N 0.66999999999999993%float] /\
  sum_values [pf 1%N 0.32999999999999996%float;
              pf 2%N 0.66999999999999993%float]
  = 0.99999999999999989%float /\
  PrimFloat.ltb 0.99999999999999989%float 1%float = true /\
  sum_values [pf 1%N 0.1%float; pf 2%N 0.2%float; pf 3%N 0.7%float] = 1%float /\
  PrimFloat.ltb
    (PrimFloat.mul 3%float DBL_EPSILON)
    (PrimFloat.abs
       (PrimFloat.sub
          (sum_values
             (Fields
                (fst (MergeIncrementsSR_cell no_violation no_damping 1%float
                        true true
                        (interface_cell
                           [pf 1%N 0.1%float; pf 2%N 0.2%float; pf 3%N 0.7%float])
                        [ab 1%N 2%N 1e6%float 0%float]))))
          1%float))
  = true.
Proof.
  repeat split; vm_compute; reflexivity.
Qed.

(** Splits a boolean test on rationals into its two propositions. *)
Ltac qbool :=
  match goal with
  | |- context [Qlt_bool ?a ?b] =>
      let E := fresh "E" in
      destruct (Qlt_bool a b) eqn:E;
      [apply Qlt_bool_iff in E | apply Qlt_bool_false in E]
  | |- context [Qle_bool ?a ?b] =>
      let E := fresh "E" in
      destruct (Qle_bool a b) eqn:E;
      [apply Qle_bool_iff in E | apply Qle_bool_false in E]
  | |- context [Qeq_bool ?a ?b] =>
      let E := fresh "E" in
      destruct (Qeq_bool a b) eqn:E;
      [apply Qeq_bool_iff in E | apply Qeq_bool_false in E]
  end.

Ltac qbools := repeat (qbool; try (exfalso; lra)).

(** ** The single-pair fast path keeps its two regions in range *)

Section FastPathBounds.

Local Open Scope Q_scope.

(** What the fast path leaves in the store: nothing, or the record scaled so
    that the first region lands on the bound it would have crossed. *)
Lemma normalize_single_lands (dt : Q) (fields : list (PFEntry Q)) (e : ABEntry Q) :
  let old := get_value fields (indexA e) in
  let valueA := (value1 e + value2 e) * dt in
  0 <= old <= 1 ->
  match normalize_single dt fields [e] with
  | [] => True
  | [e'] =>
      indexA e' = indexA e /\ indexB e' = indexB e /\
      let moved := (value1 e' + value2 e') * dt in
      (old + valueA < 0 -> old + moved == 0) /\
      (1 < old + valueA -> old + moved == 1) /\
      (0 <= old + valueA <= 1 -> moved == valueA)
  | _ => False
  end.
Proof.
  cbv zeta. intros [H0 H1]. unfold normalize_single. qsimp.
  set (old := get_value fields (indexA e)) in *.
  destruct e as [A B v1 v2]. cbn [indexA indexB value1 value2] in *.
  destruct (Qeq_bool old 0 && Qlt_bool ((v1 + v2) * dt) 0
            || Qeq_bool old 1 && Qlt_bool 0 ((v1 + v2) * dt)); [exact I|].
  destruct (Qlt_bool (old + (v1 + v2) * dt) 0) eqn:E1.
  - apply Qlt_bool_iff in E1.
    destruct (Qlt_bool _ _); [|exact I].
    cbn [scale map with1 with2 indexA indexB value1 value2]. qsimp.
    repeat split; try (intros; exfalso; lra).
    intros _. assert (Hne : ~ (v1 + v2) * dt == 0) by lra.
    field. split; intro Hz; apply Hne; rewrite Hz; ring.
  - apply Qlt_bool_false in E1.
    destruct (Qlt_bool 1 (old + (v1 + v2) * dt)) eqn:E2.
    + apply Qlt_bool_iff in E2.
      destruct (Qlt_bool _ _); [|exact I].
      cbn [scale map with1 with2 indexA indexB value1 value2]. qsimp.
      repeat split; try (intros; exfalso; lra).
      intros _. assert (Hne : ~ (v1 + v2) * dt == 0) by lra.
      field. split; intro Hz; apply Hne; rewrite Hz; ring.
    + apply Qlt_bool_false in E2.
      destruct (Qlt_bool _ _); [|exact I].
      cbn [scale map with1 with2 indexA indexB value1 value2]. qsimp.
      repeat split; try (intros; exfalso; lra).
      intros _. ring.
Qed.

End FastPathBounds.

(** [add_value] changes the first entry of the index and nothing else. *)
Section AddValue.
Context {T : Type} `{Scalar T}.

Lemma in_add_value (l : list (PFEntry T)) (n : N) (v : T) (x : PFEntry T) :
  In x (add_value l n v) ->
  In x l \/ (index x = n /\ value x = sadd (get_value l n) v).
Proof.
  induction l as [|e l IH]; simpl.
  - intros [Hx | []]. right. subst x. split; reflexivity.
  - destruct (N.eqb (index e) n) eqn:E.
    + intros [Hx | Hx].
      * right. subst x. split; reflexivity.
      * left. right. exact Hx.
    + intros [Hx | Hx].
      * left. left. exact Hx.
      * destruct (IH Hx) as [Hl | Hr]; [left; right; exact Hl | right; exact Hr].
Qed.

Lemma get_add_value_other (l : list (PFEntry T)) (n m : N) (v : T) :
  n <> m -> get_value (add_value l n v) m = get_value l m.
Proof.
  intro Hnm. induction l as [|e l IH]; simpl.
  - destruct (N.eqb n m) eqn:E; [apply N.eqb_eq in E; contradiction | reflexivity].
  - destruct (N.eqb (index e) n) eqn:E; simpl.
    + apply N.eqb_eq in E.
      destruct (N.eqb n m) eqn:E1; [apply N.eqb_eq in E1; contradiction|].
      destruct (N.eqb (index e) m) eqn:E2; [|reflexivity].
      apply N.eqb_eq in E2. congruence.
    + destruct (N.eqb (index e) m); [reflexivity | exact IH].
Qed.

End AddValue.

Section UnitInterval.

Local Open Scope Q_scope.

Lemma get_value_unit (l : list (PFEntry Q)) (n : N) :
  unit_values l -> 0 <= get_value l n <= 1.
Proof.
  intro Hl. induction l as [|e l IH]; simpl.
  - qsimp. lra.
  - destruct (N.eqb (index e) n).
    + apply Hl. left. reflexivity.
    + apply IH. intros x Hx. apply Hl. right. exact Hx.
Qed.

Lemma finalize_unit (n : NodePF Q) :
  unit_values (Fields n) -> unit_values (Fields (finalize n)).
Proof.
  intros Hn x Hx. unfold finalize in Hx. cbn [Fields] in Hx.
  apply filter_In in Hx. apply Hn. exact (proj1 Hx).
Qed.

Lemma FinalizeSR_cell_unit (b : bool) (n : NodePF Q) :
  unit_values (Fields n) -> unit_values (Fields (FinalizeSR_cell b n)).
Proof.
  intro Hn. unfold FinalizeSR_cell.
  destruct (b && wide_interface n); [apply finalize_unit|]; exact Hn.
Qed.

End UnitInterval.

(** What the fast path does achieve, under exact arithmetic: a step of a
    cell whose store holds one record, whose two regions differ and hold
    values summing to 1, keeps every value of the cell in [[0,1]]: the fast
    path scales the record so that the first region stops on its bound, the
    second mirrors it, and the damping factor only shortens the move.  Any
    [dt].  In binary64 the landing is subject to rounding
    ([single_pair_step_rounds_past_one]). *)
Theorem single_pair_step_bounded
    (fuel : nat) (violation : N -> bool) (growth : N -> N -> Q) (dt : Q)
    (n : NodePF Q) (e : ABEntry Q) :
  indexA e <> indexB e ->
  unit_values (Fields n) ->
  get_value (Fields n) (indexA e) + get_value (Fields n) (indexB e) == 1 ->
  0 <= growth (indexA e) (indexB e) <= 1 ->
  exists n' dot',
    time_step_cell fuel violation growth dt n [e] = Some (n', dot') /\
    unit_values (Fields n').
Proof.
  intros Hab Hn Hsum Hg.
  unfold time_step_cell, NormalizeIncrementsSR_cell.
  destruct (wide_interface n) eqn:W; cbn [increments untouched].
  2:{ eexists. eexists. split.
      - unfold MergeIncrementsSR_cell, merge_cell. rewrite W. reflexivity.
      - apply FinalizeSR_cell_unit. exact Hn. }
  pose proof (get_value_unit (Fields n) (indexA e) Hn) as Ha.
  pose proof (get_value_unit (Fields n) (indexB e) Hn) as Hb.
  pose proof (normalize_single_lands dt (Fields n) e Ha) as Hl.
  cbv zeta in Hl.
  unfold MergeIncrementsSR_cell, merge_cell. rewrite W.
  eexists. eexists. split; [reflexivity|].
  apply FinalizeSR_cell_unit. cbn [Fields].
  destruct (normalize_single dt (Fields n) [e]) as [|e' [|? ?]]; [exact Hn | | contradiction].
  destruct Hl as (HA & HB & H1 & H2 & H3).
  unfold merge_fields. cbn [fold_left]. unfold merge_record. rewrite HA, HB.
  set (a := get_value (Fields n) (indexA e)) in *.
  set (b := get_value (Fields n) (indexB e)) in *.
  set (moved := (value1 e' + value2 e') * dt) in *.
  qsimp.
  set (f := if violation (indexA e) && violation (indexB e)
            then 1 * growth (indexA e) (indexB e) else 1).
  assert (Hf : 0 <= f <= 1).
  { unfold f. destruct (violation (indexA e) && violation (indexB e)); lra. }
  clearbody f.
  assert (Hm : 0 <= a + moved <= 1).
  { destruct (Qlt_le_dec (a + (value1 e + value2 e) * dt) 0) as [L|L].
    - rewrite (H1 L). lra.
    - destruct (Qlt_le_dec 1 (a + (value1 e + value2 e) * dt)) as [U|U].
      + rewrite (H2 U). lra.
      + rewrite (H3 (conj L U)). lra. }
  set (v := f * (value1 e' + value2 e') * dt).
  assert (Hv : v == f * moved) by (unfold v, moved; ring).
  clearbody v moved.
  destruct (Qle_bool _ (Qabs v)); [|exact Hn].
  intros x Hx. apply in_add_value in Hx. destruct Hx as [Hx | [_ Hx]].
  - apply in_add_value in Hx. destruct Hx as [Hx | [_ Hx]].
    + apply Hn. exact Hx.
    + rewrite Hx. fold a. qsimp. nra.
  - rewrite Hx, get_add_value_other by exact Hab. fold b. qsimp. nra.
Qed.

Lemma single_pair_step_bounded_witness :
  5%N <> 9%N /\
  unit_values [pf 5%N (6 # 10)%Q; pf 9%N (4 # 10)%Q] /\
  exists n' dot',
    time_step_cell 1 no_violation no_damping (1 # 2)%Q
      (interface_cell [pf 5%N (6 # 10)%Q; pf 9%N (4 # 10)%Q])
      [ab 5%N 9%N 2%Q 0%Q] = Some (n', dot') /\
    unit_values (Fields n').
Proof.
  assert (Hu : unit_values [pf 5%N (6 # 10)%Q; pf 9%N (4 # 10)%Q]).
  { intros x [Hx | [Hx | []]]; subst x; simpl; split;
      apply Qle_bool_iff; reflexivity. }
  split; [discriminate|]. split; [exact Hu|].
  apply (single_pair_step_bounded 1 no_violation no_damping (1 # 2)%Q
           (interface_cell [pf 5%N (6 # 10)%Q; pf 9%N (4 # 10)%Q])
           (ab 5%N 9%N 2%Q 0%Q)).
  - discriminate.
  - exact Hu.
  - vm_compute. reflexivity.
  - split; apply Qle_bool_iff; reflexivity.
Defined.

(** C1: the fast path of [NormalizeIncrementsSR] bounds the first region
    of its record only, so the step does not keep the values within 0 and
    1 as the function's own comment promises.  The cell
    [{1: 0.5, 2: 0.125, 3: 0.375}] with the single record (1,2) of rate
    0.25 and [dt = 1] takes the fast path, which looks at region 1 only
    (0.5 + 0.25 stays below 1, so the norm is 1); the merge then leaves
    region 2 at -0.125.  All numbers are dyadic: binary64 and exact
    arithmetic agree. *)
Lemma step_leaves_unit_interval :
  time_step_cell 1 no_violation no_damping 1%float
    (interface_cell [pf 1%N 0.5%float; pf 2%N 0.125%float; pf 3%N 0.375%float])
    [ab 1%N 2%N 0.25%float 0%float]
  = Some (interface_cell
            [pf 1%N 0.75%float; pf 2%N (-0.125)%float; pf 3%N 0.375%float], [])
  /\ PrimFloat.ltb (-0.125)%float 0%float = true
  /\ exists n',
       time_step_cell 1 no_violation no_damping 1%Q
         (interface_cell [pf 1%N (1 # 2)%Q; pf 2%N (1 # 8)%Q; pf 3%N (3 # 8)%Q])
         [ab 1%N 2%N (1 # 4)%Q 0%Q] = Some (n', [])
       /\ (get_value (Fields n') 2%N == - (1 # 8))%Q
       /\ ~ unit_values (Fields n').
Proof.
  split; [vm_compute; reflexivity|]. split; [vm_compute; reflexivity|].
  eexists. split; [vm_compute; reflexivity|]. split; [reflexivity|].
  intro Hu. specialize (Hu (pf 2%N (-4 # 32)%Q)).
  destruct Hu as [Hlo _]; [right; left; reflexivity|].
  apply Qle_bool_iff in Hlo. discriminate.
Qed.

(** Stores of several records are not covered by the bound either.  In the
    junction cell [{1..4: 0.125, 5: 0.5}] with rate 0.25 and [dt = 1] the
    limiting loop stops at its cap with the limits still violated, and the
    merge leaves region 1 at [-2^-28] (binary64). *)
Lemma junction_step_leaves_unit_interval :
  exists n',
    time_step_cell 25 no_violation no_damping 1%float
      (junction_cell 0.125 0.5)%float (junction_store 0.25%float)
    = Some (n', [])
    /\ get_value (Fields n') 1%N = (-0x1p-28)%float
    /\ PrimFloat.ltb (get_value (Fields n') 1%N) 0%float = true.
Proof.
  eexists. split; [vm_compute; reflexivity|].
  split; vm_compute; reflexivity.
Qed.

(** Rounding alone also takes a value past its bound.  The two-region
    cell [{1: 0.1, 2: 0.9}] with the record (1,2) of rate 7 and [dt = 1]
    meets every hypothesis of [single_pair_step_bounded]; in binary64 the
    product of the rate 7 and the norm [(1 - 0.1) / 7] is rounded up, and
    the step leaves region 1 at [1 + 2^-52]. *)
Lemma single_pair_step_rounds_past_one :
  unit_values [pf 1%N (1 # 10)%Q; pf 2%N (9 # 10)%Q] /\
  time_step_cell 1 no_violation no_damping 1%float
    (interface_cell [pf 1%N 0.1%float; pf 2%N 0.9%float])
    [ab 1%N 2%N 7%float 0%float]
  = Some ({| flag := 0; Fields := [pf 1%N 1.0000000000000002%float] |}, []) /\
  PrimFloat.ltb 1%float 1.0000000000000002%float = true.
Proof.
  split; [|split; vm_compute; reflexivity].
  intros x [Hx | [Hx | []]]; subst x; simpl; split;
    apply Qle_bool_iff; reflexivity.
Qed.

(** ** Scenario A *)

(** The scenario under exact arithmetic, for every way of splitting the
    combined rate 2 over the record's two contributions. *)
Lemma scenario_A_exact (v1 v2 : Q) :
  (v1 + v2 == 2)%Q ->
  match time_step_cell 1 no_violation no_damping (1 # 2)%Q
          (interface_cell [pf 5%N (6 # 10)%Q; pf 9%N (4 # 10)%Q])
          [ab 5%N 9%N v1 v2] with
  | Some (n', dot') =>
      (get_value (Fields n') 5%N == 1)%Q /\
      (get_value (Fields n') 9%N == 0)%Q /\ dot' = []
  | None => False
  end.
Proof.
  intros Hr.
  unfold time_step_cell, NormalizeIncrementsSR_cell, interface_cell, pf, ab.
  cbn [wide_interface flag Z.eqb negb Fields untouched increments].
  unfold normalize_single.
  cbn [indexA indexB value1 value2 get_value index value N.eqb Pos.eqb].
  qsimp.
  set (valueA := ((v1 + v2) * (1 # 2))%Q).
  assert (HvA : (valueA == 1)%Q) by (unfold valueA; lra).
  set (norm := if Qlt_bool ((6 # 10) + valueA) 0
               then (1 * (- (6 # 10) / valueA))%Q
               else if Qlt_bool 1 ((6 # 10) + valueA)
                    then (1 * ((1 - (6 # 10)) / valueA))%Q else 1%Q).
  assert (Hn : (norm == 4 # 10)%Q).
  { unfold norm. qbools. rewrite HvA. reflexivity. }
  clearbody norm.
  qbools; cbn [andb orb].
  unfold MergeIncrementsSR_cell, merge_cell, scale.
  cbn [wide_interface flag Z.eqb negb Fields map with1 with2
       indexA indexB value1 value2].
  unfold merge_fields. cbn [fold_left]. unfold merge_record.
  cbn [no_violation andb indexA indexB value1 value2 no_damping with1 with2].
  qsimp.
  set (v := (1 * (v1 * norm + v2 * norm) * (1 # 2))%Q).
  assert (Hv : (v == 4 # 10)%Q) by (unfold v; nra).
  assert (Habs : (Qabs v == 4 # 10)%Q) by (rewrite Hv; reflexivity).
  qbool; [| exfalso; lra].
  cbn [add_value index value N.eqb Pos.eqb]. qsimp.
  unfold FinalizeSR_cell. cbn [andb wide_interface flag Z.eqb negb].
  unfold finalize. cbn [Fields filter value]. qsimp.
  assert (Ha : (Qabs ((6 # 10) + v) == 1)%Q) by (rewrite Hv; reflexivity).
  assert (Hb : (Qabs ((4 # 10) + - v) == 0)%Q) by (rewrite Hv; reflexivity).
  qbools.
  cbn [negb get_value index value N.eqb Pos.eqb]. qsimp.
  repeat split; try reflexivity; lra.
Qed.

(** C3: the cell [{5: 0.6, 9: 0.4}] with the single record (5,9) of
    combined rate +2.0 and [dt = 0.5] ends the step with region 5 at 1.0
    and region 9 at 0.0 (pruned, so read as 0): as the program computes it
    in binary64, and under exact arithmetic for every split of the rate over
    [value1] and [value2].  In general the fast path either empties the
    store or scales the record so that the first region, had it crossed a
    bound, lands on that bound exactly (exact arithmetic). *)
Theorem scenario_A :
  time_step_cell 1 no_violation no_damping 0.5%float
    (interface_cell [pf 5%N 0.6%float; pf 9%N 0.4%float])
    [ab 5%N 9%N 2%float 0%float]
  = Some ({| flag := 0; Fields := [pf 5%N 1%float] |}, [])
  /\
  (forall v1 v2 : Q,
    (v1 + v2 == 2)%Q ->
    match time_step_cell 1 no_violation no_damping (1 # 2)%Q
            (interface_cell [pf 5%N (6 # 10)%Q; pf 9%N (4 # 10)%Q])
            [ab 5%N 9%N v1 v2] with
    | Some (n', dot') =>
        (get_value (Fields n') 5%N == 1)%Q /\
        (get_value (Fields n') 9%N == 0)%Q /\ dot' = []
    | None => False
    end)
  /\
  (forall (dt : Q) (fields : list (PFEntry Q)) (e : ABEntry Q),
     let old := get_value fields (indexA e) in
     let valueA := ((value1 e + value2 e) * dt)%Q in
     (0 <= old <= 1)%Q ->
     match normalize_single dt fields [e] with
     | [] => True
     | [e'] =>
         indexA e' = indexA e /\ indexB e' = indexB e /\
         let moved := ((value1 e' + value2 e') * dt)%Q in
         ((old + valueA < 0 -> old + moved == 0) /\
          (1 < old + valueA -> old + moved == 1) /\
          (0 <= old + valueA <= 1 -> moved == valueA))%Q
     | _ => False
     end).
Proof.
  split; [vm_compute; reflexivity|]. split.
  - exact scenario_A_exact.
  - exact normalize_single_lands.
Qed.

Lemma scenario_A_witness :
  (2 + 0 == 2)%Q /\
  match time_step_cell 1 no_violation no_damping (1 # 2)%Q
          (interface_cell [pf 5%N (6 # 10)%Q; pf 9%N (4 # 10)%Q])
          [ab 5%N 9%N 2%Q 0%Q] with
  | Some (n', dot') =>
      (get_value (Fields n') 5%N == 1)%Q /\
      (get_value (Fields n') 9%N == 0)%Q /\ dot' = []
  | None => False
  end.
Proof.
  split; [reflexivity | apply (proj1 (proj2 scenario_A) 2%Q 0%Q); reflexivity].
Defined.

(** ** The limiting loop: termination, the cap and the warnings *)
Section LoopBound.
Context {T : Type} `{Scalar T}.

Lemma limiting_loop_total (fuel : nat) (dt : T) (fields : list (PFEntry T)) :
  forall (c : Z) (dot : NodeAB T),
    (0 <= c)%Z -> (25 <= Z.of_nat fuel + c)%Z -> (1 <= fuel)%nat ->
    exists dot' its needed,
      limiting_loop fuel dt fields c dot = Some (dot', its, needed) /\
      (c < its <= Z.max 25 (c + 1))%Z /\
      (needed = true -> 24 < its)%Z.
Proof.
  induction fuel as [|fuel IH]; intros c dot Hc Hf H1; [lia|].
  cbn [limiting_loop].
  destruct (limiting_pass dt fields dot) as [dot' needed].
  destruct (c + 1 >? 24)%Z eqn:Cap.
  - exists dot', (c + 1)%Z, needed. split; [reflexivity|].
    apply Z.gtb_lt in Cap. split; lia.
  - assert (Hle : (c + 1 <= 24)%Z).
    { rewrite Z.gtb_ltb in Cap. apply Z.ltb_ge in Cap. exact Cap. }
    destruct needed.
    + destruct (IH (c + 1)%Z dot') as (d & its & nd & E & B & N); try lia.
      exists d, its, nd. split; [exact E|]. split; [lia | exact N].
    + exists dot', (c + 1)%Z, false. split; [reflexivity|].
      split; [lia | discriminate].
Qed.

End LoopBound.

Section Degradation.

Context {T : Type} `{Scalar T}.

Lemma plausibility_check_sound (dt : T) (fields : list (PFEntry T))
    (dot : NodeAB T) (w : Warning T) :
  In w (plausibility_check dt fields dot) ->
  exists it, In it (scratch dt fields dot) /\ implausible it = true /\
             grain w = index it /\ newFields w = value it.
Proof.
  unfold plausibility_check. intro Hw. apply in_map_iff in Hw.
  destruct Hw as (it & Hw & Hit). apply filter_In in Hit.
  exists it. subst w. cbn [grain newFields].
  split; [exact (proj1 Hit)|]. split; [exact (proj2 Hit)|]. split; reflexivity.
Qed.







End Degradation.




(** C4: the loop always ends, but the cap is tested after the counter has
    been stepped, with [number_of_iterations > 24]: the junction cell with
    the rate 0.25 (each of its records is halved towards 0.125 in every
    turn and never gets there) is still being limited in turn 24, so the
    24 turns of the documented cap do not finish the loop and the program runs a
    25th. *)
Theorem limiting_loop_runs_25_turns :
  NormalizeIncrementsSR_cell 24 1%float
    (junction_cell 0.125%float 0.5%float) (junction_store 0.25%float) = None /\
  option_map (fun r => iterations r)
    (NormalizeIncrementsSR_cell 25 1%float
       (junction_cell 0.125%float 0.5%float) (junction_store 0.25%float))
  = Some 25%Z.
Proof.
  split; vm_compute; reflexivity.
Qed.

(** X1: for every cell, store and [dt], the limiting loop as the program
    starts it (counter 0) ends after at least 1 and at most 25 turns, and
    when its last turn still had to scale a record it has taken exactly
    25. *)
Theorem limiting_loop_ends_within_25 {T : Type} `{Scalar T}
    (fuel : nat) (dt : T) (fields : list (PFEntry T)) (dot : NodeAB T) :
  (25 <= fuel)%nat ->
  exists dot' its needed,
    limiting_loop fuel dt fields 0%Z dot = Some (dot', its, needed) /\
    (1 <= its <= 25)%Z /\ (needed = true -> its = 25%Z).
Proof.
  intro Hf.
  destruct (limiting_loop_total fuel dt fields 0%Z dot)
    as (d & its & nd & E & B & N); try lia.
  exists d, its, nd. split; [exact E|]. split; [lia|].
  intro Hn. specialize (N Hn). lia.
Qed.

Lemma limiting_loop_ends_within_25_witness :
  (25 <= 25)%nat /\
  exists dot' its needed,
    limiting_loop 25 1%float (Fields (junction_cell 0.125%float 0.5%float))
      0%Z (junction_store 0.25%float) = Some (dot', its, needed) /\
    (1 <= its <= 25)%Z /\ (needed = true -> its = 25%Z).
Proof.
  split; [lia|].
  apply (limiting_loop_ends_within_25 25 1%float
           (Fields (junction_cell 0.125%float 0.5%float))
           (junction_store 0.25%float)).
  lia.
Defined.

(** ** DrivingForce::MaxTimeStep without increments *)

(** Comparisons of binary64 numbers, from their specification. *)
Lemma SFcompare_swap (x y : spec_float) :
  SFcompare y x = option_map CompOpp (SFcompare x y).
Proof.
  destruct x as [sx | sx | | sx mx ex], y as [sy | sy | | sy my ey];
    cbn [SFcompare option_map]; try reflexivity;
    try (destruct sx; reflexivity); try (destruct sy; reflexivity);
    try (destruct sx, sy; reflexivity).
  destruct sx, sy; cbn [CompOpp]; try reflexivity;
    rewrite (Z.compare_antisym ex ey);
    destruct (ex ?= ey)%Z; cbn [CompOpp]; try reflexivity;
    replace (Pos.compare_cont Eq my mx)
      with (CompOpp (Pos.compare_cont Eq mx my))
      by (apply (Pos.compare_cont_antisym mx my Eq));
    destruct (Pos.compare_cont Eq mx my); reflexivity.
Qed.

Lemma float_leb_not_gtb (x y : float) :
  PrimFloat.leb x y = true -> PrimFloat.ltb y x = false.
Proof.
  rewrite FloatAxioms.leb_spec, FloatAxioms.ltb_spec. unfold SFleb, SFltb.
  rewrite (SFcompare_swap (Prim2SF x) (Prim2SF y)).
  destruct (SFcompare (Prim2SF x) (Prim2SF y)) as [[ | | ]|]; cbn; congruence.
Qed.

Lemma float_leb_antisym (x y : float) :
  PrimFloat.leb x y = true -> PrimFloat.ltb x y = false -> PrimFloat.eqb y x = true.
Proof.
  rewrite FloatAxioms.leb_spec, FloatAxioms.ltb_spec, FloatAxioms.eqb_spec. unfold SFleb, SFltb, SFeqb.
  rewrite (SFcompare_swap (Prim2SF x) (Prim2SF y)).
  destruct (SFcompare (Prim2SF x) (Prim2SF y)) as [[ | | ]|]; cbn; congruence.
Qed.

(** Without increments the numerical limit keeps its initial 0, and the
    result is the minimum of the theoretical limit and 0 (any scalar). *)
Lemma MaxTimeStep_is_min_with_zero {T : Type} `{Scalar T}
    (maxPsi ReportMaximumTimeStep TheorLimit NumerLimit : T) :
  sltb DBL_EPSILON maxPsi = false ->
  MaxTimeStep maxPsi ReportMaximumTimeStep TheorLimit NumerLimit
  = std_min (smul TheorLimit ReportMaximumTimeStep) s0.
Proof. intro E. unfold MaxTimeStep. rewrite E. reflexivity. Qed.

(** C10, amended: in binary64, when [maxPsi] is at most [DBL_EPSILON]
    and the theoretical limit [TheorLimit * ReportMaximumTimeStep] is not
    negative, [MaxTimeStep] returns a zero (it compares equal to 0.0)
    rather than the theoretical limit. *)
Theorem MaxTimeStep_without_increment
    (maxPsi ReportMaximumTimeStep TheorLimit NumerLimit : float) :
  PrimFloat.leb maxPsi DBL_EPSILON = true ->
  PrimFloat.leb 0%float (PrimFloat.mul TheorLimit ReportMaximumTimeStep) = true ->
  PrimFloat.eqb (MaxTimeStep maxPsi ReportMaximumTimeStep TheorLimit NumerLimit)
                0%float = true.
Proof.
  intros Hpsi Hth. unfold MaxTimeStep, std_min.
  cbn [sltb smul sdiv s0 binary64].
  rewrite (float_leb_not_gtb _ _ Hpsi).
  destruct (PrimFloat.ltb 0%float (PrimFloat.mul TheorLimit ReportMaximumTimeStep)) eqn:E.
  - reflexivity.
  - apply float_leb_antisym; assumption.
Qed.

Lemma MaxTimeStep_without_increment_witness :
  PrimFloat.leb 0%float DBL_EPSILON = true /\
  PrimFloat.leb 0%float (PrimFloat.mul 1%float 0.25%float) = true /\
  PrimFloat.eqb (MaxTimeStep 0%float 0.25%float 1%float 0.001%float) 0%float = true.
Proof.
  split; [vm_compute; reflexivity|]. split; [vm_compute; reflexivity|].
  apply (MaxTimeStep_without_increment 0%float 0.25%float 1%float 0.001%float);
    vm_compute; reflexivity.
Defined.

(** C10, counterexample: a negative theoretical limit.  With no
    increment recorded, [TheorLimit = -1] and a reported maximum of 1 the
    minimum is -1, in binary64 and in exact arithmetic alike. *)
Lemma MaxTimeStep_negative_limit :
  PrimFloat.leb 0%float DBL_EPSILON = true /\
  MaxTimeStep 0%float 1%float (-1)%float 0.001%float = (-1)%float /\
  PrimFloat.eqb (-1)%float 0%float = false /\
  (MaxTimeStep 0%Q 1%Q (-1)%Q (1 # 1000)%Q == -1)%Q.
Proof.
  repeat split; vm_compute; reflexivity.
Qed.

(** ** The registry after a volume recomputation *)

Lemma nth_error_enumerate {A : Type} (l : list A) :
  forall (a i : nat),
    nth_error (combine (seq a (length l)) l) i
    = option_map (fun x => ((a + i)%nat, x)) (nth_error l i).
Proof.
  induction l as [|x l IH]; intros a i.
  - destruct i; reflexivity.
  - destruct i as [|i]; cbn [length seq combine nth_error option_map].
    + rewrite Nat.add_0_r. reflexivity.
    + rewrite IH. rewrite Nat.add_succ_r. reflexivity.
Qed.

Lemma CalculateGrainsVolume_nth {T : Type} `{Scalar T}
    (cells : list (NodePF T)) (props : list (GrainInfo T)) (idx : nat) :
  nth_error (CalculateGrainsVolume cells props) idx
  = option_map (fun g => recompute cells (idx, g)) (nth_error props idx).
Proof.
  unfold CalculateGrainsVolume. rewrite nth_error_map, nth_error_enumerate.
  destruct (nth_error props idx); reflexivity.
Qed.

(** A positive binary64 number divided by +0.0 is +infinity, which exceeds
    1.0. *)
Lemma float_div_zero_exceeds_one (x : float) :
  PrimFloat.ltb 0%float x = true ->
  PrimFloat.ltb 1%float (PrimFloat.div x 0%float) = true.
Proof.
  rewrite !FloatAxioms.ltb_spec, FloatAxioms.div_spec.
  change (Prim2SF 0%float) with (S754_zero false).
  let one := eval vm_compute in (Prim2SF 1%float) in
  change (Prim2SF 1%float) with one.
  destruct (Prim2SF x) as [sx | sx | | sx mx ex]; try destruct sx;
    cbn; try discriminate; reflexivity.
Qed.

Lemma std_max_positive (x m : float) :
  PrimFloat.ltb 0%float x = true ->
  PrimFloat.ltb 0%float (std_max x m) = true.
Proof.
  intro Hx. unfold std_max. cbn [sltb binary64].
  destruct (PrimFloat.ltb x m) eqn:E; [|exact Hx].
  revert Hx E. rewrite !FloatAxioms.ltb_spec. unfold SFltb.
  change (Prim2SF 0%float) with (S754_zero false).
  destruct (Prim2SF x) as [sx | sx | | sx mx ex], (Prim2SF m) as [sm | sm | | sm mm em];
    try destruct sx; try destruct sm; cbn; try discriminate; try reflexivity.
Qed.

(** C8, amended: in binary64, with the program's own comparisons,
    after [CalculateGrainsVolume] an entry whose new volume [V] is strictly
    positive exists; it is [Stable] when its volume ratio as the program
    computes it (the largest volume reached so far divided by the reference
    volume) exceeds 1.0, and otherwise (a ratio of at most 1.0, or NaN)
    [Nucleus] if it was [Seed], its stage being kept if it was not.  A
    reference volume of 0.0 makes the ratio +infinity, so the entry is
    [Stable].  An existing entry whose new volume is at most 0.0 has its
    existence flag cleared. *)
Theorem lifecycle_after_volume_recomputation
    (cells : list (NodePF float)) (props : list (GrainInfo float)) (idx : nat)
    (g : GrainInfo float) :
  nth_error props idx = Some g ->
  let V := PrimFloat.add 0%float (grid_volume cells (N.of_nat idx)) in
  let ratio := PrimFloat.div (std_max V (MAXVolume g)) (RefVolume g) in
  exists g',
    nth_error (CalculateGrainsVolume cells props) idx = Some g' /\
    (Exist g = true -> PrimFloat.leb V 0%float = true -> Exist g' = false) /\
    (PrimFloat.ltb 0%float V = true ->
       Exist g' = true /\
       (PrimFloat.ltb 1%float ratio = true -> Stage g' = Stable) /\
       (PrimFloat.ltb 1%float ratio = false -> Stage g = Seed ->
        Stage g' = Nucleus) /\
       (PrimFloat.ltb 1%float ratio = false -> Stage g <> Seed ->
        Stage g' = Stage g) /\
       (RefVolume g = 0%float -> Stage g' = Stable)).
Proof.
  intros Hg. cbv zeta. rewrite CalculateGrainsVolume_nth, Hg. cbn [option_map].
  eexists. split; [reflexivity|].
  unfold recompute, update_statistics, set_ratio, set_volume.
  cbn [fst snd Exist Stage Volume MAXVolume RefVolume VolumeRatio].
  cbn [s0 s1 sadd sdiv sltb sleb binary64].
  set (V := PrimFloat.add 0%float (grid_volume cells (N.of_nat idx))).
  set (ratio := PrimFloat.div (std_max V (MAXVolume g)) (RefVolume g)).
  split.
  - intros He Hv. rewrite He, Hv. reflexivity.
  - intros Hv.
    assert (Hle : PrimFloat.leb V 0%float = false).
    { destruct (PrimFloat.leb V 0%float) eqn:E; [|reflexivity].
      apply float_leb_not_gtb in E. congruence. }
    rewrite Hle, andb_false_r, Hv.
    assert (Hz : RefVolume g = 0%float -> PrimFloat.ltb 1%float ratio = true).
    { intro Hr. unfold ratio. rewrite Hr.
      apply float_div_zero_exceeds_one, std_max_positive. exact Hv. }
    destruct (PrimFloat.ltb 1%float ratio) eqn:Er; cbn [Exist Stage];
      (split; [reflexivity|]); repeat split; intros;
      try reflexivity; try discriminate.
    + match goal with Hs : Stage g = Seed |- _ => rewrite Hs end. reflexivity.
    + destruct (Stage g); try reflexivity. congruence.
    + specialize (Hz ltac:(assumption)). discriminate.
Qed.

Lemma lifecycle_after_volume_recomputation_witness :
  nth_error [@growing_nucleus float _] 0 = Some growing_nucleus /\
  exists g',
    nth_error (CalculateGrainsVolume [bulk_cell 0%N; bulk_cell 0%N]
                                     [@growing_nucleus float _]) 0 = Some g' /\
    Exist g' = true /\ Stage g' = Nucleus.
Proof.
  split; [reflexivity|].
  destruct (lifecycle_after_volume_recomputation
              [bulk_cell 0%N; bulk_cell 0%N] [@growing_nucleus float _] 0
              growing_nucleus eq_refl) as (g' & Hg & _ & Hpos).
  exists g'. split; [exact Hg|].
  destruct Hpos as (He & _ & _ & Hk & _); [vm_compute; reflexivity|].
  split; [exact He|]. rewrite Hk.
  - reflexivity.
  - vm_compute. reflexivity.
  - discriminate.
Defined.

(** C8, counterexample: a ratio of exactly 1.  Two bulk cells give
    the nucleus the volume 2, its reference volume; the ratio 2/2 has
    reached 1, the test [VolumeRatio > 1.0] is false and the entry stays a
    [Nucleus].  Binary64 and exact arithmetic. *)
Lemma ratio_one_is_not_promoted :
  CalculateGrainsVolume [bulk_cell 0%N; bulk_cell 0%N] [@growing_nucleus float _]
  = [ {| Exist := true; Stage := Nucleus; Volume := 2%float;
         MAXVolume := 2%float; RefVolume := 2%float; VolumeRatio := 1%float |} ]
  /\
  exists g',
    CalculateGrainsVolume [bulk_cell 0%N; bulk_cell 0%N] [@growing_nucleus Q _]
    = [g'] /\
    (Volume g' / RefVolume g' == 1)%Q /\ (VolumeRatio g' == 1)%Q /\
    Stage g' = Nucleus.
Proof.
  split; [vm_compute; reflexivity|].
  eexists. split; [vm_compute; reflexivity|].
  repeat split; reflexivity.
Qed.

(** ** The NY0 boundary block of Temperature::SetInitial *)

Section NY0Block.

Context {T : Type} `{Scalar T}.

(** The inner loop never changes [k]: once its test holds it holds in
    every turn, and no amount of fuel reaches the exit. *)
Lemma NY0_k_loop_never_ends (p : TemperatureSettings T) (fuel : nat) :
  forall (i j k : Z) (tx : Storage3D T),
    (k < sizeZ p + BcellsZ p)%Z -> NY0_k_loop fuel p i j k tx = None.
Proof.
  induction fuel as [|fuel IH]; intros i j k tx Hk; cbn [NY0_k_loop].
  - reflexivity.
  - apply Z.ltb_lt in Hk. rewrite Hk. apply IH. apply Z.ltb_lt. exact Hk.
Qed.

Lemma NY0_j_loop_never_ends (p : TemperatureSettings T) (fuel : nat)
    (i j : Z) (tx : Storage3D T) :
  (j < 0)%Z -> (- BcellsZ p < sizeZ p + BcellsZ p)%Z ->
  NY0_j_loop fuel p i j tx = None.
Proof.
  intros Hj Hk. destruct fuel as [|fuel]; cbn [NY0_j_loop]; [reflexivity|].
  apply Z.ltb_lt in Hj. rewrite Hj.
  rewrite (NY0_k_loop_never_ends p fuel i j (- BcellsZ p)%Z tx Hk). reflexivity.
Qed.

Lemma NY0_i_loop_never_ends (p : TemperatureSettings T) (fuel : nat)
    (tx : Storage3D T) :
  (0 < BcellsY p)%Z ->
  (- BcellsX p < sizeX p + BcellsX p)%Z ->
  (- BcellsZ p < sizeZ p + BcellsZ p)%Z ->
  NY0_i_loop fuel p (- BcellsX p)%Z tx = None.
Proof.
  intros Hy Hx Hz. destruct fuel as [|fuel]; cbn [NY0_i_loop]; [reflexivity|].
  apply Z.ltb_lt in Hx. rewrite Hx.
  rewrite (NY0_j_loop_never_ends p fuel (- BcellsX p)%Z (- BcellsY p)%Z tx);
    [reflexivity | lia | exact Hz].
Qed.

(** With a lower Y boundary value and a ghost layer to write it to,
    [SetInitial] does not return. *)
Lemma SetInitial_never_returns (p : TemperatureSettings T) (fuel : nat)
    (tx : Storage3D T) :
  seqb (TBC0Y p) s0 = false ->
  (0 < BcellsY p)%Z ->
  (- BcellsX p < sizeX p + BcellsX p)%Z ->
  (- BcellsZ p < sizeZ p + BcellsZ p)%Z ->
  SetInitial fuel p tx = None.
Proof.
  intros Hb Hy Hx Hz. unfold SetInitial, NY0. rewrite Hb. cbn [negb].
  rewrite NY0_i_loop_never_ends by assumption. reflexivity.
Qed.

End NY0Block.

(** C9: on a grid of one cell with one ghost layer, a flat profile at 300
    and [TBC0Y = 350], [SetInitial] returns for no amount of fuel: the
    innermost loop of the NY0 block steps [j] where its neighbours step
    [k].  Its second turn already writes 350 into the row [j = 0], which
    is not a ghost row and which the block as its neighbours are written
    leaves at 300. *)
Theorem SetInitial_NY0_steps_wrong_counter :
  (forall fuel : nat,
     SetInitial fuel (one_cell_room 300%float 350%float) (fun _ _ _ => 0%float)
     = None) /\
  (let tx := initial_profile (one_cell_room 300%float 350%float)
                             (fun _ _ _ => 0%float) in
   snd (NY0_k_run 2 (one_cell_room 300%float 350%float) (-1) (-1) (-1) tx)
       (-1)%Z 0%Z (-1)%Z = 350%float /\
   NY0_intended (one_cell_room 300%float 350%float) tx (-1)%Z 0%Z (-1)%Z
   = 300%float /\
   NY0_intended (one_cell_room 300%float 350%float) tx (-1)%Z (-1)%Z (-1)%Z
   = 350%float).
Proof.
  split.
  - intro fuel. apply SetInitial_never_returns.
    + vm_compute. reflexivity.
    + reflexivity.
    + reflexivity.
    + reflexivity.
  - cbv zeta. repeat split; vm_compute; reflexivity.
Qed.

(** X2: whenever the lower Y boundary value is set and the Y ghost layer
    and the X and Z ranges are not empty, the NY0 block does not return,
    whatever the fuel. *)
Theorem NY0_never_returns {T : Type} `{Scalar T}
    (p : TemperatureSettings T) (fuel : nat) (tx : Storage3D T) :
  seqb (TBC0Y p) s0 = false ->
  (0 < BcellsY p)%Z ->
  (- BcellsX p < sizeX p + BcellsX p)%Z ->
  (- BcellsZ p < sizeZ p + BcellsZ p)%Z ->
  NY0 fuel p tx = None.
Proof.
  intros Hb Hy Hx Hz. unfold NY0. rewrite Hb. cbn [negb].
  apply NY0_i_loop_never_ends; assumption.
Qed.

Lemma NY0_never_returns_witness :
  seqb (TBC0Y (one_cell_room 300%float 350%float)) s0 = false /\
  NY0 1000 (one_cell_room 300%float 350%float) (fun _ _ _ => 0%float) = None.
Proof.
  split; [vm_compute; reflexivity|].
  apply (NY0_never_returns (one_cell_room 300%float 350%float) 1000
           (fun _ _ _ => 0%float)).
  - vm_compute. reflexivity.
  - reflexivity.
  - reflexivity.
  - reflexivity.
Defined.

(** ** The fast path against the general algorithm on one pair *)

(** The scratch stores of the limiting loop are keyed [(region,0)]. *)
Section KeyedLookup.
Context {T : Type} `{Scalar T}.

Lemma sym_pair_key_inj (e : ABEntry T) (n m : N) :
  sym_pair e n 0 = true -> sym_pair e m 0 = true -> n = m.
Proof.
  unfold sym_pair, same_pair. intros Hn Hm.
  apply orb_true_iff in Hn. apply orb_true_iff in Hm.
  repeat match goal with
         | Hx : _ \/ _ |- _ => destruct Hx as [Hx | Hx]
         | Hx : _ && _ = true |- _ => apply andb_true_iff in Hx; destruct Hx
         | Hx : N.eqb _ _ = true |- _ => apply N.eqb_eq in Hx
         end; congruence.
Qed.

Lemma sym_pair_with1 (x : T) (e : ABEntry T) (n m : N) :
  sym_pair (with1 x e) n m = sym_pair e n m.
Proof. reflexivity. Qed.

Lemma sym_pair_with2 (x : T) (e : ABEntry T) (n m : N) :
  sym_pair (with2 x e) n m = sym_pair e n m.
Proof. reflexivity. Qed.

Lemma sym_pair_new (n : N) (x y : T) :
  sym_pair {| indexA := n; indexB := 0; value1 := x; value2 := y |} n 0 = true.
Proof. unfold sym_pair, same_pair. cbn. rewrite N.eqb_refl. reflexivity. Qed.

Lemma sym_pair_other (e : ABEntry T) (n m : N) :
  n <> m -> sym_pair e n 0 = true -> sym_pair e m 0 = false.
Proof.
  intros Hnm Hn. destruct (sym_pair e m 0) eqn:Hm; [|reflexivity].
  exfalso. exact (Hnm (sym_pair_key_inj e n m Hn Hm)).
Qed.

(** Lookups after a write under the key [(n,0)]. *)
Lemma get_sym1_set_sym1 (l : NodeAB T) (n : N) (x : T) :
  get_sym1 (set_sym1 l n 0 x) n 0 = x.
Proof.
  unfold set_sym1. induction l as [|e l IH]; cbn [upd_sym get_sym1].
  - rewrite sym_pair_new. reflexivity.
  - destruct (sym_pair e n 0) eqn:E; cbn [get_sym1].
    + rewrite sym_pair_with1, E. reflexivity.
    + rewrite E. exact IH.
Qed.

Lemma get_sym2_set_sym2 (l : NodeAB T) (n : N) (x : T) :
  get_sym2 (set_sym2 l n 0 x) n 0 = x.
Proof.
  unfold set_sym2. induction l as [|e l IH]; cbn [upd_sym get_sym2].
  - rewrite sym_pair_new. reflexivity.
  - destruct (sym_pair e n 0) eqn:E; cbn [get_sym2].
    + rewrite sym_pair_with2, E. reflexivity.
    + rewrite E. exact IH.
Qed.

Lemma get_sym2_set_sym1 (l : NodeAB T) (n m : N) (x : T) :
  get_sym2 (set_sym1 l n 0 x) m 0 = get_sym2 l m 0.
Proof.
  unfold set_sym1. induction l as [|e l IH]; cbn [upd_sym get_sym2].
  - destruct (sym_pair _ m 0); reflexivity.
  - destruct (sym_pair e n 0) eqn:E; cbn [get_sym2].
    + rewrite sym_pair_with1. reflexivity.
    + rewrite IH. reflexivity.
Qed.

Lemma get_sym1_set_sym2 (l : NodeAB T) (n m : N) (x : T) :
  get_sym1 (set_sym2 l n 0 x) m 0 = get_sym1 l m 0.
Proof.
  unfold set_sym2. induction l as [|e l IH]; cbn [upd_sym get_sym1].
  - destruct (sym_pair _ m 0); reflexivity.
  - destruct (sym_pair e n 0) eqn:E; cbn [get_sym1].
    + rewrite sym_pair_with2. reflexivity.
    + rewrite IH. reflexivity.
Qed.

Lemma get_sym1_set_sym1_other (l : NodeAB T) (n m : N) (x : T) :
  n <> m -> get_sym1 (set_sym1 l n 0 x) m 0 = get_sym1 l m 0.
Proof.
  intro Hnm. unfold set_sym1. induction l as [|e l IH]; cbn [upd_sym get_sym1].
  - rewrite (sym_pair_other _ n m Hnm (sym_pair_new n x s0)). reflexivity.
  - destruct (sym_pair e n 0) eqn:E; cbn [get_sym1].
    + rewrite sym_pair_with1, (sym_pair_other e n m Hnm E). reflexivity.
    + rewrite IH. reflexivity.
Qed.

Lemma get_sym2_set_sym2_other (l : NodeAB T) (n m : N) (x : T) :
  n <> m -> get_sym2 (set_sym2 l n 0 x) m 0 = get_sym2 l m 0.
Proof.
  intro Hnm. unfold set_sym2. induction l as [|e l IH]; cbn [upd_sym get_sym2].
  - rewrite (sym_pair_other _ n m Hnm (sym_pair_new n s0 x)). reflexivity.
  - destruct (sym_pair e n 0) eqn:E; cbn [get_sym2].
    + rewrite sym_pair_with2, (sym_pair_other e n m Hnm E). reflexivity.
    + rewrite IH. reflexivity.
Qed.

(** The limits of a region after its own step of "Calculate limits", and
    those of every other region. *)
Lemma limit_step_neg (dt : T) (inc lim : NodeAB T) (alpha : PFEntry T) :
  let pos := get_sym1 inc (index alpha) 0 in
  let neg := get_sym2 inc (index alpha) 0 in
  get_sym2 (limit_step dt inc lim alpha) (index alpha) 0
  = if sltb (sadd (value alpha) (smul (sadd pos neg) dt)) s0
    then std_min s1 (sdiv (sopp (sadd (value alpha) (smul pos dt))) (smul neg dt))
    else s1.
Proof.
  cbv zeta. unfold limit_step.
  destruct (sltb (sadd (value alpha) _) s0);
    destruct (sltb s1 (sadd (value alpha) _));
    rewrite ?get_sym2_set_sym1, ?get_sym2_set_sym2, ?get_sym2_set_sym1,
            ?get_sym2_set_sym2; reflexivity.
Qed.

Lemma limit_step_pos (dt : T) (inc lim : NodeAB T) (alpha : PFEntry T) :
  let pos := get_sym1 inc (index alpha) 0 in
  let neg := get_sym2 inc (index alpha) 0 in
  get_sym1 (limit_step dt inc lim alpha) (index alpha) 0
  = if sltb s1 (sadd (value alpha) (smul (sadd pos neg) dt))
    then std_min s1 (sdiv (ssub s1 (sadd (value alpha) (smul neg dt))) (smul pos dt))
    else s1.
Proof.
  cbv zeta. unfold limit_step.
  destruct (sltb (sadd (value alpha) _) s0);
    destruct (sltb s1 (sadd (value alpha) _));
    rewrite ?get_sym1_set_sym1, ?get_sym1_set_sym2, ?get_sym1_set_sym1;
    reflexivity.
Qed.

Lemma limit_step_other (dt : T) (inc lim : NodeAB T) (alpha : PFEntry T) (m : N) :
  index alpha <> m ->
  get_sym1 (limit_step dt inc lim alpha) m 0 = get_sym1 lim m 0 /\
  get_sym2 (limit_step dt inc lim alpha) m 0 = get_sym2 lim m 0.
Proof.
  intro Hm. unfold limit_step.
  destruct (sltb (sadd (value alpha) _) s0);
    destruct (sltb s1 (sadd (value alpha) _));
    split;
    rewrite ?get_sym1_set_sym1_other, ?get_sym1_set_sym2,
            ?get_sym1_set_sym1_other, ?get_sym1_set_sym2,
            ?get_sym2_set_sym1, ?get_sym2_set_sym2_other,
            ?get_sym2_set_sym1, ?get_sym2_set_sym2_other by exact Hm;
    reflexivity.
Qed.

End KeyedLookup.

Section OnePairExact.
Local Open Scope Q_scope.

Lemma std_min_one (x : Q) : x < 1 -> std_min 1 x = x.
Proof.
  intro Hx. unfold std_min. qsimp.
  replace (Qlt_bool x 1) with true by (symmetry; apply Qlt_bool_iff; exact Hx).
  reflexivity.
Qed.

Lemma std_min_same (x y : Q) : x == y -> std_min x y = x.
Proof.
  intro Hx. unfold std_min. qsimp.
  replace (Qlt_bool y x) with false by (symmetry; apply Qlt_bool_false; lra).
  reflexivity.
Qed.

Lemma one_pair_pass (A B : N) (a b v w dt : Q) :
  A <> B -> 0 < a < 1 -> a + b == 1 -> 0 < dt -> ~ v == 0 ->
  exists v' need,
    limiting_pass dt [pf A a; pf B b] [ab A B v w] = ([ab A B v' w], need) /\
    (0 <= a + v * dt <= 1 -> v' == v /\ need = false) /\
    (a + v * dt < 0 -> a + v' * dt == 0 /\ need = true) /\
    (1 < a + v * dt -> a + v' * dt == 1 /\ need = true).
Proof.
  intros Hab Ha Hsum Hdt Hv.
  assert (Hba : B <> A) by congruence.
  unfold limiting_pass. cbn [map existsb fst snd].
  set (inc := collect_increments [ab A B v w]).
  set (L := calculate_limits dt [pf A a; pf B b] inc).
  assert (HnA : get_sym2 L A 0 = get_sym2 (limit_step dt inc [] (pf A a)) A 0).
  { unfold L, calculate_limits. cbn [fold_left].
    apply (proj2 (limit_step_other dt inc _ (pf B b) A Hba)). }
  assert (HpA : get_sym1 L A 0 = get_sym1 (limit_step dt inc [] (pf A a)) A 0).
  { unfold L, calculate_limits. cbn [fold_left].
    apply (proj1 (limit_step_other dt inc _ (pf B b) A Hba)). }
  pose proof (limit_step_neg dt inc [] (pf A a)) as EnA.
  pose proof (limit_step_pos dt inc [] (pf A a)) as EpA.
  pose proof (limit_step_neg dt inc (limit_step dt inc [] (pf A a)) (pf B b)) as EnB.
  pose proof (limit_step_pos dt inc (limit_step dt inc [] (pf A a)) (pf B b)) as EpB.
  cbv zeta in EnA, EpA, EnB, EpB. cbn [pf index value] in EnA, EpA, EnB, EpB.
  fold (pf A a) in EnA, EpA, EnB, EpB. fold (pf B b) in EnB, EpB.
  change (limit_step dt inc (limit_step dt inc [] (pf A a)) (pf B b)) with L
    in EnB, EpB.
  rewrite <- HnA in EnA. rewrite <- HpA in EpA. clear HnA HpA.
  unfold limit_record. cbn [ab indexA indexB value1 value2]. qsimp.
  destruct (Qlt_bool v 0) eqn:Vneg.
  - apply Qlt_bool_iff in Vneg.
    assert (Einc : inc = [ {| indexA := A; indexB := 0; value1 := 0; value2 := v |};
                           {| indexA := B; indexB := 0; value1 := - v; value2 := 0 |} ]).
    { unfold inc, collect_increments, collect_step, ab. cbn [fold_left value1 indexA indexB].
      qsimp. replace (Qlt_bool v 0) with true by (symmetry; apply Qlt_bool_iff; lra).
      replace (Qlt_bool 0 v) with false by (symmetry; apply Qlt_bool_false; lra).
      unfold add_sym1, add_sym2. cbn [upd_sym]. qsimp.
      rewrite (sym_pair_other _ A B Hab (sym_pair_new A 0 v)). reflexivity. }
    assert (I1 : get_sym1 inc A 0 = 0).
    { rewrite Einc. cbn [get_sym1]. rewrite sym_pair_new. reflexivity. }
    assert (I2 : get_sym2 inc A 0 = v).
    { rewrite Einc. cbn [get_sym2]. rewrite sym_pair_new. reflexivity. }
    assert (I3 : get_sym1 inc B 0 = - v).
    { rewrite Einc. cbn [get_sym1].
      rewrite (sym_pair_other _ A B Hab (sym_pair_new A 0 v)), sym_pair_new.
      reflexivity. }
    assert (I4 : get_sym2 inc B 0 = 0).
    { rewrite Einc. cbn [get_sym2].
      rewrite (sym_pair_other _ A B Hab (sym_pair_new A 0 v)), sym_pair_new.
      reflexivity. }
    rewrite I1, I2 in EnA. rewrite I3, I4 in EpB. qsimp.
    rewrite EnA, EpB. clear EnA EpA EnB EpB.
    destruct (Qlt_bool (a + (0 + v) * dt) 0) eqn:C1.
    + apply Qlt_bool_iff in C1.
      replace (Qlt_bool 1 (b + (- v + 0) * dt)) with true
        by (symmetry; apply Qlt_bool_iff; nra).
      set (x := - (a + 0 * dt) / (v * dt)).
      set (y := (1 - (b + 0 * dt)) / (- v * dt)).
      assert (Hvd : v * dt < 0) by nra.
      assert (Hx : x * (v * dt) == - a).
      { unfold x. field. split; intro Hz; rewrite Hz in Hvd; lra. }
      assert (Hy : y * (v * dt) == b - 1).
      { unfold y. field. split; intro Hz; rewrite Hz in Hvd; lra. }
      assert (Hx1 : x < 1) by nra.
      assert (Hxy : x == y) by nra.
      assert (Hx0 : 0 < x) by nra.
      rewrite (std_min_one x Hx1).
      rewrite (std_min_one y) by lra.
      rewrite (std_min_same x y Hxy).
      replace (Qlt_bool 0 (v * x)) with false
        by (symmetry; apply Qlt_bool_false; nra).
      replace (Qlt_bool x 1) with true by (symmetry; apply Qlt_bool_iff; lra).
      cbn [with1 fst snd orb indexA indexB value1 value2].
      eexists. eexists. split; [reflexivity|].
      repeat split; intros; try (exfalso; nra); try nra.
    + apply Qlt_bool_false in C1.
      replace (Qlt_bool 1 (b + (- v + 0) * dt)) with false
        by (symmetry; apply Qlt_bool_false; nra).
      rewrite (std_min_same 1 1) by reflexivity.
      replace (Qlt_bool 0 (v * 1)) with false
        by (symmetry; apply Qlt_bool_false; nra).
      replace (Qlt_bool 1 1) with false by reflexivity.
      cbn [with1 fst snd orb indexA indexB value1 value2].
      eexists. eexists. split; [reflexivity|].
      repeat split; intros; try (exfalso; nra); try nra.
  - apply Qlt_bool_false in Vneg.
    assert (Vpos : 0 < v).
    { destruct (Qlt_le_dec 0 v) as [P|P]; [exact P|]. exfalso. apply Hv. lra. }
    replace (Qlt_bool 0 v) with true by (symmetry; apply Qlt_bool_iff; exact Vpos).
    assert (Einc : inc = [ {| indexA := A; indexB := 0; value1 := v; value2 := 0 |};
                           {| indexA := B; indexB := 0; value1 := 0; value2 := - v |} ]).
    { unfold inc, collect_increments, collect_step, ab. cbn [fold_left value1 indexA indexB].
      qsimp. replace (Qlt_bool v 0) with false by (symmetry; apply Qlt_bool_false; lra).
      replace (Qlt_bool 0 v) with true by (symmetry; apply Qlt_bool_iff; lra).
      unfold add_sym1, add_sym2. cbn [upd_sym]. qsimp.
      rewrite (sym_pair_other _ A B Hab (sym_pair_new A v 0)). reflexivity. }
    assert (I1 : get_sym1 inc A 0 = v).
    { rewrite Einc. cbn [get_sym1]. rewrite sym_pair_new. reflexivity. }
    assert (I2 : get_sym2 inc A 0 = 0).
    { rewrite Einc. cbn [get_sym2]. rewrite sym_pair_new. reflexivity. }
    assert (I3 : get_sym1 inc B 0 = 0).
    { rewrite Einc. cbn [get_sym1].
      rewrite (sym_pair_other _ A B Hab (sym_pair_new A v 0)), sym_pair_new.
      reflexivity. }
    assert (I4 : get_sym2 inc B 0 = - v).
    { rewrite Einc. cbn [get_sym2].
      rewrite (sym_pair_other _ A B Hab (sym_pair_new A v 0)), sym_pair_new.
      reflexivity. }
    rewrite I1, I2 in EpA. rewrite I3, I4 in EnB. qsimp.
    rewrite EpA, EnB. clear EnA EpA EnB EpB.
    destruct (Qlt_bool 1 (a + (v + 0) * dt)) eqn:C1.
    + apply Qlt_bool_iff in C1.
      replace (Qlt_bool (b + (0 + - v) * dt) 0) with true
        by (symmetry; apply Qlt_bool_iff; nra).
      set (x := (1 - (a + 0 * dt)) / (v * dt)).
      set (y := - (b + 0 * dt) / (- v * dt)).
      assert (Hvd : 0 < v * dt) by nra.
      assert (Hx : x * (v * dt) == 1 - a).
      { unfold x. field. split; intro Hz; rewrite Hz in Hvd; lra. }
      assert (Hy : y * (v * dt) == b).
      { unfold y. field. split; intro Hz; rewrite Hz in Hvd; lra. }
      assert (Hx1 : x < 1) by nra.
      assert (Hxy : x == y) by nra.
      assert (Hx0 : 0 < x) by nra.
      rewrite (std_min_one x Hx1).
      rewrite (std_min_one y) by lra.
      rewrite (std_min_same x y Hxy).
      replace (Qlt_bool x 1) with true by (symmetry; apply Qlt_bool_iff; lra).
      cbn [with1 fst snd orb indexA indexB value1 value2].
      eexists. eexists. split; [reflexivity|].
      repeat split; intros; try (exfalso; nra); try nra.
    + apply Qlt_bool_false in C1.
      replace (Qlt_bool (b + (0 + - v) * dt) 0) with false
        by (symmetry; apply Qlt_bool_false; nra).
      rewrite (std_min_same 1 1) by reflexivity.
      replace (Qlt_bool 1 1) with false by reflexivity.
      cbn [with1 fst snd orb indexA indexB value1 value2].
      eexists. eexists. split; [reflexivity|].
      repeat split; intros; try (exfalso; nra); try nra.
Qed.

End OnePairExact.

Section PathsAgree.
Context {T : Type} `{Scalar T}.

Lemma normalize_single_scaled (dt : T) (fields : list (PFEntry T))
    (e e' : ABEntry T) :
  normalize_single dt fields [e] = [e'] ->
  exists norm, e' = with2 (smul (value2 e) norm) (with1 (smul (value1 e) norm) e).
Proof.
  unfold normalize_single.
  destruct (_ || _); [discriminate|].
  match goal with |- context [scale _ ?n] => set (norm := n) end.
  destruct (sltb DBL_EPSILON norm); [|discriminate].
  cbn [scale map]. intro E. injection E as E. exists norm. symmetry. exact E.
Qed.

Lemma pin_step_inside (fields : list (PFEntry T)) (dot : NodeAB T)
    (p : nat) (alpha : PFEntry T) :
  seqb (value alpha) s0 = false -> seqb (value alpha) s1 = false ->
  pin_step fields dot (p, alpha) = dot.
Proof.
  intros E0 E1. unfold pin_step. rewrite E0, E1. reflexivity.
Qed.

End PathsAgree.

Section PathsAgreeExact.
Local Open Scope Q_scope.

(** Where the two paths do agree, under exact arithmetic: for a cell of
    exactly two regions [A], [B] whose values lie strictly between 0 and 1
    and sum to 1, and the single record (A,B) with [value2 = 0], the fast
    path and the general algorithm run on that store with the same
    [dt > 0] leave the same record whenever both keep one (values compared
    as rationals).  In binary64 they round differently even there
    ([paths_round_differently]). *)
Theorem fast_path_agrees_with_general
    (fuel : nat) (A B : N) (a b v dt : Q) (f g : ABEntry Q) (r : Normalized Q) :
  A <> B -> 0 < a < 1 -> a + b == 1 -> 0 < dt ->
  normalize_single dt [pf A a; pf B b] [ab A B v 0] = [f] ->
  normalize_general fuel dt [pf A a; pf B b] [ab A B v 0] = Some r ->
  increments r = [g] ->
  indexA f = indexA g /\ indexB f = indexB g /\
  value1 f == value1 g /\ value2 f == value2 g.
Proof.
  intros Hab Ha Hsum Hdt Hf Hg Hr.
  (* the fast path *)
  assert (Hold : get_value [pf A a; pf B b] A = a).
  { cbn [get_value pf index value]. rewrite N.eqb_refl. reflexivity. }
  pose proof (normalize_single_lands dt [pf A a; pf B b] (ab A B v 0)) as Hl.
  cbv zeta in Hl. cbn [ab indexA indexB value1 value2] in Hl.
  fold (ab A B v 0) in Hl. rewrite Hold, Hf in Hl.
  destruct Hl as (_ & _ & F1 & F2 & F3); [lra|].
  destruct (normalize_single_scaled dt _ _ _ Hf) as (norm & Ef).
  cbn [ab with1 with2 indexA indexB value1 value2] in Ef.
  subst f. cbn [ab with1 with2 indexA indexB value1 value2] in *. qsimp.
  (* the general path *)
  unfold normalize_general in Hg.
  assert (Hpin : pin_out_of_bounds [pf A a; pf B b] [ab A B v 0] = [ab A B v 0]).
  { unfold pin_out_of_bounds. cbn [length seq combine fold_left].
    rewrite !pin_step_inside; try reflexivity; cbn [pf value]; qsimp;
      apply not_true_is_false; intro Hx; apply Qeq_bool_iff in Hx; lra. }
  rewrite Hpin in Hg. unfold remove_zero_sets in Hg.
  cbn [filter ab value1 value2] in Hg. qsimp.
  destruct (Qeq_bool v 0) eqn:Hv0.
  { cbn in Hg. assert (Er : r = untouched []) by congruence.
    rewrite Er in Hr. discriminate. }
  apply Qeq_bool_false in Hv0. cbn [andb negb] in Hg. fold (ab A B v 0) in Hg.
  assert (Hfinal : exists vf,
             limiting_loop fuel dt [pf A a; pf B b] 0 [ab A B v 0]
               = Some ([ab A B vf 0], iterations r, unconverged r) /\
             (0 <= a + v * dt <= 1 -> vf == v) /\
             (a + v * dt < 0 -> a + vf * dt == 0) /\
             (1 < a + v * dt -> a + vf * dt == 1)).
  { destruct (limiting_loop fuel dt [pf A a; pf B b] 0 [ab A B v 0])
      as [[[d its] nd]|] eqn:EL; [|discriminate].
    injection Hg as Hg. subst r. cbn [iterations unconverged increments] in *.
    destruct fuel as [|f1]; [discriminate|]. cbn [limiting_loop] in EL.
    destruct (one_pair_pass A B a b v 0 dt Hab Ha Hsum Hdt Hv0)
      as (v1 & need & P1 & W1 & N1 & U1).
    rewrite P1 in EL. cbn [Z.add Z.gtb Z.compare Pos.compare Pos.compare_cont] in EL.
    destruct need.
    - destruct f1 as [|f2]; [discriminate|]. cbn [limiting_loop] in EL.
      assert (Hv1 : ~ v1 == 0 /\ 0 <= a + v1 * dt <= 1).
      { destruct (Qlt_le_dec (a + v * dt) 0) as [L|L].
        - destruct (N1 L) as [E _]. split; [intro Hz; rewrite Hz in E; lra | lra].
        - destruct (Qlt_le_dec 1 (a + v * dt)) as [U|U].
          + destruct (U1 U) as [E _]. split; [intro Hz; rewrite Hz in E; lra | lra].
          + destruct (W1 (conj L U)) as [_ E]. discriminate. }
      destruct Hv1 as [Hv1 Hin].
      destruct (one_pair_pass A B a b v1 0 dt Hab Ha Hsum Hdt Hv1)
        as (v2 & need2 & P2 & W2 & _ & _).
      rewrite P2 in EL. destruct (W2 Hin) as [E2 En2]. subst need2.
      cbn [Z.add Z.gtb Z.compare Pos.compare Pos.compare_cont Pos.add Pos.succ] in EL.
      injection EL as Ed Ei En. subst d its nd.
      exists v2. split; [reflexivity|].
      repeat split; intro Hc.
      + destruct (W1 Hc) as [_ E]. discriminate.
      + destruct (N1 Hc) as [E _]. rewrite E2. exact E.
      + destruct (U1 Hc) as [E _]. rewrite E2. exact E.
    - injection EL as Ed Ei En. subst d its nd.
      exists v1. split; [reflexivity|].
      repeat split; intro Hc.
      + exact (proj1 (W1 Hc)).
      + destruct (N1 Hc) as [_ E]. discriminate.
      + destruct (U1 Hc) as [_ E]. discriminate. }
  destruct Hfinal as (vf & EL & G3 & G1 & G2).
  rewrite EL in Hg.
  assert (Hi : increments r = clean_up dt [ab A B vf 0])
    by (injection Hg as Hg; rewrite <- Hg; reflexivity).
  rewrite Hi in Hr.
  unfold clean_up in Hr. cbn [filter ab value1] in Hr.
  destruct (negb _); [|discriminate].
  injection Hr as Hr. subst g.
  cbn [ab with1 with2 indexA indexB value1 value2]. qsimp.
  split; [reflexivity|]. split; [reflexivity|]. split; [|ring].
  destruct (Qlt_le_dec (a + v * dt) 0) as [L|L].
  - assert (Lf : a + (v + 0) * dt < 0) by lra.
    specialize (F1 Lf). specialize (G1 L). nra.
  - destruct (Qlt_le_dec 1 (a + v * dt)) as [U|U].
    + assert (Uf : 1 < a + (v + 0) * dt) by lra.
      specialize (F2 Uf). specialize (G2 U). nra.
    + assert (Wf : 0 <= a + (v + 0) * dt <= 1) by lra.
      specialize (F3 Wf). specialize (G3 (conj L U)). nra.
Qed.

End PathsAgreeExact.

Lemma fast_path_agrees_with_general_witness :
  5%N <> 9%N /\
  exists f g r,
    normalize_single (1 # 2)%Q [pf 5%N (6 # 10)%Q; pf 9%N (4 # 10)%Q]
      [ab 5%N 9%N 2%Q 0%Q] = [f] /\
    normalize_general 2 (1 # 2)%Q [pf 5%N (6 # 10)%Q; pf 9%N (4 # 10)%Q]
      [ab 5%N 9%N 2%Q 0%Q] = Some r /\
    increments r = [g] /\
    (value1 f == 8 # 10)%Q /\
    indexA f = indexA g /\ indexB f = indexB g /\
    (value1 f == value1 g)%Q /\ (value2 f == value2 g)%Q.
Proof.
  split; [discriminate|].
  destruct (normalize_single (1 # 2)%Q [pf 5%N (6 # 10)%Q; pf 9%N (4 # 10)%Q]
              [ab 5%N 9%N 2%Q 0%Q]) as [|f [|f' fs]] eqn:Ef;
    [vm_compute in Ef; discriminate | | vm_compute in Ef; discriminate].
  destruct (normalize_general 2 (1 # 2)%Q [pf 5%N (6 # 10)%Q; pf 9%N (4 # 10)%Q]
              [ab 5%N 9%N 2%Q 0%Q]) as [r|] eqn:Er;
    [| vm_compute in Er; discriminate].
  destruct (increments r) as [|g [|g' gs]] eqn:Eg;
    [ vm_compute in Er; injection Er as Er; subst r; discriminate
    | | vm_compute in Er; injection Er as Er; subst r; discriminate ].
  exists f, g, r. split; [reflexivity|]. split; [reflexivity|].
  split; [exact Eg|]. split.
  - vm_compute in Ef. injection Ef as Ef. subst f. reflexivity.
  - apply (fast_path_agrees_with_general 2 5%N 9%N (6 # 10)%Q (4 # 10)%Q 2%Q
             (1 # 2)%Q f g r).
    + discriminate.
    + split; reflexivity.
    + reflexivity.
    + reflexivity.
    + exact Ef.
    + exact Er.
    + exact Eg.
Defined.

(** C6: the fast path and the general algorithm of
    [NormalizeIncrementsSR] do not compute the same store from the same
    one-record input; in binary64 as the program runs.  With the record
    (5,9) carrying 1.0 in both [value1] and [value2] over [{5: 0.6, 9: 0.4}]
    and [dt = 0.5], the fast path scales both contributions by 0.4 while the
    general loop limits [value1] alone to 0.8.  With a third region in the
    cell, [{1: 0.5, 2: 0.125, 3: 0.375}] and the record (1,2) of rate 0.25,
    [dt = 1], the fast path, which looks at region 1 only, keeps the rate
    and the general loop halves it for region 2. *)
Lemma fast_path_differs_from_general :
  normalize_single 0.5%float [pf 5%N 0.6%float; pf 9%N 0.4%float]
    [ab 5%N 9%N 1%float 1%float]
  = [ab 5%N 9%N 0.4%float 0.4%float] /\
  option_map (fun r => increments r)
    (normalize_general 25 0.5%float [pf 5%N 0.6%float; pf 9%N 0.4%float]
       [ab 5%N 9%N 1%float 1%float])
  = Some [ab 5%N 9%N 0.8%float 1%float] /\
  normalize_single 1%float
    [pf 1%N 0.5%float; pf 2%N 0.125%float; pf 3%N 0.375%float]
    [ab 1%N 2%N 0.25%float 0%float]
  = [ab 1%N 2%N 0.25%float 0%float] /\
  option_map (fun r => increments r)
    (normalize_general 25 1%float
       [pf 1%N 0.5%float; pf 2%N 0.125%float; pf 3%N 0.375%float]
       [ab 1%N 2%N 0.25%float 0%float])
  = Some [ab 1%N 2%N 0.125%float 0%float].
Proof.
  repeat split; vm_compute; reflexivity.
Qed.

(** The general path limits [value1] and leaves [value2] alone, but the
    merge applies their sum: the record (0.8, 1.0) it leaves for
    [{5: 0.6, 9: 0.4}] and [dt = 0.5] takes region 5 to 1.5 and region 9 to
    -0.5, where the fast path's (0.4, 0.4) takes them to 1.0 and 0.0. *)
Lemma general_path_keeps_value2 :
  fst (MergeIncrementsSR_cell no_violation no_damping 0.5%float true true
         (interface_cell [pf 5%N 0.6%float; pf 9%N 0.4%float])
         [ab 5%N 9%N 0.8%float 1%float])
  = interface_cell [pf 5%N 1.5%float; pf 9%N (-0.5)%float] /\
  fst (MergeIncrementsSR_cell no_violation no_damping 0.5%float true true
         (interface_cell [pf 5%N 0.6%float; pf 9%N 0.4%float])
         [ab 5%N 9%N 0.4%float 0.4%float])
  = {| flag := 0; Fields := [pf 5%N 1%float] |}.
Proof.
  split; vm_compute; reflexivity.
Qed.

(** With [value2 = 0] and two regions the paths agree under exact
    arithmetic and still differ in binary64: the fast path multiplies the
    rate by the quotient [(1 - 0.1) / 7], the general loop by a limit
    computed from the collected increments. *)
Lemma paths_round_differently :
  normalize_single 1%float [pf 1%N 0.1%float; pf 2%N 0.9%float]
    [ab 1%N 2%N 7%float 0%float]
  = [ab 1%N 2%N 0.90000000000000013%float 0%float] /\
  option_map (fun r => increments r)
    (normalize_general 25 1%float [pf 1%N 0.1%float; pf 2%N 0.9%float]
       [ab 1%N 2%N 7%float 0%float])
  = Some [ab 1%N 2%N 0.90000000000000002%float 0%float] /\
  PrimFloat.ltb 0.90000000000000002%float 0.90000000000000013%float = true.
Proof.
  repeat split; vm_compute; reflexivity.
Qed.

(** ** Coarsen and Refine keep the nodes valid *)

Section DualExact.
Local Open Scope Q_scope.

















End DualExact.


(** The same round trip as the program computes it in binary64, on a line
    of near-interface cells that all host region 7: the mean of the two
    fine cells and the quarter-offset sample are again exactly 1.0. *)
Lemma bulk_round_trip_binary64 :
  Coarsen (line_grid 4) (fun _ _ _ => near_interface_cell 7%N)
          (fun _ _ _ => near_interface_cell 7%N) 2%Z 0%Z 0%Z
  = {| flag := 0; Fields := [pf 7%N 1%float] |} /\
  Refine_child (linear_stencil (line_grid 4))
    (Coarsen (line_grid 4) (fun _ _ _ => near_interface_cell 7%N)
             (fun _ _ _ => near_interface_cell 7%N))
    2 0 0 (-1, 0, 0)%Z
  = {| flag := 0; Fields := [pf 7%N 1%float] |}.
Proof.
  split; vm_compute; reflexivity.
Qed.


(** * Further properties *)

(** ** Flags around the interfaces *)

Section Flags.
Context {T : Type} `{Scalar T}.

Lemma at3_poke {A : Type} (s : Storage3D A) (c c' : Z * Z * Z) (v : A) :
  at3 (poke s (fst (fst c)) (snd (fst c)) (snd c) v) c'
  = if (Z.eqb (fst (fst c')) (fst (fst c)) && Z.eqb (snd (fst c')) (snd (fst c))
        && Z.eqb (snd c') (snd c))%bool then v else at3 s c'.
Proof.
  destruct c as [[i j] k], c' as [[i' j'] k']. reflexivity.
Qed.

Lemma cell_eq_dec (a b : Z * Z * Z) : {a = b} + {a <> b}.
Proof. repeat decide equality. Qed.

Lemma at3_poke_same {A : Type} (s : Storage3D A) (c : Z * Z * Z) (v : A) :
  at3 (poke s (fst (fst c)) (snd (fst c)) (snd c) v) c = v.
Proof.
  rewrite at3_poke. rewrite !Z.eqb_refl. reflexivity.
Qed.

Lemma at3_poke_other {A : Type} (s : Storage3D A) (c c' : Z * Z * Z) (v : A) :
  c' <> c -> at3 (poke s (fst (fst c)) (snd (fst c)) (snd c) v) c' = at3 s c'.
Proof.
  intro Hne. rewrite at3_poke.
  destruct c as [[i j] k], c' as [[i' j'] k']. cbn [fst snd].
  destruct (Z.eqb_spec i' i); [|reflexivity].
  destruct (Z.eqb_spec j' j); [|reflexivity].
  destruct (Z.eqb_spec k' k); [|reflexivity].
  subst. congruence.
Qed.

Lemma mark_near_spec (F : Storage3D (NodePF T)) (c c' : Z * Z * Z) :
  Fields (at3 (mark_near F c) c') = Fields (at3 F c') /\
  (flag (at3 F c') <> 0%Z -> flag (at3 (mark_near F c) c') = flag (at3 F c')) /\
  (flag (at3 F c') = 0%Z ->
     flag (at3 (mark_near F c) c') = if cell_eq_dec c' c then 1%Z else 0%Z).
Proof.
  unfold mark_near.
  destruct c as [[i j] k] eqn:Ec.
  change (F i j k) with (at3 F (i, j, k)).
  destruct (Z.eqb_spec (flag (at3 F (i, j, k))) 0) as [E0|E0].
  - pose proof (at3_poke_same F (i, j, k)) as Hs.
    pose proof (at3_poke_other F (i, j, k) c') as Ho.
    cbn [fst snd] in Hs, Ho.
    destruct (cell_eq_dec c' (i, j, k)) as [->|Hne].
    + rewrite Hs. cbn [Fields flag]. repeat split; try reflexivity.
      intro Hx. congruence.
    + rewrite (Ho _ Hne). repeat split; try reflexivity. intro Hz; exact Hz.
  - repeat split; try reflexivity.
    intro Hz. destruct (cell_eq_dec c' (i, j, k)) as [->|Hne]; [congruence|exact Hz].
Qed.

Lemma fold_mark_near_spec (L : list (Z * Z * Z)) (F : Storage3D (NodePF T))
    (c' : Z * Z * Z) :
  Fields (at3 (fold_left mark_near L F) c') = Fields (at3 F c') /\
  (flag (at3 F c') <> 0%Z -> flag (at3 (fold_left mark_near L F) c') = flag (at3 F c')) /\
  (flag (at3 F c') = 0%Z -> In c' L -> flag (at3 (fold_left mark_near L F) c') = 1%Z) /\
  (flag (at3 F c') = 0%Z -> ~ In c' L -> flag (at3 (fold_left mark_near L F) c') = 0%Z).
Proof.
  revert F. induction L as [|a L IH]; intro F; cbn [fold_left].
  - repeat split; try reflexivity; intros; try contradiction; assumption.
  - destruct (IH (mark_near F a)) as (I1 & I2 & I3 & I4).
    destruct (mark_near_spec F a c') as (M1 & M2 & M3).
    split; [congruence|]. split; [|split].
    + intro Hn. rewrite I2; [apply M2; exact Hn|]. rewrite M2; exact Hn.
    + intros Hz Hin. specialize (M3 Hz).
      destruct (cell_eq_dec c' a) as [->|Hne].
      * rewrite I2; rewrite M3; [reflexivity|discriminate].
      * destruct Hin as [Hin|Hin]; [congruence|]. apply I3; assumption.
    + intros Hz Hnin. specialize (M3 Hz).
      destruct (cell_eq_dec c' a) as [->|Hne].
      * exfalso. apply Hnin. left. reflexivity.
      * apply I4; [exact M3|]. intro Hin. apply Hnin. right. exact Hin.
Qed.

Lemma SetFlags_cell_spec (g : GridParameters) (F : Storage3D (NodePF T))
    (c c' : Z * Z * Z) :
  Fields (at3 (SetFlags_cell g F c) c') = Fields (at3 F c') /\
  (flag (at3 F c') <> 0%Z -> flag (at3 (SetFlags_cell g F c) c') = flag (at3 F c')) /\
  (flag (at3 F c') = 0%Z -> flag (at3 F c) = 2%Z -> In c' (neighbourhood g c) ->
     flag (at3 (SetFlags_cell g F c) c') = 1%Z) /\
  (flag (at3 F c') = 0%Z -> ~ (flag (at3 F c) = 2%Z /\ In c' (neighbourhood g c)) ->
     flag (at3 (SetFlags_cell g F c) c') = 0%Z).
Proof.
  unfold SetFlags_cell.
  destruct (Z.eqb_spec (flag (at3 F c)) 2) as [E|E].
  - destruct (fold_mark_near_spec (neighbourhood g c) F c') as (I1 & I2 & I3 & I4).
    split; [exact I1|]. split; [exact I2|]. split.
    + intros Hz _ Hin. apply I3; assumption.
    + intros Hz Hn. apply I4; [exact Hz|]. intro Hin. apply Hn. split; assumption.
  - split; [reflexivity|]. split; [reflexivity|]. split.
    + intros _ E' _. contradiction.
    + intros Hz _. exact Hz.
Qed.

Lemma SetFlags_cell_two (g : GridParameters) (F : Storage3D (NodePF T))
    (c x : Z * Z * Z) :
  flag (at3 (SetFlags_cell g F c) x) = 2%Z <-> flag (at3 F x) = 2%Z.
Proof.
  destruct (SetFlags_cell_spec g F c x) as (_ & I2 & I3 & I4).
  destruct (Z.eq_dec (flag (at3 F x)) 0) as [Hz|Hn].
  - assert (Hv : flag (at3 (SetFlags_cell g F c) x) = 1%Z
                 \/ flag (at3 (SetFlags_cell g F c) x) = 0%Z).
    { destruct (Z.eq_dec (flag (at3 F c)) 2) as [E|E].
      - destruct (in_dec cell_eq_dec x (neighbourhood g c)) as [Hin|Hnin].
        + left. apply I3; assumption.
        + right. apply I4; [assumption|]. intros [_ Hin]. contradiction.
      - right. apply I4; [assumption|]. intros [E' _]. contradiction. }
    split; intro Hx; destruct Hv; lia.
  - rewrite (I2 Hn). reflexivity.
Qed.

(** X3: [SetFlagsSR] changes no value and no flag other than 0; a bulk
    cell (flag 0) ends with flag 1 exactly when it lies in the
    neighbourhood of a visited cell whose flag is 2, and keeps flag 0
    otherwise.  The outcome is therefore the same for every order in which
    the storage loop visits the cells. *)
Theorem SetFlagsSR_marks_the_neighbours (g : GridParameters)
    (cells : list (Z * Z * Z)) (F : Storage3D (NodePF T)) (c' : Z * Z * Z) :
  let F' := SetFlagsSR g cells F in
  let near := exists c, In c cells /\ flag (at3 F c) = 2%Z
                        /\ In c' (neighbourhood g c) in
  Fields (at3 F' c') = Fields (at3 F c') /\
  (flag (at3 F c') <> 0%Z -> flag (at3 F' c') = flag (at3 F c')) /\
  (flag (at3 F c') = 0%Z -> near -> flag (at3 F' c') = 1%Z) /\
  (flag (at3 F c') = 0%Z -> ~ near -> flag (at3 F' c') = 0%Z).
Proof.
  cbv zeta. unfold SetFlagsSR. revert F.
  induction cells as [|c cells IH]; intro F; cbn [fold_left].
  - repeat split; try reflexivity.
    + intros _ (c & [] & _).
    + intros Hz _. exact Hz.
  - destruct (IH (SetFlags_cell g F c)) as (I1 & I2 & I3 & I4).
    destruct (SetFlags_cell_spec g F c c') as (S1 & S2 & S3 & S4).
    split; [congruence|]. split; [|split].
    + intro Hn. rewrite I2; [apply S2; exact Hn|]. rewrite S2; exact Hn.
    + intros Hz (c0 & Hin & H2 & Hnb).
      destruct (Z.eq_dec (flag (at3 F c)) 2) as [E|E];
        [destruct (in_dec cell_eq_dec c' (neighbourhood g c)) as [Hc|Hc]|].
      * rewrite I2; rewrite (S3 Hz E Hc); [reflexivity|discriminate].
      * destruct Hin as [->|Hin]; [contradiction|].
        apply I3.
        -- apply S4; [exact Hz|]. intros [_ Hx]. contradiction.
        -- exists c0. split; [exact Hin|]. split; [|exact Hnb].
           apply SetFlags_cell_two. exact H2.
      * destruct Hin as [->|Hin]; [contradiction|].
        apply I3.
        -- apply S4; [exact Hz|]. intros [Hx _]. contradiction.
        -- exists c0. split; [exact Hin|]. split; [|exact Hnb].
           apply SetFlags_cell_two. exact H2.
    + intros Hz Hnear.
      apply I4.
      * apply S4; [exact Hz|]. intros [E Hc]. apply Hnear.
        exists c. split; [left; reflexivity|]. split; assumption.
      * intros (c0 & Hin & H2 & Hnb). apply Hnear.
        exists c0. split; [right; exact Hin|]. split; [|exact Hnb].
        apply (SetFlags_cell_two g F c c0). exact H2.
Qed.

End Flags.

(** ** Phase fractions of a cell *)

Section FractionsExact.
Local Open Scope Q_scope.

Lemma tensor_fold_shift (t : N -> Q) (l : list nat) (a : Q) :
  fold_left (fun a p => sadd a (t (N.of_nat p))) l a
  == a + fold_left (fun a p => sadd a (t (N.of_nat p))) l 0.
Proof.
  revert a. induction l as [|p l IH]; intro a; cbn [fold_left].
  - lra.
  - rewrite (IH (sadd a _)), (IH (sadd 0 _)). qsimp. lra.
Qed.

Lemma tensor_total_S (n : nat) (t : N -> Q) :
  tensor_total (S n) t == tensor_total n t + t (N.of_nat n).
Proof.
  unfold tensor_total. rewrite seq_S, fold_left_app. cbn [fold_left Nat.add].
  qsimp. lra.
Qed.

Lemma tensor_total_ext (n : nat) (t u : N -> Q) :
  (forall p, (p < n)%nat -> t (N.of_nat p) == u (N.of_nat p)) ->
  tensor_total n t == tensor_total n u.
Proof.
  induction n as [|n IH]; intro Hp.
  - reflexivity.
  - rewrite !tensor_total_S, IH, (Hp n) by (intros; try apply Hp; lia). reflexivity.
Qed.

Lemma tensor_total_add (n : nat) (t : N -> Q) (p : N) (v : Q) :
  (N.to_nat p < n)%nat ->
  tensor_total n (tensor_add t p v) == tensor_total n t + v.
Proof.
  induction n as [|n IH]; intro Hp; [lia|].
  rewrite !tensor_total_S.
  destruct (Nat.eq_dec (N.to_nat p) n) as [E|E].
  - rewrite (tensor_total_ext n (tensor_add t p v) t).
    + unfold tensor_add. replace (N.of_nat n) with p by lia.
      rewrite N.eqb_refl. qsimp. lra.
    + intros q Hq. unfold tensor_add.
      destruct (N.eqb_spec (N.of_nat q) p); [lia|reflexivity].
  - rewrite IH by lia. unfold tensor_add.
    destruct (N.eqb_spec (N.of_nat n) p); [lia|]. lra.
Qed.

Lemma tensor_total_sub (n : nat) (t : N -> Q) (p : N) (v : Q) :
  (N.to_nat p < n)%nat ->
  tensor_total n (tensor_sub t p v) == tensor_total n t - v.
Proof.
  induction n as [|n IH]; intro Hp; [lia|].
  rewrite !tensor_total_S.
  destruct (Nat.eq_dec (N.to_nat p) n) as [E|E].
  - rewrite (tensor_total_ext n (tensor_sub t p v) t).
    + unfold tensor_sub. replace (N.of_nat n) with p by lia.
      rewrite N.eqb_refl. qsimp. lra.
    + intros q Hq. unfold tensor_sub.
      destruct (N.eqb_spec (N.of_nat q) p); [lia|reflexivity].
  - rewrite IH by lia. unfold tensor_sub.
    destruct (N.eqb_spec (N.of_nat n) p); [lia|]. lra.
Qed.

Lemma tensor_total_zero (n : nat) : tensor_total n (fun _ => 0) == 0.
Proof.
  induction n as [|n IH]; [reflexivity|]. rewrite tensor_total_S, IH. lra.
Qed.

Lemma fractions_fold_total (Phase : N -> N) (Nphases : nat)
    (l : list (PFEntry Q)) (fr : N -> Q) :
  (forall it, In it l -> (N.to_nat (Phase (index it)) < Nphases)%nat) ->
  tensor_total Nphases (add_fractions Phase l fr)
  == tensor_total Nphases fr + sum_values l.
Proof.
  unfold add_fractions.
  revert fr. induction l as [|it l IH]; intros fr Hp; cbn [fold_left].
  - unfold sum_values. cbn [fold_left]. qsimp. lra.
  - rewrite IH by (intros; apply Hp; right; assumption).
    rewrite tensor_total_add by (apply Hp; left; reflexivity).
    rewrite sum_values_cons. lra.
Qed.

(** X4: in exact arithmetic the phase fractions [CalculateFractions]
    writes for a cell add up to the total of the cell's values, provided
    every entry belongs to one of the [Nphases] phases. *)
Theorem fractions_add_up_to_cell_total (Phase : N -> N) (Nphases : nat)
    (n : NodePF Q) :
  (forall it, In it (Fields n) -> (N.to_nat (Phase (index it)) < Nphases)%nat) ->
  tensor_total Nphases (CalculateFractions_cell Phase n) == sum_values (Fields n).
Proof.
  intro Hp. unfold CalculateFractions_cell.
  rewrite fractions_fold_total by exact Hp.
  qsimp. rewrite tensor_total_zero. lra.
Qed.

(** X5: in exact arithmetic [CalculateNewFractions] and the member
    [NewFractions] move fractions between phases without changing their
    total, for every store and every time step, provided the regions of
    the records belong to the [Nphases] phases. *)
Theorem new_fractions_keep_the_total (Phase : N -> N) (Nphases : nat)
    (violation : N -> bool) (growth : N -> N -> Q)
    (Fractions : N -> Q) (FieldsDot : NodeAB Q) (locdt : Q) :
  (forall it, In it FieldsDot ->
     (N.to_nat (Phase (indexA it)) < Nphases)%nat /\
     (N.to_nat (Phase (indexB it)) < Nphases)%nat) ->
  tensor_total Nphases (CalculateNewFractions Phase Fractions FieldsDot locdt)
    == tensor_total Nphases Fractions /\
  tensor_total Nphases
    (NewFractions Phase violation growth Fractions FieldsDot locdt)
    == tensor_total Nphases Fractions.
Proof.
  intro Hp. unfold CalculateNewFractions, NewFractions.
  revert Fractions. induction FieldsDot as [|it dot IH]; intro fr; cbn [fold_left].
  - split; reflexivity.
  - destruct (Hp it (or_introl eq_refl)) as [HA HB].
    assert (Hd : forall it, In it dot ->
              (N.to_nat (Phase (indexA it)) < Nphases)%nat /\
              (N.to_nat (Phase (indexB it)) < Nphases)%nat)
      by (intros; apply Hp; right; assumption).
    destruct (negb (N.eqb (Phase (indexA it)) (Phase (indexB it)))).
    + split.
      * rewrite (proj1 (IH Hd _)), tensor_total_sub, tensor_total_add by assumption.
        lra.
      * rewrite (proj2 (IH Hd _)), tensor_total_sub, tensor_total_add by assumption.
        lra.
    + split; [apply (proj1 (IH Hd _)) | apply (proj2 (IH Hd _))].
Qed.

End FractionsExact.

Lemma fractions_add_up_to_cell_total_witness :
  (forall it, In it (Fields (interface_cell [pf 5%N (6 # 10)%Q; pf 9%N (4 # 10)%Q])) ->
     (N.to_nat (N.modulo (index it) 2) < 2)%nat) /\
  (tensor_total 2 (CalculateFractions_cell (fun idx => N.modulo idx 2)
                     (interface_cell [pf 5%N (6 # 10)%Q; pf 9%N (4 # 10)%Q]))
   == sum_values [pf 5%N (6 # 10)%Q; pf 9%N (4 # 10)%Q])%Q.
Proof.
  assert (Hp : forall it,
            In it (Fields (interface_cell [pf 5%N (6 # 10)%Q; pf 9%N (4 # 10)%Q])) ->
            (N.to_nat (N.modulo (index it) 2) < 2)%nat).
  { intros it [Hi | [Hi | []]]; subst it; vm_compute; lia. }
  split; [exact Hp|].
  exact (fractions_add_up_to_cell_total (fun idx => N.modulo idx 2) 2
           (interface_cell [pf 5%N (6 # 10)%Q; pf 9%N (4 # 10)%Q]) Hp).
Defined.

Lemma new_fractions_keep_the_total_witness :
  (forall it, In it [ab 5%N 2%N (1 # 4)%Q 0%Q] ->
     (N.to_nat (N.modulo (indexA it) 2) < 2)%nat /\
     (N.to_nat (N.modulo (indexB it) 2) < 2)%nat) /\
  (tensor_total 2 (CalculateNewFractions (fun idx => N.modulo idx 2)
                     (fun p => if N.eqb p 0 then (4 # 10) else (6 # 10))%Q
                     [ab 5%N 2%N (1 # 4)%Q 0%Q] (1 # 2)%Q)
   == tensor_total 2 (fun p => if N.eqb p 0 then (4 # 10) else (6 # 10)))%Q.
Proof.
  assert (Hp : forall it, In it [ab 5%N 2%N (1 # 4)%Q 0%Q] ->
            (N.to_nat (N.modulo (indexA it) 2) < 2)%nat /\
            (N.to_nat (N.modulo (indexB it) 2) < 2)%nat).
  { intros it [Hi | []]; subst it; vm_compute; split; lia. }
  split; [exact Hp|].
  exact (proj1 (new_fractions_keep_the_total (fun idx => N.modulo idx 2) 2
                  no_violation no_damping
                  (fun p => if N.eqb p 0 then (4 # 10) else (6 # 10))%Q
                  [ab 5%N 2%N (1 # 4)%Q 0%Q] (1 # 2)%Q Hp)).
Defined.

Section PredictExact.
Local Open Scope Q_scope.

Variable Phase : N -> N.

Lemma frac_shift (l : list (PFEntry Q)) (fr : N -> Q) (p : N) :
  add_fractions Phase l fr p == fr p + add_fractions Phase l (fun _ => 0) p.
Proof.
  unfold add_fractions. revert fr.
  induction l as [|it l IH]; intro fr; cbn [fold_left].
  - lra.
  - rewrite (IH (tensor_add fr _ _)), (IH (tensor_add (fun _ => 0) _ _)).
    unfold tensor_add. destruct (N.eqb p (Phase (index it))); qsimp; lra.
Qed.

Lemma frac_add_value (l : list (PFEntry Q)) (idx : N) (v : Q) (p : N) :
  add_fractions Phase (add_value l idx v) (fun _ => 0) p
  == add_fractions Phase l (fun _ => 0) p + (if N.eqb p (Phase idx) then v else 0).
Proof.
  induction l as [|e l IH]; cbn [add_value].
  - unfold add_fractions. cbn [fold_left index value]. unfold tensor_add.
    destruct (N.eqb p (Phase idx)); qsimp; lra.
  - destruct (N.eqb_spec (index e) idx) as [E|E].
    + unfold add_fractions in *. cbn [fold_left index value].
      pose proof (frac_shift l (tensor_add (fun _ => 0) (Phase idx) (sadd (value e) v)) p) as H1.
      pose proof (frac_shift l (tensor_add (fun _ => 0) (Phase (index e)) (value e)) p) as H2.
      unfold add_fractions in H1, H2. rewrite H1, H2. rewrite E.
      unfold tensor_add. destruct (N.eqb p (Phase idx)); qsimp; lra.
    + unfold add_fractions in *. cbn [fold_left].
      pose proof (frac_shift (add_value l idx v)
                    (tensor_add (fun _ => 0) (Phase (index e)) (value e)) p) as H1.
      pose proof (frac_shift l (tensor_add (fun _ => 0) (Phase (index e)) (value e)) p) as H2.
      unfold add_fractions in H1, H2. rewrite H1, H2, IH. lra.
Qed.

Lemma CalculateFractions_add_value (fl : Z) (l : list (PFEntry Q)) (idx : N)
    (v : Q) (p : N) :
  CalculateFractions_cell Phase {| flag := fl; Fields := add_value l idx v |} p
  == CalculateFractions_cell Phase {| flag := fl; Fields := l |} p
     + (if N.eqb p (Phase idx) then v else 0).
Proof. apply frac_add_value. Qed.

Variable violation : N -> bool.
Variable growth : N -> N -> Q.

Lemma NewFractions_ext (dot : NodeAB Q) (dt : Q) (fr fr' : N -> Q) :
  (forall p, fr p == fr' p) ->
  forall p, NewFractions Phase violation growth fr dot dt p
            == NewFractions Phase violation growth fr' dot dt p.
Proof.
  unfold NewFractions. revert fr fr'.
  induction dot as [|it dot IH]; intros fr fr' He p; cbn [fold_left].
  - apply He.
  - apply IH. intro q.
    destruct (negb (N.eqb (Phase (indexA it)) (Phase (indexB it)))); [|apply He].
    unfold tensor_sub, tensor_add.
    destruct (N.eqb q (Phase (indexB it))), (N.eqb q (Phase (indexA it)));
      qsimp; rewrite (He q); reflexivity.
Qed.

(** X6: how [NewFractions] composes with the merge.  In exact arithmetic,
    for a cell on or next to an interface and a store whose records carry
    nothing in [value2] and move either nothing or at least [DBL_EPSILON],
    the fractions [NewFractions] predicts for the step are the fractions
    [CalculateFractions] finds after [MergeIncrementsSR] has applied the
    store. *)
Theorem NewFractions_predicts_the_merged_fractions
    (dt : Q) (clear : bool) (n : NodePF Q) (dot : NodeAB Q) :
  wide_interface n = true ->
  (forall psi, In psi dot ->
     value2 psi == 0 /\
     (value1 psi * dt == 0 \/ DBL_EPSILON <= Qabs (damping violation growth psi * value1 psi * dt))) ->
  forall p,
    CalculateFractions_cell Phase (fst (merge_cell violation growth dt clear n dot)) p
    == NewFractions Phase violation growth (CalculateFractions_cell Phase n) dot dt p.
Proof.
  intros W Hd p. unfold merge_cell. rewrite W. cbn [fst].
  unfold CalculateFractions_cell. cbn [Fields].
  generalize (Fields n) as fields. clear n W. revert p.
  induction dot as [|psi dot IH]; intros p fields.
  - reflexivity.
  - assert (Hd' : forall psi0, In psi0 dot ->
              value2 psi0 == 0 /\
              (value1 psi0 * dt == 0
               \/ DBL_EPSILON <= Qabs (damping violation growth psi0 * value1 psi0 * dt)))
      by (intros; apply Hd; right; assumption).
    specialize (IH Hd').
    change (merge_fields violation growth dt fields (psi :: dot))
      with (merge_fields violation growth dt
              (merge_record violation growth dt fields psi) dot).
    etransitivity; [apply IH|].
    change (NewFractions Phase violation growth (add_fractions Phase fields (fun _ => s0))
              (psi :: dot) dt p)
      with (NewFractions Phase violation growth
              (NewFractions Phase violation growth (add_fractions Phase fields (fun _ => s0))
                 [psi] dt) dot dt p).
    apply NewFractions_ext. intro q.
    unfold NewFractions. cbn [fold_left].
    destruct (Hd psi (or_introl eq_refl)) as [H2 Hx].
    unfold merge_record.
    change (if violation (indexA psi) && violation (indexB psi)
            then smul s1 (growth (indexA psi) (indexB psi)) else s1)
      with (damping violation growth psi).
    qsimp.
    assert (Hv : damping violation growth psi * (value1 psi + value2 psi) * dt
                 == damping violation growth psi * value1 psi * dt) by (rewrite H2; ring).
    destruct (Qle_bool (1 # 4503599627370496)
                (Qabs (damping violation growth psi * (value1 psi + value2 psi) * dt))) eqn:E.
    + pose proof (frac_add_value
                    (add_value fields (indexA psi)
                       (damping violation growth psi * (value1 psi + value2 psi) * dt))
                    (indexB psi)
                    (- (damping violation growth psi * (value1 psi + value2 psi) * dt)) q) as F1.
      pose proof (frac_add_value fields (indexA psi)
                    (damping violation growth psi * (value1 psi + value2 psi) * dt) q) as F2.
      qsimp. rewrite F1, F2.
      destruct (N.eqb_spec (Phase (indexA psi)) (Phase (indexB psi))) as [Ep|Ep];
        cbn [negb].
      * rewrite Ep. destruct (N.eqb q (Phase (indexB psi))); lra.
      * unfold tensor_sub, tensor_add.
        destruct (N.eqb q (Phase (indexB psi))), (N.eqb q (Phase (indexA psi)));
          qsimp; lra.
    + apply Qle_bool_false in E.
      assert (Hz : value1 psi * dt == 0).
      { destruct Hx as [Hx|Hx]; [exact Hx|]. exfalso. rewrite Hv in E. qsimp. lra. }
      assert (Hz' : damping violation growth psi * value1 psi * dt == 0)
        by (rewrite <- Qmult_assoc, Hz; ring).
      destruct (negb (N.eqb (Phase (indexA psi)) (Phase (indexB psi)))); [|reflexivity].
      unfold tensor_sub, tensor_add.
      destruct (N.eqb q (Phase (indexB psi))), (N.eqb q (Phase (indexA psi)));
        qsimp; lra.
Qed.

End PredictExact.

Lemma NewFractions_predicts_the_merged_fractions_witness :
  wide_interface (interface_cell [pf 5%N (6 # 10)%Q; pf 2%N (4 # 10)%Q]) = true /\
  (forall psi, In psi [ab 5%N 2%N (1 # 4)%Q 0%Q] ->
     value2 psi == 0 /\
     (value1 psi * (1 # 2) == 0
      \/ DBL_EPSILON <= Qabs (damping no_violation no_damping psi * value1 psi * (1 # 2))))%Q /\
  (CalculateFractions_cell (fun idx => N.modulo idx 2)
     (fst (merge_cell no_violation no_damping (1 # 2)%Q true
             (interface_cell [pf 5%N (6 # 10)%Q; pf 2%N (4 # 10)%Q])
             [ab 5%N 2%N (1 # 4)%Q 0%Q])) 1%N
   == NewFractions (fun idx => N.modulo idx 2) no_violation no_damping
        (CalculateFractions_cell (fun idx => N.modulo idx 2)
           (interface_cell [pf 5%N (6 # 10)%Q; pf 2%N (4 # 10)%Q]))
        [ab 5%N 2%N (1 # 4)%Q 0%Q] (1 # 2)%Q 1%N)%Q.
Proof.
  assert (Hd : forall psi, In psi [ab 5%N 2%N (1 # 4)%Q 0%Q] ->
     (value2 psi == 0 /\
      (value1 psi * (1 # 2) == 0
       \/ DBL_EPSILON <= Qabs (damping no_violation no_damping psi * value1 psi * (1 # 2))))%Q).
  { intros psi [Hi | []]; subst psi. split; [reflexivity|].
    right. apply Qle_bool_iff. vm_compute. reflexivity. }
  split; [reflexivity|]. split; [exact Hd|].
  exact (NewFractions_predicts_the_merged_fractions (fun idx => N.modulo idx 2)
           no_violation no_damping (1 # 2)%Q true
           (interface_cell [pf 5%N (6 # 10)%Q; pf 2%N (4 # 10)%Q])
           [ab 5%N 2%N (1 # 4)%Q 0%Q] eq_refl Hd 1%N).
Defined.

(** ** Interface weight and dominant entry of a cell *)

Section InterfacesExact.
Local Open Scope Q_scope.

Lemma inner_products (a : PFEntry Q) (r : list (PFEntry Q)) (s : Q) :
  fold_left (fun s beta => ssub s (smul (value a) (value beta))) r s
  == s - value a * sum_values r.
Proof.
  revert s. induction r as [|b r IH]; intro s; cbn [fold_left].
  - unfold sum_values. cbn [fold_left]. qsimp. lra.
  - rewrite IH, sum_values_cons. qsimp. lra.
Qed.

Lemma pair_products_cross (l : list (PFEntry Q)) (s : Q) :
  pair_products l s == s - cross_products l.
Proof.
  revert s. induction l as [|a r IH]; intro s; cbn [pair_products cross_products].
  - lra.
  - rewrite IH, inner_products. lra.
Qed.

Lemma square_of_sum (l : list (PFEntry Q)) :
  sum_values l * sum_values l == sum_squares l + 2 * cross_products l.
Proof.
  induction l as [|a r IH]; cbn [sum_squares fold_right cross_products].
  - unfold sum_values. cbn [fold_left]. qsimp. lra.
  - fold (sum_squares r). rewrite sum_values_cons. nra.
Qed.

Lemma sum_squares_nonneg (l : list (PFEntry Q)) : 0 <= sum_squares l.
Proof.
  induction l as [|a r IH]; cbn [sum_squares fold_right].
  - lra.
  - fold (sum_squares r). nra.
Qed.

Lemma sum_squares_le_sum (l : list (PFEntry Q)) :
  unit_values l -> sum_squares l <= sum_values l.
Proof.
  induction l as [|a r IH]; intro Hu; cbn [sum_squares fold_right].
  - unfold sum_values. cbn [fold_left]. qsimp. lra.
  - fold (sum_squares r). rewrite sum_values_cons.
    assert (Ha : 0 <= value a <= 1) by (apply Hu; left; reflexivity).
    assert (Hr : sum_squares r <= sum_values r)
      by (apply IH; intros x Hx; apply Hu; right; exact Hx).
    nra.
Qed.

(** X7: in exact arithmetic, for a cell whose values sum to 1,
    [Interfaces] returns the inverse of the sum of the squared values when
    the cell is on an interface (so at least 1 when the values lie in
    [[0,1]]), and 1 when it is not. *)
Theorem Interfaces_inverts_the_sum_of_squares (n : NodePF Q) :
  sum_values (Fields n) == 1 ->
  (interface n = true -> Interfaces n == 1 / sum_squares (Fields n)) /\
  (interface n = false -> Interfaces n == 1) /\
  (interface n = true -> unit_values (Fields n) -> 1 <= Interfaces n).
Proof.
  intro Hs. unfold Interfaces.
  pose proof (pair_products_cross (Fields n) (sdiv s1 (sofZ 2))) as Hp.
  pose proof (square_of_sum (Fields n)) as Hq.
  pose proof (sum_squares_nonneg (Fields n)) as Hn.
  rewrite Hs in Hq. qsimp.
  assert (Hpos : 0 < sum_squares (Fields n)).
  { destruct (Qlt_le_dec 0 (sum_squares (Fields n))) as [L|L]; [exact L|].
    exfalso. assert (Hz : sum_squares (Fields n) == 0) by lra.
    clear - Hs Hz. revert Hs Hz. generalize (Fields n) as l. intro l.
    assert (G : sum_squares l == 0 -> sum_values l == 0).
    { induction l as [|a r IH]; cbn [sum_squares fold_right].
      - intros _. reflexivity.
      - fold (sum_squares r). intro Hz. rewrite sum_values_cons.
        pose proof (sum_squares_nonneg r) as Hr.
        assert (Ha : value a * value a == 0) by nra.
        assert (Hr0 : sum_squares r == 0) by nra.
        rewrite (IH Hr0). assert (value a == 0) by nra. lra. }
    intros Hs Hz. rewrite (G Hz) in Hs. lra. }
  assert (Hv : (1 / inject_Z 2 - cross_products (Fields n)) * inject_Z 2
               == sum_squares (Fields n)).
  { change (inject_Z 2) with 2. field_simplify. lra. }
  split; [|split].
  - intro Hi. rewrite Hi, Hp, Hv. reflexivity.
  - intro Hi. rewrite Hi. change (inject_Z 2) with 2. field.
  - intros Hi Hu. rewrite Hi, Hp, Hv.
    pose proof (sum_squares_le_sum (Fields n) Hu) as Hle. rewrite Hs in Hle.
    apply Qle_shift_div_l; [exact Hpos|]. lra.
Qed.

End InterfacesExact.

Lemma Interfaces_inverts_the_sum_of_squares_witness :
  (sum_values (Fields (interface_cell [pf 5%N (6 # 10)%Q; pf 9%N (4 # 10)%Q])) == 1)%Q /\
  (Interfaces (interface_cell [pf 5%N (6 # 10)%Q; pf 9%N (4 # 10)%Q])
   == 1 / sum_squares [pf 5%N (6 # 10)%Q; pf 9%N (4 # 10)%Q])%Q.
Proof.
  assert (Hs : (sum_values (Fields (interface_cell
                  [pf 5%N (6 # 10)%Q; pf 9%N (4 # 10)%Q])) == 1)%Q) by reflexivity.
  split; [exact Hs|].
  exact (proj1 (Interfaces_inverts_the_sum_of_squares
                  (interface_cell [pf 5%N (6 # 10)%Q; pf 9%N (4 # 10)%Q]) Hs)
               eq_refl).
Defined.

Section LargestExact.
Local Open Scope Q_scope.

Lemma largest_entry_acc (prop : N -> Z) (l : list (PFEntry Q)) (st : Q * Z) :
  let r := fold_left
             (fun st alpha =>
                if sltb (fst st) (value alpha)
                then (value alpha, prop (index alpha)) else st) l st in
  fst st <= fst r /\
  (forall beta, In beta l -> value beta <= fst r) /\
  (r = st \/ exists alpha, In alpha l /\ fst r = value alpha
                           /\ snd r = prop (index alpha) /\ fst st < value alpha).
Proof.
  revert st. induction l as [|a l IH]; intro st; cbn [fold_left]; cbv zeta.
  - split; [lra|]. split; [intros ? []|]. left. reflexivity.
  - qsimp. destruct (Qlt_bool (fst st) (value a)) eqn:E.
    + apply Qlt_bool_iff in E.
      destruct (IH (value a, prop (index a))) as (I1 & I2 & I3). cbn [fst snd] in *.
      split; [lra|]. split.
      * intros beta [->|Hb]; [exact I1 | apply I2; exact Hb].
      * right. destruct I3 as [-> | (alpha & Hin & Hf & Hs & Hlt)].
        -- exists a. cbn [fst snd]. repeat split; try reflexivity; [left; reflexivity | exact E].
        -- exists alpha. repeat split; try assumption; [right; exact Hin | lra].
    + apply Qlt_bool_false in E.
      destruct (IH st) as (I1 & I2 & I3).
      split; [exact I1|]. split.
      * intros beta [->|Hb]; [lra | apply I2; exact Hb].
      * destruct I3 as [-> | (alpha & Hin & Hf & Hs & Hlt)]; [left; reflexivity|].
        right. exists alpha. repeat split; try assumption. right. exact Hin.
Qed.

Lemma int_of_unsigned_small (n : N) :
  (n < 2 ^ 31)%N -> int_of_unsigned n = Z.of_N n.
Proof.
  intro Hn. unfold int_of_unsigned.
  assert (Hz : (0 <= Z.of_N n < 2 ^ 31)%Z).
  { split; [apply N2Z.is_nonneg|].
    change (2 ^ 31)%Z with (Z.of_N (2 ^ 31)). apply N2Z.inj_lt. exact Hn. }
  rewrite Z.mod_small; lia.
Qed.

Lemma int_of_unsigned_range (n : N) :
  (- 2 ^ 31 <= int_of_unsigned n < 2 ^ 31)%Z.
Proof.
  unfold int_of_unsigned.
  pose proof (Z.mod_pos_bound (Z.of_N n + 2 ^ 31) (2 ^ 32) eq_refl). lia.
Qed.

(** X8: in exact arithmetic [Variants] and [ParentGrain] return 0 when
    no entry of the cell has a positive value, and otherwise the registry
    field, as the [int] the function keeps it in, of an entry whose value
    is positive and is the largest of the cell.  That [int] is the field
    itself when the field is below [2^31]; a larger field wraps modulo
    [2^32], so the result always lies in [[-2^31, 2^31)]. *)
Theorem Variants_reads_the_largest_entry (prop : N -> N) (n : NodePF Q) :
  ((forall beta, In beta (Fields n) -> value beta <= 0) /\
     Variants prop n = 0 /\ ParentGrain prop n = 0
   \/
   exists alpha,
     In alpha (Fields n) /\ 0 < value alpha /\
     (forall beta, In beta (Fields n) -> value beta <= value alpha) /\
     Variants prop n = inject_Z (int_of_unsigned (prop (index alpha))) /\
     ParentGrain prop n = inject_Z (int_of_unsigned (prop (index alpha))) /\
     ((prop (index alpha) < 2 ^ 31)%N ->
      Variants prop n = inject_Z (Z.of_N (prop (index alpha))))) /\
  (forall m : N, (m < 2 ^ 31)%N -> int_of_unsigned m = Z.of_N m) /\
  (forall m : N, (- 2 ^ 31 <= int_of_unsigned m < 2 ^ 31)%Z) /\
  int_of_unsigned 2147483653 = (-2147483643)%Z.
Proof.
  split; [|split; [exact int_of_unsigned_small
                  | split; [exact int_of_unsigned_range | reflexivity]]].
  unfold Variants, ParentGrain, largest_entry. qsimp.
  destruct (largest_entry_acc (fun i => int_of_unsigned (prop i)) (Fields n) (0, 0%Z))
    as (I1 & I2 & I3).
  cbv zeta in *. cbn [fst snd] in *. qsimp.
  destruct I3 as [E | (alpha & Hin & Hf & Hs & Hlt)].
  - left. rewrite E in *. cbn [fst snd] in *. repeat split; try reflexivity. exact I2.
  - right. exists alpha. rewrite Hs.
    split; [exact Hin|]. split; [exact Hlt|]. split.
    + intros beta Hb. rewrite <- Hf. apply I2. exact Hb.
    + split; [reflexivity|]. split; [reflexivity|].
      intro Hsmall. rewrite (int_of_unsigned_small _ Hsmall). reflexivity.
Qed.

End LargestExact.

(** ** Combining phase fields *)

Section AddValueSame.
Context {T : Type} `{Scalar T}.

Lemma get_add_value_same (l : list (PFEntry T)) (n : N) (v : T) :
  get_value (add_value l n v) n = sadd (get_value l n) v.
Proof.
  induction l as [|e l IH]; simpl.
  - rewrite N.eqb_refl. reflexivity.
  - destruct (N.eqb (index e) n) eqn:E; simpl.
    + rewrite N.eqb_refl. reflexivity.
    + rewrite E. exact IH.
Qed.

Lemma absorb_get_selected (sel : N -> bool) (l : list (PFEntry T)) (acc : T)
    (idx : N) :
  sel idx = true -> get_value (fst (absorb sel l acc)) idx = s0.
Proof.
  intro Hs. revert acc. induction l as [|it l IH]; intro acc; cbn [absorb].
  - reflexivity.
  - destruct (sel (index it)) eqn:E.
    + specialize (IH (sadd acc (value it))).
      destruct (absorb sel l (sadd acc (value it))) as [r a].
      cbn [fst get_value index value] in *.
      destruct (N.eqb (index it) idx); [reflexivity | exact IH].
    + specialize (IH acc). destruct (absorb sel l acc) as [r a].
      cbn [fst get_value] in *.
      destruct (N.eqb_spec (index it) idx); [congruence | exact IH].
Qed.

Lemma absorb_get_other (sel : N -> bool) (l : list (PFEntry T)) (acc : T)
    (idx : N) :
  sel idx = false -> get_value (fst (absorb sel l acc)) idx = get_value l idx.
Proof.
  intro Hs. revert acc. induction l as [|it l IH]; intro acc; cbn [absorb].
  - reflexivity.
  - destruct (sel (index it)) eqn:E.
    + specialize (IH (sadd acc (value it))).
      destruct (absorb sel l (sadd acc (value it))) as [r a].
      cbn [fst get_value index value] in *.
      destruct (N.eqb_spec (index it) idx); [congruence | exact IH].
    + specialize (IH acc). destruct (absorb sel l acc) as [r a].
      cbn [fst get_value] in *.
      destruct (N.eqb (index it) idx); [reflexivity | exact IH].
Qed.

Lemma absorb_nothing (sel : N -> bool) (l : list (PFEntry T)) (acc : T) :
  existsb (fun it => sel (index it)) l = false -> absorb sel l acc = (l, acc).
Proof.
  revert acc. induction l as [|it l IH]; intro acc; cbn [absorb existsb].
  - reflexivity.
  - intro Hx. apply orb_false_iff in Hx. destruct Hx as [Hx1 Hx2].
    rewrite Hx1, (IH acc Hx2). reflexivity.
Qed.

End AddValueSame.

Section CombineExact.
Local Open Scope Q_scope.

Lemma selected_total_shift (sel : N -> bool) (l : list (PFEntry Q)) (a : Q) :
  fold_left (fun a it => if sel (index it) then sadd a (value it) else a) l a
  == a + selected_total sel l.
Proof.
  unfold selected_total. revert a. induction l as [|it l IH]; intro a; cbn [fold_left].
  - qsimp. lra.
  - destruct (sel (index it)).
    + rewrite (IH (sadd a _)), (IH (sadd s0 _)). qsimp. lra.
    + apply IH.
Qed.

Lemma selected_total_cons (sel : N -> bool) (it : PFEntry Q) (l : list (PFEntry Q)) :
  selected_total sel (it :: l)
  == (if sel (index it) then value it else 0) + selected_total sel l.
Proof.
  unfold selected_total at 1. cbn [fold_left].
  rewrite selected_total_shift. destruct (sel (index it)); qsimp; lra.
Qed.

Lemma absorb_spec (sel : N -> bool) (l : list (PFEntry Q)) (acc : Q) :
  snd (absorb sel l acc) == acc + selected_total sel l /\
  sum_values (fst (absorb sel l acc)) == sum_values l - selected_total sel l.
Proof.
  revert acc. induction l as [|it l IH]; intro acc; cbn [absorb].
  - cbn [fst snd]. unfold selected_total, sum_values. cbn [fold_left]. qsimp.
    split; lra.
  - rewrite selected_total_cons. destruct (sel (index it)).
    + destruct (IH (sadd acc (value it))) as [I1 I2].
      destruct (absorb sel l (sadd acc (value it))) as [r a].
      cbn [fst snd] in *. rewrite !sum_values_cons. cbn [value]. qsimp.
      split; lra.
    + destruct (IH acc) as [I1 I2]. destruct (absorb sel l acc) as [r a].
      cbn [fst snd] in *. rewrite !sum_values_cons. split; lra.
Qed.

Lemma selected_total_single (S : N) (l : list (PFEntry Q)) :
  NoDup (map index l) ->
  selected_total (fun idx => N.eqb idx S) l == get_value l S.
Proof.
  induction l as [|it l IH]; intro Hnd.
  - reflexivity.
  - rewrite selected_total_cons. cbn [get_value map] in *.
    inversion Hnd as [|x xs Hnin Hnd']; subst.
    destruct (N.eqb_spec (index it) S) as [E|E].
    + assert (Hz : selected_total (fun idx => N.eqb idx S) l == 0).
      { clear - Hnin E. subst S. induction l as [|b l IH]; [reflexivity|].
        rewrite selected_total_cons. cbn [map] in Hnin.
        destruct (N.eqb_spec (index b) (index it)) as [E|E].
        - exfalso. apply Hnin. left. exact E.
        - rewrite IH; [lra|]. intro Hin. apply Hnin. right. exact Hin. }
      lra.
    + rewrite (IH Hnd'). lra.
Qed.

(** X9: the cell loop of [CombinePhaseFields], in exact arithmetic.  The
    stable fields of the phase other than the majority field end at value
    0, every other field but the majority keeps its value, and the
    majority field receives their total provided that total exceeds
    [DBL_EPSILON]; a total of at most [DBL_EPSILON] is dropped, and the
    cell's sum falls by it. *)
Theorem CombinePhaseFields_moves_the_minorities
    (Phase : N -> N) (StageOf : N -> GrainStages) (p Maj : N)
    (fields : list (PFEntry Q)) :
  let minority := fun idx =>
    N.eqb (Phase idx) p
    && match StageOf idx with Stable => true | _ => false end
    && negb (N.eqb idx Maj) in
  let moved := selected_total minority fields in
  let r := CombinePhaseFields_cell Phase StageOf p Maj fields in
  (forall idx, minority idx = true -> get_value r idx == 0) /\
  (forall idx, minority idx = false -> idx <> Maj ->
     get_value r idx == get_value fields idx) /\
  (DBL_EPSILON < moved ->
     get_value r Maj == get_value fields Maj + moved /\
     sum_values r == sum_values fields) /\
  (moved <= DBL_EPSILON ->
     get_value r Maj == get_value fields Maj /\
     sum_values r == sum_values fields - moved).
Proof.
  cbv zeta. unfold CombinePhaseFields_cell.
  set (minority := fun idx => N.eqb (Phase idx) p
    && match StageOf idx with Stable => true | _ => false end
    && negb (N.eqb idx Maj)).
  assert (HM : minority Maj = false).
  { unfold minority. rewrite N.eqb_refl. cbn [negb]. apply andb_false_r. }
  pose proof (absorb_spec minority fields s0) as [A1 A2].
  pose proof (fun idx => absorb_get_selected minority fields s0 idx) as G1.
  pose proof (fun idx => absorb_get_other minority fields s0 idx) as G2.
  destruct (absorb minority fields s0) as [r a]. cbn [fst snd] in *.
  qsimp. split; [|split; [|split]].
  - intros idx Hm. change (minority idx = true) in Hm.
    assert (Hne : Maj <> idx) by (intro E; rewrite E in HM; congruence).
    destruct (Qlt_bool _ a); [rewrite get_add_value_other by exact Hne|];
      rewrite (G1 idx Hm); reflexivity.
  - intros idx Hm Hne. change (minority idx = false) in Hm.
    destruct (Qlt_bool _ a); [rewrite get_add_value_other by congruence|];
      rewrite (G2 idx Hm); reflexivity.
  - intro Hlt. assert (Ha : Qlt_bool (1 # 4503599627370496) a = true)
      by (apply Qlt_bool_iff; lra).
    rewrite Ha. rewrite get_add_value_same, sum_add_value, (G2 Maj HM). qsimp.
    split; lra.
  - intro Hle. assert (Ha : Qlt_bool (1 # 4503599627370496) a = false)
      by (apply Qlt_bool_false; lra).
    rewrite Ha, (G2 Maj HM). split; [reflexivity | lra].
Qed.

(** X11: the cell loop of [SelectiveCombinePhaseFieldsSR], in exact
    arithmetic, keeps the sum of the cell and the value of every field
    other than source and target; in a cell without repeated indices the
    source ends at 0 and the target at the sum of the two, and a cell
    whose source value is 0 keeps all its values. *)
Theorem SelectiveCombine_moves_source_into_target (Tgt Src : N)
    (fields : list (PFEntry Q)) :
  let r := SelectiveCombine_cell Tgt Src fields in
  sum_values r == sum_values fields /\
  (forall idx, idx <> Tgt -> idx <> Src -> get_value r idx == get_value fields idx) /\
  (Tgt <> Src -> NoDup (map index fields) ->
     get_value r Src == 0 /\
     get_value r Tgt == get_value fields Tgt + get_value fields Src) /\
  (get_value fields Src == 0 -> NoDup (map index fields) ->
     forall idx, get_value r idx == get_value fields idx).
Proof.
  cbv zeta. unfold SelectiveCombine_cell.
  set (sel := fun idx => N.eqb idx Src).
  assert (HS : sel Src = true) by (unfold sel; apply N.eqb_refl).
  pose proof (absorb_spec sel fields s0) as [A1 A2].
  pose proof (fun idx => absorb_get_selected sel fields s0 idx) as G1.
  pose proof (fun idx => absorb_get_other sel fields s0 idx) as G2.
  pose proof (absorb_nothing sel fields s0) as G3.
  change (fun it : PFEntry Q => N.eqb (index it) Src)
    with (fun it : PFEntry Q => sel (index it)).
  destruct (existsb (fun it => sel (index it)) fields) eqn:Ex.
  - clear G3. destruct (absorb sel fields s0) as [r a]. cbn [fst snd] in *. qsimp.
    split; [|split; [|split]].
    + rewrite sum_add_value. lra.
    + intros idx H1 H2. rewrite get_add_value_other by congruence.
      rewrite G2; [reflexivity|]. unfold sel. apply N.eqb_neq. exact H2.
    + intros Hne Hnd. rewrite get_add_value_other by exact Hne.
      rewrite get_add_value_same, (G1 Src HS), G2
        by (unfold sel; apply N.eqb_neq; exact Hne).
      pose proof (selected_total_single Src fields Hnd) as Hst.
      change (selected_total (fun idx => N.eqb idx Src) fields)
        with (selected_total sel fields) in Hst. qsimp.
      split; [reflexivity | lra].
    + intros Hz Hnd idx.
      pose proof (selected_total_single Src fields Hnd) as Hst.
      change (selected_total (fun idx => N.eqb idx Src) fields)
        with (selected_total sel fields) in Hst.
      destruct (N.eq_dec idx Tgt) as [->|Hne].
      * rewrite get_add_value_same. qsimp.
        destruct (N.eq_dec Tgt Src) as [->|Hts].
        -- rewrite (G1 Src HS). lra.
        -- rewrite G2 by (unfold sel; apply N.eqb_neq; exact Hts). lra.
      * rewrite get_add_value_other by congruence.
        destruct (N.eq_dec idx Src) as [->|Hs].
        -- rewrite (G1 Src HS). lra.
        -- rewrite G2 by (unfold sel; apply N.eqb_neq; exact Hs). reflexivity.
  - rewrite (G3 eq_refl).
    assert (Hz : get_value fields Src = 0).
    { clear - Ex. induction fields as [|it l IH]; [reflexivity|].
      cbn [existsb get_value] in *. apply orb_false_iff in Ex. destruct Ex as [E1 E2].
      unfold sel in E1. rewrite E1. apply IH. exact E2. }
    split; [reflexivity|]. split; [intros; reflexivity|]. split.
    + intros _ _. rewrite Hz. split; [reflexivity | lra].
    + intros _ _ idx. reflexivity.
Qed.

End CombineExact.

(** ** The majority field, the registry and the time step *)

Section MajorityExact.
Local Open Scope Q_scope.

Lemma majority_fold (Phase : N -> N) (p : N)
    (L : list (nat * GrainInfo Q)) (m : Majority) :
  let r := fold_left (majority_step Phase p) L m in
  MajorityVolume m <= MajorityVolume r /\
  (forall ng, In ng L -> candidate Phase p ng = true ->
     Volume (snd ng) <= MajorityVolume r) /\
  Nfields r = (Nfields m + Z.of_nat (length (filter (candidate Phase p) L)))%Z /\
  ((MajorityIndex r = MajorityIndex m /\ MajorityVolume r = MajorityVolume m
    /\ MajorityFound r = MajorityFound m)
   \/ exists ng, In ng L /\ candidate Phase p ng = true
                 /\ MajorityIndex r = N.of_nat (fst ng)
                 /\ MajorityVolume r = Volume (snd ng)
                 /\ MajorityFound r = true
                 /\ MajorityVolume m < Volume (snd ng)).
Proof.
  revert m. induction L as [|ng L IH]; intro m; cbn [fold_left filter]; cbv zeta.
  - split; [lra|]. split; [intros ? []|]. split; [cbn; lia|]. left. repeat split.
  - destruct (candidate Phase p ng) eqn:C.
    + destruct (Qlt_bool (MajorityVolume m) (Volume (snd ng))) eqn:E.
      * assert (Hstep : majority_step Phase p m ng
                 = {| MajorityIndex := N.of_nat (fst ng);
                      MajorityVolume := Volume (snd ng);
                      MajorityFound := true;
                      Nfields := (Nfields m + 1)%Z |}).
        { unfold majority_step. rewrite C. qsimp. rewrite E. reflexivity. }
        rewrite Hstep. apply Qlt_bool_iff in E.
        match goal with |- context [fold_left _ L ?m'] =>
          destruct (IH m') as (I1 & I2 & I3 & I4) end.
        cbn [MajorityIndex MajorityVolume MajorityFound Nfields] in *.
        split; [lra|]. split; [|split].
        -- intros x [Hx|Hx] Hc; [subst x; exact I1 | apply I2; assumption].
        -- rewrite I3. cbn [length]. lia.
        -- right. destruct I4 as [(J1 & J2 & J3) | (x & Hx & Hc & J1 & J2 & J3 & J4)].
           ++ exists ng. repeat split; try assumption. left. reflexivity.
           ++ exists x. repeat split; try assumption; [right; exact Hx | lra].
      * assert (Hstep : majority_step Phase p m ng
                 = {| MajorityIndex := MajorityIndex m;
                      MajorityVolume := MajorityVolume m;
                      MajorityFound := MajorityFound m;
                      Nfields := (Nfields m + 1)%Z |}).
        { unfold majority_step. rewrite C. qsimp. rewrite E. reflexivity. }
        rewrite Hstep. apply Qlt_bool_false in E.
        match goal with |- context [fold_left _ L ?m'] =>
          destruct (IH m') as (I1 & I2 & I3 & I4) end.
        cbn [MajorityIndex MajorityVolume MajorityFound Nfields] in *.
        split; [exact I1|]. split; [|split].
        -- intros x [Hx|Hx] Hc; [subst x; lra | apply I2; assumption].
        -- rewrite I3. cbn [length]. lia.
        -- destruct I4 as [(J1 & J2 & J3) | (x & Hx & Hc & J1 & J2 & J3 & J4)].
           ++ left. repeat split; assumption.
           ++ right. exists x. repeat split; try assumption. right. exact Hx.
    + assert (Hstep : majority_step Phase p m ng = m)
        by (unfold majority_step; rewrite C; reflexivity).
      rewrite Hstep.
      destruct (IH m) as (I1 & I2 & I3 & I4).
      split; [exact I1|]. split; [|split].
      * intros x [Hx|Hx] Hc; [subst x; congruence | apply I2; assumption].
      * exact I3.
      * destruct I4 as [J | (x & Hx & Hc & J1 & J2 & J3 & J4)]; [left; exact J|].
        right. exists x. repeat split; try assumption. right. exact Hx.
Qed.

Lemma in_enumerate {A : Type} (l : list A) (n : nat) (x : A) :
  In (n, x) (combine (seq 0 (length l)) l) <-> nth_error l n = Some x.
Proof.
  split.
  - intro Hin. apply In_nth_error in Hin. destruct Hin as [i Hi].
    rewrite nth_error_enumerate in Hi.
    destruct (nth_error l i) eqn:E; [|discriminate].
    cbn in Hi. inversion Hi; subst. exact E.
  - intro Hn. apply (nth_error_In _ n). rewrite nth_error_enumerate, Hn. reflexivity.
Qed.

(** X10: the majority search of [CombinePhaseFields], in exact
    arithmetic.  [Nfields] counts the existing stable fields of the phase;
    when a majority is found it is one of them, its volume is positive and
    no other of them has a larger volume; none is found exactly when all of
    them have a volume of at most 0. *)
Theorem CombinePhaseFields_majority (Phase : N -> N) (p : N)
    (FieldsProperties : list (GrainInfo Q)) :
  let m := find_majority Phase p FieldsProperties in
  let candidates :=
    filter (candidate Phase p)
           (combine (seq 0 (length FieldsProperties)) FieldsProperties) in
  Nfields m = Z.of_nat (length candidates) /\
  (MajorityFound m = true ->
     exists g,
       nth_error FieldsProperties (N.to_nat (MajorityIndex m)) = Some g /\
       candidate Phase p (N.to_nat (MajorityIndex m), g) = true /\
       0 < Volume g /\
       forall ng, In ng candidates -> Volume (snd ng) <= Volume g) /\
  (MajorityFound m = false ->
     MajorityIndex m = 0%N /\
     forall ng, In ng candidates -> Volume (snd ng) <= 0).
Proof.
  cbv zeta. unfold find_majority.
  match goal with |- context [fold_left _ ?L ?m0] =>
    destruct (majority_fold Phase p L m0) as (I1 & I2 & I3 & I4) end.
  cbv zeta in *. cbn [MajorityIndex MajorityVolume MajorityFound Nfields] in *.
  qsimp. split; [rewrite I3; lia|]. split.
  - intro Hf.
    destruct I4 as [(J1 & J2 & J3) | (ng & Hx & Hc & J1 & J2 & J3 & J4)]; [congruence|].
    destruct ng as [n g]. cbn [fst snd] in *.
    exists g. rewrite J1, Nat2N.id. split; [apply in_enumerate; exact Hx|].
    split; [exact Hc|]. split; [exact J4|].
    intros x Hin. apply filter_In in Hin. destruct Hin as [Hin Hcx].
    rewrite <- J2. apply I2; assumption.
  - intro Hf.
    destruct I4 as [(J1 & J2 & J3) | (ng & Hx & Hc & J1 & J2 & J3 & J4)]; [|congruence].
    split; [exact J1|].
    intros x Hin. apply filter_In in Hin. destruct Hin as [Hin Hcx].
    rewrite <- J2. apply I2; assumption.
Qed.

End MajorityExact.

Section RegistryInvariant.
Local Open Scope Q_scope.

(** X12: in exact arithmetic [CalculateGrainsVolume] keeps the length of
    the registry, and after it an entry exists exactly when its volume is
    positive; an existing entry has a volume ratio of at most 1 and is
    never left in the stage [Seed]. *)
Theorem registry_after_recomputation (cells : list (NodePF Q))
    (props : list (GrainInfo Q)) :
  length (CalculateGrainsVolume cells props) = length props /\
  forall g', In g' (CalculateGrainsVolume cells props) ->
    (Exist g' = true <-> 0 < Volume g') /\
    (Exist g' = true -> VolumeRatio g' <= 1) /\
    (Exist g' = true -> Stage g' <> Seed).
Proof.
  split.
  - unfold CalculateGrainsVolume. rewrite length_map, length_combine, length_seq. lia.
  - intros g' Hin. unfold CalculateGrainsVolume in Hin.
    apply in_map_iff in Hin. destruct Hin as ([i g] & <- & _).
    unfold recompute, update_statistics, set_ratio, set_volume.
    cbn [fst snd Exist Stage Volume MAXVolume RefVolume VolumeRatio]. qsimp.
    set (V := 0 + grid_volume cells (N.of_nat i)).
    destruct (Exist g) eqn:Ex; cbn [andb].
    + destruct (Qle_bool V 0) eqn:E1.
      * apply Qle_bool_iff in E1. cbn [Exist Volume VolumeRatio Stage].
        repeat split; intros; try discriminate; lra.
      * apply Qle_bool_false in E1.
        assert (E2 : Qlt_bool 0 V = true) by (apply Qlt_bool_iff; exact E1).
        rewrite E2.
        destruct (Qlt_bool 1 _) eqn:E3; cbn [Exist Volume VolumeRatio Stage].
        -- repeat split; intros; try reflexivity; try assumption; try lra.
           discriminate.
        -- apply Qlt_bool_false in E3.
           repeat split; intros; try reflexivity; try assumption.
           destruct (Stage g); discriminate.
    + destruct (Qlt_bool 0 V) eqn:E2.
      * apply Qlt_bool_iff in E2.
        destruct (Qlt_bool 1 _) eqn:E3; cbn [Exist Volume VolumeRatio Stage].
        -- repeat split; intros; try reflexivity; try assumption; try lra.
           discriminate.
        -- apply Qlt_bool_false in E3.
           repeat split; intros; try reflexivity; try assumption.
           destruct (Stage g); discriminate.
      * apply Qlt_bool_false in E2. cbn [Exist Volume VolumeRatio Stage].
        repeat split; intros; try discriminate.
        match goal with Hv : 0 < _ |- _ => fold V in Hv end. lra.
Qed.

End RegistryInvariant.

Section TimeStepBound.
Local Open Scope Q_scope.

(** X13: in exact arithmetic, when the recorded maximum increment
    [maxPsi] exceeds [DBL_EPSILON], the step [MaxTimeStep] returns is at
    most the theoretical limit and moves no phase field by more than
    [NumerLimit] (step times [maxPsi]). *)
Theorem MaxTimeStep_bounds_the_increment
    (maxPsi ReportMaximumTimeStep TheorLimit NumerLimit : Q) :
  DBL_EPSILON < maxPsi ->
  let dt := MaxTimeStep maxPsi ReportMaximumTimeStep TheorLimit NumerLimit in
  dt <= TheorLimit * ReportMaximumTimeStep /\
  dt * maxPsi <= NumerLimit.
Proof.
  intro Hpsi. cbv zeta. unfold MaxTimeStep, std_min. qsimp.
  assert (E : Qlt_bool (1 # 4503599627370496) maxPsi = true)
    by (apply Qlt_bool_iff; exact Hpsi).
  rewrite E.
  assert (Hp : 0 < maxPsi) by lra.
  assert (Hq : NumerLimit / maxPsi * maxPsi == NumerLimit) by (field; lra).
  destruct (Qlt_bool (NumerLimit / maxPsi) (TheorLimit * ReportMaximumTimeStep)) eqn:E2.
  - apply Qlt_bool_iff in E2. split; lra.
  - apply Qlt_bool_false in E2. split; [lra|]. nra.
Qed.

End TimeStepBound.

Lemma MaxTimeStep_bounds_the_increment_witness :
  (DBL_EPSILON < 2)%Q /\
  (MaxTimeStep 2 (1 # 4) 1 (1 # 1000) <= 1 * (1 # 4) /\
   MaxTimeStep 2 (1 # 4) 1 (1 # 1000) * 2 <= (1 # 1000))%Q.
Proof.
  assert (Hp : (DBL_EPSILON < 2)%Q) by reflexivity.
  split; [exact Hp|].
  exact (MaxTimeStep_bounds_the_increment 2%Q (1 # 4)%Q 1%Q (1 # 1000)%Q Hp).
Defined.

(** ** The temperature prescribed from a table *)

Section ProfileExact.
Local Open Scope Q_scope.

Lemma profile_scan_within (time : Q) (rest : list (Q * Q)) :
  forall prev dflt,
    fst prev <= time ->
    (exists e, In e rest /\ time < fst e) ->
    within_table (prev :: rest) (profile_scan time prev rest dflt).
Proof.
  induction rest as [|cur rest IH]; intros prev dflt Hp (e & He & Hlt).
  - destruct He.
  - cbn [profile_scan]. qsimp.
    destruct (Qle_bool (fst prev) time && Qlt_bool time (fst cur)) eqn:E.
    + apply andb_true_iff in E. destruct E as [E1 E2].
      apply Qle_bool_iff in E1. apply Qlt_bool_iff in E2.
      destruct (Qlt_bool (1 # 4503599627370496) (fst cur - fst prev)) eqn:E3.
      * set (range := fst cur - fst prev).
        assert (Hr : 0 < range) by (unfold range; lra).
        set (lam := (time - fst prev) / range).
        assert (Hl : 0 <= lam < 1).
        { unfold lam. split.
          - apply Qle_shift_div_l; [exact Hr|]. lra.
          - apply Qlt_shift_div_r; [exact Hr|]. unfold range. lra. }
        assert (Hv : snd prev + (time - fst prev) * (snd cur - snd prev) / range
                     == snd prev + lam * (snd cur - snd prev)).
        { unfold lam. field. lra. }
        destruct (Qlt_le_dec (snd prev) (snd cur)) as [L|L].
        -- exists prev, cur. split; [left; reflexivity|].
           split; [right; left; reflexivity|]. rewrite Hv. nra.
        -- exists cur, prev. split; [right; left; reflexivity|].
           split; [left; reflexivity|]. rewrite Hv. nra.
      * exists prev, prev. split; [left; reflexivity|].
        split; [left; reflexivity|]. lra.
    + assert (Hc : fst cur <= time).
      { apply andb_false_iff in E. destruct E as [E|E].
        - apply Qle_bool_false in E. lra.
        - apply Qlt_bool_false in E. exact E. }
      destruct (IH cur dflt Hc) as (e1 & e2 & H1 & H2 & Hb).
      * destruct He as [He|He]; [subst e; lra|]. exists e. split; assumption.
      * exists e1, e2. split; [right; exact H1|]. split; [right; exact H2|]. exact Hb.
Qed.

Lemma last_in {A : Type} (l : list A) (d : A) : In (last l d) (d :: l).
Proof.
  revert d. induction l as [|x l IH]; intro d.
  - left. reflexivity.
  - right. destruct l as [|y l]; [left; reflexivity|].
    change (last (x :: y :: l) d) with (last (y :: l) d).
    specialize (IH x).
    replace (last (y :: l) d) with (last (y :: l) x); [exact IH|].
    clear. revert y. induction l as [|z l IH]; intro y; [reflexivity|].
    change (last (y :: z :: l) x) with (last (z :: l) x).
    change (last (y :: z :: l) d) with (last (z :: l) d). apply IH.
Qed.

(** X14: in exact arithmetic, for every table that is not empty (sorted
    or not) and every time, the temperature [Temperature::Set] takes from
    the table lies between two of its temperatures, so the fall-back
    value 293 is never used; at or before the first time it is the first
    temperature, and after the first time and at or after the last time
    it is the last temperature. *)
Theorem prescribed_temperature_within_table (profile : list (Q * Q)) (time : Q) :
  profile <> [] ->
  exists v,
    TemperatureInput profile time = Some v /\
    within_table profile v /\
    (time <= fst (hd (0, 0) profile) -> v = snd (hd (0, 0) profile)) /\
    (fst (hd (0, 0) profile) < time -> fst (last profile (0, 0)) <= time ->
       v = snd (last profile (0, 0))).
Proof.
  intro Hne. destruct profile as [|first rest]; [congruence|]. clear Hne.
  destruct rest as [|second rest].
  - exists (snd first). cbn [TemperatureInput hd last].
    split; [reflexivity|]. split.
    + exists first, first. repeat split; try (left; reflexivity); lra.
    + split; intros; reflexivity.
  - unfold TemperatureInput. qsimp. cbn [hd].
    set (rest' := second :: rest).
    assert (Hlast : last (first :: rest') (0, 0) = last rest' first).
    { unfold rest'. clear. revert first second.
      induction rest as [|x rest IH]; intros first second; [reflexivity|].
      change (last (first :: second :: x :: rest) (0, 0))
        with (last (second :: x :: rest) (0, 0)).
      change (last (second :: x :: rest) first) with (last (x :: rest) first).
      rewrite (IH second x).
      clear. revert x. induction rest as [|y rest IH]; intro x; [reflexivity|].
      change (last (x :: y :: rest) second) with (last (y :: rest) second).
      change (last (x :: y :: rest) first) with (last (y :: rest) first). apply IH. }
    rewrite Hlast.
    pose proof (last_in rest' first) as Hin.
    destruct (Qle_bool time (fst first)) eqn:E1.
    + apply Qle_bool_iff in E1. exists (snd first).
      split; [reflexivity|]. split.
      * exists first, first. repeat split; try (left; reflexivity); lra.
      * split; [reflexivity|]. intros Hf Hl. lra.
    + apply Qle_bool_false in E1.
      destruct (Qle_bool (fst (last rest' first)) time) eqn:E2.
      * exists (snd (last rest' first)). split; [reflexivity|]. split.
        -- exists (last rest' first), (last rest' first).
           repeat split; try exact Hin; lra.
        -- split; [intro; lra | intros; reflexivity].
      * apply Qle_bool_false in E2.
        exists (profile_scan time first rest' (inject_Z 293)).
        split; [reflexivity|]. split.
        -- apply profile_scan_within; [lra|].
           exists (last rest' first). split; [|exact E2].
           destruct Hin as [Hin|Hin]; [|exact Hin]. rewrite <- Hin in E2. lra.
        -- split; intros; lra.
Qed.

End ProfileExact.

Lemma prescribed_temperature_within_table_witness :
  [(0, 1050); (1000, 900)]%Q <> [] /\
  exists v,
    TemperatureInput [(0, 1050); (1000, 900)]%Q 500%Q = Some v /\
    within_table [(0, 1050); (1000, 900)]%Q v.
Proof.
  assert (Hne : [(0, 1050); (1000, 900)]%Q <> []) by discriminate.
  split; [exact Hne|].
  destruct (prescribed_temperature_within_table
              [(0, 1050); (1000, 900)]%Q 500%Q Hne) as (v & Hv & Hw & _).
  exists v. split; [exact Hv | exact Hw].
Defined.

Section KnotExact.
Local Open Scope Q_scope.

Lemma profile_scan_knot (e : Q * Q) (rest : list (Q * Q)) :
  forall prev dflt,
    StronglySorted earlier (prev :: rest) ->
    In e (prev :: rest) ->
    (exists e', In e' rest /\ fst e < fst e') ->
    profile_scan (fst e) prev rest dflt == snd e.
Proof.
  induction rest as [|cur rest IH]; intros prev dflt Hs Hin (e' & He' & Hlt).
  - destruct He'.
  - cbn [profile_scan]. qsimp.
    apply StronglySorted_inv in Hs. destruct Hs as [Hs Hall].
    rewrite Forall_forall in Hall.
    destruct Hin as [Hin|Hin].
    + subst e.
      assert (E1 : Qle_bool (fst prev) (fst prev) = true) by (apply Qle_bool_iff; lra).
      assert (E2 : Qlt_bool (fst prev) (fst cur) = true).
      { apply Qlt_bool_iff. apply (Hall cur). left. reflexivity. }
      rewrite E1, E2. cbn [andb].
      destruct (Qlt_bool _ (fst cur - fst prev)) eqn:E3; [|reflexivity].
      apply Qlt_bool_iff in E3.
      field. lra.
    + assert (Hc : fst cur <= fst e).
      { destruct Hin as [Hin|Hin]; [subst e; lra|].
        apply StronglySorted_inv in Hs. destruct Hs as [_ Hall'].
        rewrite Forall_forall in Hall'. specialize (Hall' e Hin).
        unfold earlier in Hall'. lra. }
      assert (E2 : Qlt_bool (fst e) (fst cur) = false) by (apply Qlt_bool_false; exact Hc).
      rewrite E2, andb_false_r.
      apply IH; [exact Hs | exact Hin|].
      destruct He' as [He'|He']; [subst e'; lra|]. exists e'. split; assumption.
Qed.

Lemma sorted_last_latest (l : list (Q * Q)) (d e : Q * Q) :
  StronglySorted earlier l -> In e l ->
  e = last l d \/ fst e < fst (last l d).
Proof.
  induction l as [|x l IH]; intros Hs Hin; [destruct Hin|].
  apply StronglySorted_inv in Hs. destruct Hs as [Hs Hall].
  rewrite Forall_forall in Hall.
  destruct l as [|y l].
  - destruct Hin as [Hin|[]]. left. subst. reflexivity.
  - change (last (x :: y :: l) d) with (last (y :: l) d).
    destruct Hin as [Hin|Hin].
    + subst e. right.
      assert (Hl : In (last (y :: l) d) (y :: l)).
      { clear. revert y. induction l as [|z l IH]; intro y; [left; reflexivity|].
        change (last (y :: z :: l) d) with (last (z :: l) d). right. apply IH. }
      apply (Hall _ Hl).
    + apply IH; assumption.
Qed.

(** X15: in exact arithmetic, for a table whose times increase strictly,
    the temperature [Temperature::Set] takes at the time of a table entry
    is the temperature of that entry. *)
Theorem prescribed_temperature_at_a_knot (profile : list (Q * Q)) (e : Q * Q) :
  StronglySorted earlier profile ->
  In e profile ->
  exists v, TemperatureInput profile (fst e) = Some v /\ v == snd e.
Proof.
  intros Hs Hin. destruct profile as [|first rest]; [destruct Hin|].
  destruct rest as [|second rest].
  - destruct Hin as [Hin|[]]. subst e. exists (snd first). split; reflexivity.
  - unfold TemperatureInput. qsimp. set (rest' := second :: rest) in *.
    destruct (Qle_bool (fst e) (fst first)) eqn:E1.
    + apply Qle_bool_iff in E1. exists (snd first). split; [reflexivity|].
      destruct Hin as [Hin|Hin]; [subst e; reflexivity|].
      apply StronglySorted_inv in Hs. destruct Hs as [_ Hall].
      rewrite Forall_forall in Hall. specialize (Hall e Hin). unfold earlier in Hall. lra.
    + apply Qle_bool_false in E1.
      assert (Hin' : In e rest').
      { destruct Hin as [Hin|Hin]; [subst e; lra | exact Hin]. }
      pose proof Hs as Hs0.
      apply StronglySorted_inv in Hs. destruct Hs as [Hs' _].
      destruct (sorted_last_latest rest' first e Hs' Hin') as [El|El].
      * rewrite <- El.
        assert (E2 : Qle_bool (fst e) (fst e) = true) by (apply Qle_bool_iff; lra).
        rewrite E2. exists (snd e). split; reflexivity.
      * assert (E2 : Qle_bool (fst (last rest' first)) (fst e) = false).
        { destruct (Qle_bool (fst (last rest' first)) (fst e)) eqn:E;
            [apply Qle_bool_iff in E; lra | reflexivity]. }
        rewrite E2. eexists. split; [reflexivity|].
        apply profile_scan_knot; [exact Hs0 | exact Hin|].
        exists (last rest' first). split; [|exact El].
        unfold rest'. clear. revert second.
        induction rest as [|z l IH]; intro y; [left; reflexivity|].
        change (last (y :: z :: l) first) with (last (z :: l) first). right. apply IH.
Qed.

End KnotExact.

Lemma prescribed_temperature_at_a_knot_witness :
  StronglySorted earlier [(0, 1050); (1000, 900); (100000, 293)]%Q /\
  In (1000, 900)%Q [(0, 1050); (1000, 900); (100000, 293)]%Q /\
  exists v,
    TemperatureInput [(0, 1050); (1000, 900); (100000, 293)]%Q
                     (fst (1000, 900)%Q) = Some v /\
    (v == snd (1000, 900)%Q)%Q.
Proof.
  assert (Hs : StronglySorted earlier [(0, 1050); (1000, 900); (100000, 293)]%Q).
  { repeat constructor. }
  assert (Hin : In (1000, 900)%Q [(0, 1050); (1000, 900); (100000, 293)]%Q)
    by (right; left; reflexivity).
  split; [exact Hs|]. split; [exact Hin|].
  exact (prescribed_temperature_at_a_knot _ _ Hs Hin).
Defined.

(** ** Temperature statistics *)

Section MinMaxExact.
Local Open Scope Q_scope.

Lemma minmax_fold (cells : list Q) (st : Q * Q * Q) :
  let r :=
    fold_left
      (fun st tx =>
         let '(locTmin, locTmax, locTavg) := st in
         (std_min locTmin tx, std_max locTmax tx, sadd locTavg tx))
      cells st in
  fst (fst r) <= fst (fst st) /\ snd (fst st) <= snd (fst r) /\
  (forall c, In c cells -> fst (fst r) <= c <= snd (fst r)) /\
  (fst (fst r) = fst (fst st) \/ In (fst (fst r)) cells) /\
  (snd (fst r) = snd (fst st) \/ In (snd (fst r)) cells) /\
  snd r == snd st + Qsum cells.
Proof.
  cbv zeta. revert st. induction cells as [|tx cells IH]; intro st; cbn [fold_left].
  - cbn [Qsum fold_right].
    split; [lra|]. split; [lra|]. split; [intros ? []|].
    split; [left; reflexivity|]. split; [left; reflexivity | lra].
  - destruct st as [[mn mx] sm].
    specialize (IH (std_min mn tx, std_max mx tx, sadd sm tx)).
    destruct IH as (I1 & I2 & I3 & I4 & I5 & I6).
    set (r := fold_left _ cells _) in *. clearbody r.
    destruct r as [[mn' mx'] sm'].
    cbn [fst snd] in *. unfold std_min, std_max in *. qsimp.
    cbn [Qsum fold_right]. fold (Qsum cells).
    destruct (Qlt_bool tx mn) eqn:E1;
      [apply Qlt_bool_iff in E1 | apply Qlt_bool_false in E1];
    (destruct (Qlt_bool mx tx) eqn:E2;
      [apply Qlt_bool_iff in E2 | apply Qlt_bool_false in E2]);
    (split; [lra|]); (split; [lra|]);
    (split; [intros c [Hc|Hc]; [subst c; lra | apply I3; exact Hc]|]);
    (split; [destruct I4 as [I4|I4];
               [subst mn'; first [left; reflexivity | right; left; reflexivity]
               | right; right; exact I4]|]);
    (split; [destruct I5 as [I5|I5];
               [subst mx'; first [left; reflexivity | right; left; reflexivity]
               | right; right; exact I5]|]); lra.
Qed.

(** X16: in exact arithmetic [CalculateMinMaxAvg] reports as [Tmin] the
    smallest cell temperature capped at 6000 and as [Tmax] the largest
    floored at 0 (each is that bound or the temperature of a cell); the
    test [Tmin < 0] that ends the run fires exactly when some cell is
    negative; and [Tavg] times the divisor is the sum of the cells. *)
Theorem temperature_statistics_are_capped (cells : list Q) (ncells : Q) :
  let r := CalculateMinMaxAvg cells ncells in
  (forall c, In c cells -> Tmin r <= c <= Tmax r) /\
  Tmin r <= 6000 /\ 0 <= Tmax r /\
  (Tmin r = 6000 \/ In (Tmin r) cells) /\
  (Tmax r = 0 \/ In (Tmax r) cells) /\
  (negative_temperature_detected cells ncells = true
   <-> exists c, In c cells /\ c < 0) /\
  (~ ncells == 0 -> Tavg r * ncells == Qsum cells).
Proof.
  cbv zeta. unfold negative_temperature_detected, CalculateMinMaxAvg.
  pose proof (minmax_fold cells (sofZ 6000, s0, s0)) as Hm. cbv zeta in Hm.
  set (r := fold_left _ cells _) in *. clearbody r.
  destruct r as [[mn mx] sm].
  destruct Hm as (I1 & I2 & I3 & I4 & I5 & I6).
  cbn [Tmin Tmax Tavg fst snd] in *. qsimp. change (inject_Z 6000) with 6000 in *.
  split; [exact I3|]. split; [exact I1|]. split; [exact I2|].
  split; [exact I4|]. split; [exact I5|]. split.
  - split.
    + intro Hn. apply Qlt_bool_iff in Hn.
      destruct I4 as [I4|I4]; [subst mn; exfalso; revert Hn; apply Qle_not_lt;
                                 apply Qle_bool_iff; reflexivity|].
      exists mn. split; assumption.
    + intros (c & Hc & Hlt). apply Qlt_bool_iff. specialize (I3 c Hc). lra.
  - intro Hne. rewrite I6. field. exact Hne.
Qed.

End MinMaxExact.


(** ** The initial temperature field *)

Section Boxes.
Context {T : Type} `{Scalar T}.

(** A loop whose turns each change the state as [step] says, pointwise. *)
Lemma for_range_pointwise {A : Type} (a b : Z)
    (body : Z -> Storage3D A -> Storage3D A)
    (hit : Z -> Z -> Z -> Z -> bool) (v : A) (s : Storage3D A) :
  (forall n s i j k, body n s i j k = if hit n i j k then v else s i j k) ->
  forall i j k,
    for_range a b body s i j k
    = if existsb (fun n => hit (a + Z.of_nat n)%Z i j k) (seq 0 (Z.to_nat (b - a)))
      then v else s i j k.
Proof.
  intros Hb i j k. unfold for_range.
  generalize (seq 0 (Z.to_nat (b - a))) as l. intro l. revert s.
  induction l as [|n l IH]; intro s; cbn [fold_left existsb].
  - reflexivity.
  - rewrite IH, Hb.
    destruct (hit (a + Z.of_nat n)%Z i j k); cbn [orb]; [|reflexivity].
    destruct (existsb _ l); reflexivity.
Qed.

Lemma existsb_range (a b : Z) (f : Z -> bool) :
  existsb (fun n => f (a + Z.of_nat n)%Z) (seq 0 (Z.to_nat (b - a))) = true
  <-> exists x, (a <= x < b)%Z /\ f x = true.
Proof.
  rewrite existsb_exists. split.
  - intros (n & Hn & Hf). apply in_seq in Hn. exists (a + Z.of_nat n)%Z.
    split; [lia | exact Hf].
  - intros (x & Hx & Hf). exists (Z.to_nat (x - a)). split.
    + apply in_seq. lia.
    + replace (a + Z.of_nat (Z.to_nat (x - a)))%Z with x by lia. exact Hf.
Qed.

Lemma fill_box_spec (xlo xhi ylo yhi zlo zhi : Z) (v : T) (tx : Storage3D T)
    (i j k : Z) :
  fill_box xlo xhi ylo yhi zlo zhi v tx i j k
  = if in_box xlo xhi ylo yhi zlo zhi i j k then v else tx i j k.
Proof.
  unfold fill_box.
  assert (Hk : forall i' j' s i j k,
            for_range zlo zhi (fun k' tx => poke tx i' j' k' v) s i j k
            = if (Z.eqb i i' && Z.eqb j j' && (zlo <=? k) && (k <? zhi))%Z%bool
              then v else s i j k).
  { intros i' j' s i0 j0 k0.
    rewrite (for_range_pointwise zlo zhi _
               (fun n i j k => (Z.eqb i i' && Z.eqb j j' && Z.eqb k n)%bool) v)
      by (intros; reflexivity).
    match goal with |- (if ?c then _ else _) = (if ?d then _ else _) =>
      assert (E : c = d); [|rewrite E; reflexivity] end.
    apply eq_true_iff_eq.
    pose proof (existsb_range zlo zhi
                  (fun n => (Z.eqb i0 i' && Z.eqb j0 j' && Z.eqb k0 n)%bool)) as Hx.
    cbn beta in *. rewrite Hx, !andb_true_iff. clear Hx.
    rewrite !Z.eqb_eq, Z.leb_le, Z.ltb_lt. split.
    - intros (x & Hx & E). rewrite !andb_true_iff, !Z.eqb_eq in E.
      destruct E as [[E1 E2] E3]. subst. repeat split; lia.
    - intros [[[E1 E2] E3] E4]. exists k0. split; [lia|].
      rewrite !andb_true_iff, !Z.eqb_eq. repeat split; assumption. }
  assert (Hj : forall i' s i j k,
            for_range ylo yhi
              (fun j' => for_range zlo zhi (fun k' tx => poke tx i' j' k' v)) s i j k
            = if (Z.eqb i i' && (ylo <=? j) && (j <? yhi) && (zlo <=? k) && (k <? zhi))%Z%bool
              then v else s i j k).
  { intros i' s i0 j0 k0.
    rewrite (for_range_pointwise ylo yhi _
               (fun n i j k => (Z.eqb i i' && Z.eqb j n && (zlo <=? k) && (k <? zhi))%Z%bool) v)
      by (intros; apply Hk).
    match goal with |- (if ?c then _ else _) = (if ?d then _ else _) =>
      assert (E : c = d); [|rewrite E; reflexivity] end.
    apply eq_true_iff_eq.
    pose proof (existsb_range ylo yhi
                  (fun n => (Z.eqb i0 i' && Z.eqb j0 n && (zlo <=? k0) && (k0 <? zhi))%Z%bool))
      as Hx.
    cbn beta in *. rewrite Hx, !andb_true_iff. clear Hx.
    rewrite !Z.eqb_eq, !Z.leb_le, !Z.ltb_lt. split.
    - intros (x & Hx & E). rewrite !andb_true_iff, !Z.eqb_eq, Z.leb_le, Z.ltb_lt in E.
      destruct E as [[[E1 E2] E3] E4]. subst. repeat split; lia.
    - intros [[[[E1 E2] E3] E4] E5]. exists j0. split; [lia|].
      rewrite !andb_true_iff, !Z.eqb_eq, Z.leb_le, Z.ltb_lt. repeat split; assumption. }
  rewrite (for_range_pointwise xlo xhi _
             (fun n i j k => (Z.eqb i n && (ylo <=? j) && (j <? yhi)
                              && (zlo <=? k) && (k <? zhi))%Z%bool) v)
    by (intros; apply Hj).
  match goal with |- (if ?c then _ else _) = (if ?d then _ else _) =>
    assert (E : c = d); [|rewrite E; reflexivity] end.
  unfold in_box.
  apply eq_true_iff_eq.
  pose proof (existsb_range xlo xhi
                (fun n => (Z.eqb i n && (ylo <=? j) && (j <? yhi)
                           && (zlo <=? k) && (k <? zhi))%Z%bool)) as Hx.
  cbn beta in *. rewrite Hx, !andb_true_iff. clear Hx.
  rewrite !Z.leb_le, !Z.ltb_lt. split.
  - intros (x & Hx & E).
    rewrite !andb_true_iff, !Z.eqb_eq, !Z.leb_le, !Z.ltb_lt in E.
    destruct E as [[[[E1 E2] E3] E4] E5]. subst. repeat split; lia.
  - intros [[[[[E1 E2] E3] E4] E5] E6]. exists i. split; [lia|].
    rewrite !andb_true_iff, !Z.eqb_eq, !Z.leb_le, !Z.ltb_lt. repeat split; try assumption.
Qed.

Lemma when_set_spec (b : T) (xlo xhi ylo yhi zlo zhi : Z) (tx : Storage3D T)
    (i j k : Z) :
  when_set b (fill_box xlo xhi ylo yhi zlo zhi b) tx i j k
  = if negb (seqb b s0) && in_box xlo xhi ylo yhi zlo zhi i j k
    then b else tx i j k.
Proof.
  unfold when_set. destruct (negb (seqb b s0)); cbn [andb]; [|reflexivity].
  apply fill_box_spec.
Qed.

(** X17: when [TBC0Y] is 0 (the lower Y boundary is not set),
    [SetInitial] returns for every fuel, in binary64 as in exact
    arithmetic; each cell then holds the temperature of the last boundary
    block that is set and covers it, and the linear profile where no such
    block covers it, which is the case for every interior cell.  A
    boundary temperature of exactly 0 is never applied. *)
Theorem SetInitial_without_lower_Y_boundary (fuel : nat)
    (p : TemperatureSettings T) (tx : Storage3D T) :
  seqb (TBC0Y p) s0 = true ->
  exists tx',
    SetInitial fuel p tx = Some tx' /\
    (forall i j k, tx' i j k = boundary_or_profile p tx i j k) /\
    ((0 <= BcellsX p)%Z -> (0 <= BcellsY p)%Z -> (0 <= BcellsZ p)%Z ->
     forall i j k,
       (0 <= i < sizeX p)%Z -> (0 <= j < sizeY p)%Z -> (0 <= k < sizeZ p)%Z ->
       tx' i j k = initial_profile p tx i j k).
Proof.
  intro Hy. unfold SetInitial, NY0. rewrite Hy. cbn [negb].
  eexists. split; [reflexivity|].
  assert (Hall : forall i j k,
     when_set (TBCNZ p)
       (fill_box (- BcellsX p) (sizeX p + BcellsX p) (- BcellsY p)
          (sizeY p + BcellsY p) (sizeZ p) (sizeZ p + BcellsZ p) (TBCNZ p))
       (when_set (TBCNY p)
          (fill_box (- BcellsX p) (sizeX p + BcellsX p) (sizeY p)
             (sizeY p + BcellsY p) (- BcellsZ p) (sizeZ p + BcellsZ p) (TBCNY p))
          (when_set (TBCNX p)
             (fill_box (sizeX p) (sizeX p + BcellsX p) (- BcellsY p)
                (sizeY p + BcellsY p) (- BcellsZ p) (sizeZ p + BcellsZ p) (TBCNX p))
             (when_set (TBC0Z p)
                (fill_box (- BcellsX p) (sizeX p + BcellsX p) (- BcellsY p)
                   (sizeY p + BcellsY p) (- BcellsZ p) 0 (TBC0Z p))
                (when_set (TBC0X p)
                   (fill_box (- BcellsX p) 0 (- BcellsY p) (sizeY p + BcellsY p)
                      (- BcellsZ p) (sizeZ p + BcellsZ p) (TBC0X p))
                   (initial_profile p tx))))) i j k
     = boundary_or_profile p tx i j k).
  { intros i j k. rewrite !when_set_spec. reflexivity. }
  split; [exact Hall|].
  intros Hbx Hby Hbz i j k Hi Hj Hk. rewrite Hall.
  unfold boundary_or_profile, in_box. cbv zeta.
  replace (sizeZ p <=? k)%Z with false by (symmetry; apply Z.leb_gt; lia).
  replace (sizeY p <=? j)%Z with false by (symmetry; apply Z.leb_gt; lia).
  replace (sizeX p <=? i)%Z with false by (symmetry; apply Z.leb_gt; lia).
  replace (k <? 0)%Z with false by (symmetry; apply Z.ltb_ge; lia).
  replace (i <? 0)%Z with false by (symmetry; apply Z.ltb_ge; lia).
  rewrite !andb_false_r. cbn [andb]. reflexivity.
Qed.

End Boxes.

Lemma SetInitial_without_lower_Y_boundary_witness :
  seqb (TBC0Y (one_cell_room 300%float 0%float)) s0 = true /\
  exists tx',
    SetInitial 0 (one_cell_room 300%float 0%float) (fun _ _ _ => 0%float) = Some tx' /\
    tx' 0%Z 0%Z 0%Z = 300%float.
Proof.
  assert (Hy : seqb (TBC0Y (one_cell_room 300%float 0%float)) s0 = true)
    by (vm_compute; reflexivity).
  split; [exact Hy|].
  destruct (SetInitial_without_lower_Y_boundary 0
              (one_cell_room 300%float 0%float) (fun _ _ _ => 0%float) Hy)
    as (tx' & Htx & Hall & _).
  exists tx'. split; [exact Htx|]. rewrite Hall. vm_compute. reflexivity.
Defined.

(** ** Shifting the frame *)

Section Sweeps.

Lemma frame_steps_up (n : nat) (d i End : Z) :
  (0 <= d)%Z -> (i + Z.of_nat n <= End + 1)%Z ->
  frame_steps n d i End 1 = map (fun m => (i + Z.of_nat m)%Z) (seq 0 n).
Proof.
  intro Hd. revert i. induction n as [|n IH]; intros i Hn; [reflexivity|].
  cbn [frame_steps].
  replace (d >=? 0)%Z with true by (symmetry; apply Z.geb_le; lia).
  replace (i <=? End)%Z with true by (symmetry; apply Z.leb_le; lia).
  cbn [andb orb]. rewrite IH by lia.
  cbn [seq map]. rewrite Z.add_0_r. f_equal.
  rewrite <- seq_shift, map_map. apply map_ext. intro m. lia.
Qed.

Lemma frame_steps_down (n : nat) (d i End : Z) :
  (d < 0)%Z -> (End <= i - Z.of_nat n + 1)%Z ->
  frame_steps n d i End (-1) = map (fun m => (i - Z.of_nat m)%Z) (seq 0 n).
Proof.
  intro Hd. revert i. induction n as [|n IH]; intros i Hn; [reflexivity|].
  cbn [frame_steps].
  replace (d >=? 0)%Z with false
    by (symmetry; destruct (Z.geb_spec d 0); [lia | reflexivity]).
  replace (d <? 0)%Z with true by (symmetry; apply Z.ltb_lt; lia).
  replace (i >=? End)%Z with true by (symmetry; apply Z.geb_le; lia).
  cbn [andb orb]. rewrite IH by lia.
  cbn [seq map]. rewrite Z.sub_0_r. f_equal.
  rewrite <- seq_shift, map_map. apply map_ext. intro m. lia.
Qed.

Lemma frame_range_spec (d N : Z) :
  frame_range d N
  = map (fun m => if (d >=? 0)%Z then Z.of_nat m else (N - 1 - Z.of_nat m)%Z)
        (seq 0 (Z.to_nat N)).
Proof.
  unfold frame_range.
  destruct (Z.le_gt_cases 0 N) as [HN|HN].
  2:{ replace (Z.to_nat N) with 0%nat by lia. reflexivity. }
  destruct (Z.geb_spec d 0) as [Hd|Hd].
  - replace (d <? 0)%Z with false by (symmetry; apply Z.ltb_ge; lia).
    cbn [Z.b2z].
    replace (1 - 2 * 0)%Z with 1%Z by lia.
    rewrite frame_steps_up by lia. apply map_ext. intro m. lia.
  - replace (d <? 0)%Z with true by (symmetry; apply Z.ltb_lt; lia).
    cbn [Z.b2z].
    replace (1 - 2 * 1)%Z with (-1)%Z by lia.
    rewrite frame_steps_down by lia. apply map_ext. intro m. lia.
Qed.

(** The loop leaves no cell of the axis out: its test fails on the value
    that would come next. *)
Lemma frame_range_in (d N x : Z) :
  In x (frame_range d N) <-> (0 <= x < N)%Z.
Proof.
  rewrite frame_range_spec, in_map_iff. split.
  - intros (m & Hm & Hin). apply in_seq in Hin.
    destruct (d >=? 0)%Z; lia.
  - intro Hx. destruct (d >=? 0)%Z eqn:E.
    + exists (Z.to_nat x). split; [lia|]. apply in_seq. lia.
    + exists (Z.to_nat (N - 1 - x)). split; [lia|]. apply in_seq. lia.
Qed.

Lemma sorted_map_seq {B : Type} (R : B -> B -> Prop) (f : nat -> B) (a n : nat) :
  (forall p q, (a <= p < q)%nat -> (q < a + n)%nat -> R (f p) (f q)) ->
  StronglySorted R (map f (seq a n)).
Proof.
  revert a. induction n as [|n IH]; intros a Hr; cbn [seq map].
  - constructor.
  - constructor.
    + apply IH. intros p q Hp Hq. apply Hr; lia.
    + apply Forall_forall. intros y Hy. apply in_map_iff in Hy.
      destruct Hy as (q & <- & Hq). apply in_seq in Hq. apply Hr; lia.
Qed.

Lemma frame_range_sorted (d N : Z) :
  StronglySorted (fun x y => (sweep_sign d * x < sweep_sign d * y)%Z)
                 (frame_range d N).
Proof.
  rewrite frame_range_spec. apply sorted_map_seq.
  intros p q Hp Hq. unfold sweep_sign. destruct (d >=? 0)%Z; lia.
Qed.

Lemma sorted_app {B : Type} (R : B -> B -> Prop) (l1 l2 : list B) :
  StronglySorted R l1 -> StronglySorted R l2 ->
  (forall x y, In x l1 -> In y l2 -> R x y) ->
  StronglySorted R (l1 ++ l2).
Proof.
  intros H1 H2 Hc. induction l1 as [|a l1 IH]; [exact H2|].
  cbn [app]. apply StronglySorted_inv in H1. destruct H1 as [H1 Ha].
  constructor.
  - apply IH; [exact H1|]. intros x y Hx Hy. apply Hc; [right; exact Hx | exact Hy].
  - apply Forall_app. split; [exact Ha|].
    apply Forall_forall. intros y Hy. apply Hc; [left; reflexivity | exact Hy].
Qed.

Lemma sorted_flat_map {B C : Type} (R1 : B -> B -> Prop) (R : C -> C -> Prop)
    (f : B -> list C) (l : list B) :
  StronglySorted R1 l ->
  (forall b, In b l -> StronglySorted R (f b)) ->
  (forall b b' x y, R1 b b' -> In x (f b) -> In y (f b') -> R x y) ->
  StronglySorted R (flat_map f l).
Proof.
  intros Hs Hf Hc. induction l as [|b l IH]; cbn [flat_map]; [constructor|].
  apply StronglySorted_inv in Hs. destruct Hs as [Hs Hb].
  rewrite Forall_forall in Hb.
  apply sorted_app.
  - apply Hf. left. reflexivity.
  - apply IH; [exact Hs|]. intros b' Hb'. apply Hf. right. exact Hb'.
  - intros x y Hx Hy. apply in_flat_map in Hy. destruct Hy as (b' & Hb' & Hy).
    apply (Hc b b'); [apply Hb; exact Hb' | exact Hx | exact Hy].
Qed.

Lemma frame_cells_in (dx dy dz : Z) (g : GridParameters) (i j k : Z) :
  In (i, j, k) (frame_cells dx dy dz g) <-> interior g i j k = true.
Proof.
  unfold frame_cells, interior.
  rewrite in_flat_map. rewrite !andb_true_iff, !Z.leb_le, !Z.ltb_lt. split.
  - intros (i' & Hi & Hin). apply in_flat_map in Hin.
    destruct Hin as (j' & Hj & Hin). apply in_map_iff in Hin.
    destruct Hin as (k' & E & Hk). inversion E; subst.
    apply frame_range_in in Hi, Hj, Hk. lia.
  - intros Hb. exists i. split; [apply frame_range_in; lia|].
    apply in_flat_map. exists j. split; [apply frame_range_in; lia|].
    apply in_map_iff. exists k. split; [reflexivity | apply frame_range_in; lia].
Qed.

Lemma frame_cells_sorted (dx dy dz : Z) (g : GridParameters) :
  StronglySorted (visited_before dx dy dz) (frame_cells dx dy dz g).
Proof.
  unfold frame_cells.
  apply (sorted_flat_map (fun x y => (sweep_sign dx * x < sweep_sign dx * y)%Z)).
  - apply frame_range_sorted.
  - intros i _.
    apply (sorted_flat_map (fun x y => (sweep_sign dy * x < sweep_sign dy * y)%Z)).
    + apply frame_range_sorted.
    + intros j _.
      pose proof (frame_range_sorted dz (Nz g)) as Hs.
      induction Hs as [|k l Hs IH Hk]; cbn [map]; constructor; [exact IH|].
      rewrite Forall_forall in *. intros y Hy. apply in_map_iff in Hy.
      destruct Hy as (k' & <- & Hk'). unfold visited_before.
      right. split; [reflexivity|]. right. split; [reflexivity|]. apply Hk. exact Hk'.
    + intros j j' x y Hjj Hx Hy. apply in_map_iff in Hx, Hy.
      destruct Hx as (k & <- & _). destruct Hy as (k' & <- & _).
      unfold visited_before. right. split; [reflexivity|]. left. exact Hjj.
  - intros i i' x y Hii Hx Hy. apply in_flat_map in Hx, Hy.
    destruct Hx as (j & _ & Hx). destruct Hy as (j' & _ & Hy).
    apply in_map_iff in Hx, Hy.
    destruct Hx as (k & <- & _). destruct Hy as (k' & <- & _).
    unfold visited_before. left. exact Hii.
Qed.

Lemma visited_before_irrefl (dx dy dz : Z) (c : Z * Z * Z) :
  ~ visited_before dx dy dz c c.
Proof. destruct c as [[i j] k]. unfold visited_before. lia. Qed.

Lemma source_not_before (dx dy dz : Z) (g : GridParameters) (i j k : Z) :
  (0 <= dNx g)%Z -> (0 <= dNy g)%Z -> (0 <= dNz g)%Z ->
  ~ visited_before dx dy dz
      ((i + dx * dNx g)%Z, (j + dy * dNy g)%Z, (k + dz * dNz g)%Z) (i, j, k).
Proof.
  intros Hx Hy Hz. unfold visited_before, sweep_sign.
  destruct (Z.geb_spec dx 0), (Z.geb_spec dy 0), (Z.geb_spec dz 0); nia.
Qed.

Context {A : Type}.

Lemma shift_cell_at (dx dy dz : Z) (g : GridParameters) (s : Storage3D A)
    (c c' : Z * Z * Z) :
  at3 (shift_cell dx dy dz g s c) c'
  = if cell_eq_dec c' c
    then at3 s ((fst (fst c) + dx * dNx g)%Z, (snd (fst c) + dy * dNy g)%Z,
                (snd c + dz * dNz g)%Z)
    else at3 s c'.
Proof.
  destruct c as [[i j] k]. unfold shift_cell. cbn [fst snd].
  destruct (cell_eq_dec c' (i, j, k)) as [->|Hne].
  - apply (at3_poke_same s (i, j, k)).
  - apply (at3_poke_other s (i, j, k) c' _ Hne).
Qed.

Lemma sweep_in_place (dx dy dz : Z) (g : GridParameters) (L : list (Z * Z * Z)) :
  (0 <= dNx g)%Z -> (0 <= dNy g)%Z -> (0 <= dNz g)%Z ->
  StronglySorted (visited_before dx dy dz) L ->
  forall (s : Storage3D A) (c : Z * Z * Z),
    at3 (fold_left (shift_cell dx dy dz g) L s) c
    = if in_dec cell_eq_dec c L
      then at3 s ((fst (fst c) + dx * dNx g)%Z, (snd (fst c) + dy * dNy g)%Z,
                  (snd c + dz * dNz g)%Z)
      else at3 s c.
Proof.
  intros Hx Hy Hz Hs. induction L as [|a L IH]; intros s c; cbn [fold_left].
  - reflexivity.
  - apply StronglySorted_inv in Hs. destruct Hs as [Hs Ha].
    rewrite Forall_forall in Ha.
    rewrite (IH Hs).
    destruct (in_dec cell_eq_dec c L) as [Hin|Hnin].
    + destruct (in_dec cell_eq_dec c (a :: L)) as [_|Hn]; [|exfalso; apply Hn; right; exact Hin].
      rewrite shift_cell_at.
      destruct (cell_eq_dec _ a) as [E|_]; [|reflexivity].
      exfalso. specialize (Ha c Hin). rewrite <- E in Ha.
      destruct c as [[i j] k]. cbn [fst snd] in Ha.
      exact (source_not_before dx dy dz g i j k Hx Hy Hz Ha).
    + rewrite shift_cell_at.
      destruct (cell_eq_dec c a) as [->|Hne].
      * destruct (in_dec cell_eq_dec a (a :: L)) as [_|Hn]; [reflexivity|].
        exfalso. apply Hn. left. reflexivity.
      * destruct (in_dec cell_eq_dec c (a :: L)) as [[E|Hin]|_];
          [congruence | contradiction | reflexivity].
Qed.

(** X18: the loop nest of [Temperature::MoveFrame] and
    [PhaseField::MoveFrameSR] is a pure shift although it reads and writes
    the same storage: for every shift vector, every interior cell ends
    with the value its source cell [(i + dx*dNx, j + dy*dNy, k + dz*dNz)]
    had before the call, and no other cell is written. *)
Theorem MoveFrame_shifts_every_cell (dx dy dz : Z) (g : GridParameters)
    (s : Storage3D A) (i j k : Z) :
  (0 <= dNx g)%Z -> (0 <= dNy g)%Z -> (0 <= dNz g)%Z ->
  MoveFrame dx dy dz g s i j k
  = if interior g i j k
    then s (i + dx * dNx g)%Z (j + dy * dNy g)%Z (k + dz * dNz g)%Z
    else s i j k.
Proof.
  intros Hx Hy Hz. unfold MoveFrame.
  pose proof (sweep_in_place dx dy dz g (frame_cells dx dy dz g) Hx Hy Hz
                (frame_cells_sorted dx dy dz g) s (i, j, k)) as Hsw.
  cbn [at3 fst snd] in Hsw. rewrite Hsw.
  destruct (in_dec cell_eq_dec (i, j, k) (frame_cells dx dy dz g)) as [Hin|Hnin].
  - apply frame_cells_in in Hin. rewrite Hin. reflexivity.
  - destruct (interior g i j k) eqn:E; [|reflexivity].
    exfalso. apply Hnin. apply frame_cells_in. exact E.
Qed.

End Sweeps.

Lemma MoveFrame_shifts_every_cell_witness :
  (0 <= dNx (line_grid 4))%Z /\ (0 <= dNy (line_grid 4))%Z /\
  (0 <= dNz (line_grid 4))%Z /\
  MoveFrame (-1) 0 0 (line_grid 4) (fun i _ _ => i) 2%Z 0%Z 0%Z = 1%Z.
Proof.
  split; [discriminate|]. split; [apply Z.le_refl|]. split; [apply Z.le_refl|].
  rewrite (MoveFrame_shifts_every_cell (-1) 0 0 (line_grid 4) (fun i _ _ => i)
             2 0 0); [reflexivity | discriminate | apply Z.le_refl | apply Z.le_refl].
Defined.

(** * Properties of the further parts, continued *)

(** ** Further per-cell operations of the phase field *)

Section FixSpreadingExact.
Local Open Scope Q_scope.

(** X19: the storage loop of [FixSpreading], in exact arithmetic, keeps
    the flag and the indices of a cell; after it every [Stable] entry holds
    0.0 or at least [cutoff], the other entries are those the cell had, and
    a second pass with the same [cutoff] changes nothing. *)
Theorem FixSpreading_settles (StageOf : N -> GrainStages) (cutoff : Q)
    (n : NodePF Q) :
  let n' := FixSpreading_cell StageOf cutoff n in
  flag n' = flag n /\
  map index (Fields n') = map index (Fields n) /\
  (forall e, In e (Fields n') ->
     (StageOf (index e) = Stable -> value e = 0 \/ cutoff <= value e) /\
     (StageOf (index e) <> Stable -> In e (Fields n))) /\
  FixSpreading_cell StageOf cutoff n' = n'.
Proof.
  cbv zeta. unfold FixSpreading_cell. cbn [flag Fields].
  split; [reflexivity|]. split.
  { rewrite map_map. apply map_ext. intro a.
    destruct (_ && _); reflexivity. }
  split.
  - intros e He. apply in_map_iff in He. destruct He as (a & <- & Ha).
    qsimp.
    destruct (Qlt_bool (value a) cutoff) eqn:E1; cbn [andb].
    + destruct (StageOf (index a)) eqn:E2; cbn [index value]; rewrite ?E2;
        split; intros; try congruence; try assumption.
      left; reflexivity.
    + apply Qlt_bool_false in E1. split; intros; [right; exact E1 | exact Ha].
  - f_equal. rewrite map_map. apply map_ext. intro a. qsimp.
    destruct (Qlt_bool (value a) cutoff) eqn:E1; cbn [andb].
    + destruct (StageOf (index a)) eqn:E2; cbn [index value]; rewrite ?E1, ?E2;
        cbn [andb]; try reflexivity.
      destruct (Qlt_bool 0 cutoff); reflexivity.
    + rewrite E1. reflexivity.
Qed.

End FixSpreadingExact.

Section SolidMassExact.
Local Open Scope Q_scope.

Lemma to_size_t_below_one (v : Q) : 0 <= v -> v < 1 -> to_size_t v = 0%N.
Proof.
  intros H0 H1. unfold to_size_t, truncate_exactQ.
  destruct v as [p q]. unfold Qle, Qlt in *. cbn [Qnum Qden] in *.
  rewrite Z.quot_small; [reflexivity | lia].
Qed.

Lemma to_size_t_one (v : Q) : v == 1 -> to_size_t v = 1%N.
Proof.
  intro H1. unfold to_size_t, truncate_exactQ.
  destruct v as [p q]. unfold Qeq in *. cbn [Qnum Qden] in *.
  replace p with (Z.pos q) by lia. rewrite Z.quot_same; [reflexivity | lia].
Qed.

Lemma solid_mass_fold (is_solid : N -> bool) (Density : N -> Q) (k : N)
    (l : list (PFEntry Q)) :
  (forall e, In e l -> to_size_t (value e) = k) ->
  forall a b, a == Density k * b ->
    fold_left (fun a alpha => if is_solid (index alpha)
                 then a + value alpha * Density (to_size_t (value alpha))
                 else a) l a
    == Density k *
       fold_left (fun a alpha => if is_solid (index alpha)
                    then a + value alpha else a) l b.
Proof.
  induction l as [|e l IH]; intros Hk a b Hab; cbn [fold_left]; [exact Hab|].
  apply IH; [intros x Hx; apply Hk; right; exact Hx|].
  destruct (is_solid (index e)); [|exact Hab].
  rewrite (Hk e (or_introl eq_refl)). rewrite Hab. ring.
Qed.

(** X20: [SolidMassDensity] indexes the registry by the value of an
    entry, not by its index.  In exact arithmetic, in a cell whose values
    all lie in [[0,1)] it returns the density of the registry entry 0 times
    the solid phase fraction of the cell, and in a cell whose values are
    all 1 the density of the registry entry 1 times that fraction, whatever
    the grains of the cell are. *)
Theorem SolidMassDensity_reads_the_density_by_value
    (is_solid : N -> bool) (Density : N -> Q) (n : NodePF Q) :
  ((forall e, In e (Fields n) -> 0 <= value e < 1) ->
   SolidMassDensity is_solid Density n
   == Density 0%N * SolidPhaseFraction is_solid n) /\
  ((forall e, In e (Fields n) -> value e == 1) ->
   SolidMassDensity is_solid Density n
   == Density 1%N * SolidPhaseFraction is_solid n).
Proof.
  unfold SolidMassDensity, SolidPhaseFraction. qsimp.
  split; intro Hv; apply solid_mass_fold; try ring.
  - intros e He. apply to_size_t_below_one; apply (Hv e He).
  - intros e He. apply to_size_t_one. exact (Hv e He).
Qed.

End SolidMassExact.

Lemma SolidMassDensity_reads_the_density_by_value_witness :
  (forall e, In e (Fields (interface_cell [pf 3%N (6 # 10)%Q; pf 5%N (4 # 10)%Q])) ->
     (0 <= value e < 1)%Q) /\
  (SolidMassDensity (fun _ => true) (fun n => inject_Z (Z.of_N n + 7))
     (interface_cell [pf 3%N (6 # 10)%Q; pf 5%N (4 # 10)%Q])
   == inject_Z 7
      * SolidPhaseFraction (fun _ => true)
          (interface_cell [pf 3%N (6 # 10)%Q; pf 5%N (4 # 10)%Q]))%Q.
Proof.
  assert (Hv : forall e,
            In e (Fields (interface_cell [pf 3%N (6 # 10)%Q; pf 5%N (4 # 10)%Q])) ->
            (0 <= value e < 1)%Q).
  { intros e [He | [He | []]]; subst e; cbn [pf value]; split;
      (discriminate || reflexivity). }
  split; [exact Hv|].
  exact (proj1 (SolidMassDensity_reads_the_density_by_value
                  (fun _ => true) (fun n => inject_Z (Z.of_N n + 7))
                  (interface_cell [pf 3%N (6 # 10)%Q; pf 5%N (4 # 10)%Q])) Hv).
Defined.

Section PresentFields.
Context {T : Type} `{Scalar T}.

Lemma present_sorted (P : nat * GrainInfo T -> bool) (l : list (GrainInfo T)) :
  forall a,
    StronglySorted Z.lt
      (map (fun ng => Z.of_nat (fst ng)) (filter P (combine (seq a (length l)) l)))
    /\ Forall (fun z => (Z.of_nat a <= z)%Z)
      (map (fun ng => Z.of_nat (fst ng)) (filter P (combine (seq a (length l)) l))).
Proof.
  induction l as [|g l IH]; intro a; cbn [length seq combine filter map].
  - split; constructor.
  - destruct (IH (S a)) as [Hs Hb].
    assert (Hb' : Forall (fun z => (Z.of_nat a < z)%Z)
              (map (fun ng => Z.of_nat (fst ng))
                   (filter P (combine (seq (S a) (length l)) l)))).
    { eapply Forall_impl; [|exact Hb]. cbn beta. intros; lia. }
    destruct (P (a, g)); cbn [map fst].
    + split; constructor; [exact Hs | exact Hb' | lia |].
      eapply Forall_impl; [|exact Hb']. cbn beta. intros; lia.
    + split; [exact Hs|]. eapply Forall_impl; [|exact Hb']. cbn beta. intros; lia.
Qed.

Lemma present_member (l : list (GrainInfo T)) (z : Z) :
  In z (GetPresentPhaseFields l) <->
  exists i g, z = Z.of_nat i /\ nth_error l i = Some g /\ Exist g = true.
Proof.
  unfold GetPresentPhaseFields. rewrite in_map_iff. split.
  - intros ([i g] & <- & Hin). apply filter_In in Hin. destruct Hin as [Hin Hex].
    apply in_enumerate in Hin. exists i, g. auto.
  - intros (i & g & -> & Hn & Hex). exists (i, g). split; [reflexivity|].
    apply filter_In. split; [apply in_enumerate; exact Hn | exact Hex].
Qed.

End PresentFields.

Section PresentExact.
Local Open Scope Q_scope.

Lemma recompute_exists (cells : list (NodePF Q)) (i : nat) (g : GrainInfo Q) :
  Exist (recompute cells (i, g)) = true <-> 0 < grid_volume cells (N.of_nat i).
Proof.
  unfold recompute, update_statistics, set_ratio, set_volume.
  cbn [fst snd Exist Stage Volume MAXVolume RefVolume VolumeRatio]. qsimp.
  set (V := grid_volume cells (N.of_nat i)).
  destruct (Exist g) eqn:Ex; cbn [andb].
  - destruct (Qle_bool (0 + V) 0) eqn:E1.
    + apply Qle_bool_iff in E1. cbn [Exist]. split; intro; [discriminate | lra].
    + apply Qle_bool_false in E1.
      assert (E2 : Qlt_bool 0 (0 + V) = true) by (apply Qlt_bool_iff; exact E1).
      rewrite E2. destruct (Qlt_bool 1 _); cbn [Exist]; split; intro; try reflexivity; lra.
  - destruct (Qlt_bool 0 (0 + V)) eqn:E2.
    + apply Qlt_bool_iff in E2.
      destruct (Qlt_bool 1 _); cbn [Exist]; split; intro; try reflexivity; lra.
    + apply Qlt_bool_false in E2. cbn [Exist].
      split; intro; [congruence | lra].
Qed.

(** X21: after [CalculateGrainsVolume], in exact arithmetic,
    [GetPresentPhaseFields] lists in strictly increasing order exactly the
    indices of the registry whose phase field has a positive volume on the
    grid. *)
Theorem present_fields_after_recomputation (cells : list (NodePF Q))
    (props : list (GrainInfo Q)) :
  let present := GetPresentPhaseFields (CalculateGrainsVolume cells props) in
  StronglySorted Z.lt present /\
  forall z : Z,
    In z present <->
    (0 <= z < Z.of_nat (length props))%Z /\ 0 < grid_volume cells (Z.to_N z).
Proof.
  cbv zeta. split.
  - unfold GetPresentPhaseFields. apply present_sorted.
  - intro z. rewrite present_member. split.
    + intros (i & g' & -> & Hn & Hex).
      rewrite CalculateGrainsVolume_nth in Hn.
      destruct (nth_error props i) as [g|] eqn:E; [|discriminate].
      cbn [option_map] in Hn. inversion Hn; subst g'.
      apply recompute_exists in Hex.
      assert (Hi : (i < length props)%nat) by (apply nth_error_Some; congruence).
      split; [lia|].
      replace (Z.to_N (Z.of_nat i)) with (N.of_nat i) by lia. exact Hex.
    + intros [Hz Hv]. exists (Z.to_nat z).
      destruct (nth_error props (Z.to_nat z)) as [g|] eqn:E.
      * exists (recompute cells (Z.to_nat z, g)).
        split; [lia|]. split.
        -- rewrite CalculateGrainsVolume_nth, E. reflexivity.
        -- apply recompute_exists.
           replace (N.of_nat (Z.to_nat z)) with (Z.to_N z) by lia. exact Hv.
      * apply nth_error_None in E. lia.
Qed.

End PresentExact.

Section CombineTwice.
Local Open Scope Q_scope.

Lemma absorb_clears (sel : N -> bool) (l : list (PFEntry Q)) (acc : Q) :
  cleared sel (fst (absorb sel l acc)).
Proof.
  revert acc. induction l as [|it l IH]; intro acc; cbn [absorb].
  - intros e [].
  - destruct (sel (index it)) eqn:E.
    + specialize (IH (sadd acc (value it))).
      destruct (absorb sel l (sadd acc (value it))) as [r a]. cbn [fst] in *.
      intros e [<-|He]; [reflexivity | apply IH; exact He].
    + specialize (IH acc). destruct (absorb sel l acc) as [r a]. cbn [fst] in *.
      intros e [<-|He]; [congruence | apply IH; exact He].
Qed.

Lemma add_value_cleared (sel : N -> bool) (l : list (PFEntry Q)) (M : N) (v : Q) :
  sel M = false -> cleared sel l -> cleared sel (add_value l M v).
Proof.
  intros HM. induction l as [|it l IH]; intro Hc; cbn [add_value].
  - intros e [<-|[]]. cbn [index]. congruence.
  - destruct (N.eqb (index it) M) eqn:E.
    + intros e [<-|He]; [cbn [index]; congruence | apply Hc; right; exact He].
    + intros e [<-|He]; [apply Hc; left; reflexivity|].
      apply IH; [|exact He]. intros x Hx. apply Hc. right. exact Hx.
Qed.

Lemma absorb_cleared (sel : N -> bool) (l : list (PFEntry Q)) :
  cleared sel l ->
  forall acc, fst (absorb sel l acc) = l /\ snd (absorb sel l acc) == acc.
Proof.
  induction l as [|it l IH]; intros Hc acc; cbn [absorb].
  - split; reflexivity.
  - assert (Hc' : cleared sel l) by (intros x Hx; apply Hc; right; exact Hx).
    destruct (sel (index it)) eqn:E.
    + destruct (IH Hc' (sadd acc (value it))) as [I1 I2].
      destruct (absorb sel l (sadd acc (value it))) as [r a]. cbn [fst snd] in *.
      assert (Hv : value it = 0) by (apply Hc; [left; reflexivity | exact E]).
      split.
      * subst r. destruct it as [i v]. cbn [index value] in *. subst v.
        reflexivity.
      * rewrite I2, Hv. qsimp. lra.
    + destruct (IH Hc' acc) as [I1 I2].
      destruct (absorb sel l acc) as [r a]. cbn [fst snd] in *.
      split; [subst r; reflexivity | exact I2].
Qed.

Lemma CombinePhaseFields_cell_twice (Phase : N -> N) (StageOf : N -> GrainStages)
    (p M : N) (fields : list (PFEntry Q)) :
  CombinePhaseFields_cell Phase StageOf p M
    (CombinePhaseFields_cell Phase StageOf p M fields)
  = CombinePhaseFields_cell Phase StageOf p M fields.
Proof.
  unfold CombinePhaseFields_cell.
  set (sel := fun idx : N => _).
  assert (HM : sel M = false).
  { unfold sel. rewrite N.eqb_refl. cbn [negb]. apply andb_false_r. }
  pose proof (absorb_clears sel fields s0) as Hc.
  destruct (absorb sel fields s0) as [f1 v1]. cbn [fst] in Hc.
  assert (Hc2 : cleared sel (if sltb DBL_EPSILON v1 then add_value f1 M v1 else f1)).
  { destruct (sltb DBL_EPSILON v1); [apply add_value_cleared; assumption | exact Hc]. }
  destruct (absorb_cleared sel _ Hc2 s0) as [I1 I2].
  destruct (absorb sel (if sltb DBL_EPSILON v1 then add_value f1 M v1 else f1) s0)
    as [f2 v2].
  cbn [fst snd] in I1, I2. subst f2.
  replace (sltb DBL_EPSILON v2) with false; [reflexivity|].
  symmetry. qsimp. apply Qlt_bool_false. rewrite I2. discriminate.
Qed.

Lemma absorb_indices (sel : N -> bool) (l : list (PFEntry Q)) (acc : Q) :
  map index (fst (absorb sel l acc)) = map index l.
Proof.
  revert acc. induction l as [|it l IH]; intro acc; cbn [absorb]; [reflexivity|].
  destruct (sel (index it)).
  - specialize (IH (sadd acc (value it))).
    destruct (absorb sel l (sadd acc (value it))) as [r a]. cbn [fst map index] in *.
    rewrite IH. reflexivity.
  - specialize (IH acc). destruct (absorb sel l acc) as [r a].
    cbn [fst map] in *. rewrite IH. reflexivity.
Qed.

Lemma majority_in_registry (Phase : N -> N) (p : N)
    (FieldsProperties : list (GrainInfo Q)) :
  MajorityFound (find_majority Phase p FieldsProperties) = true ->
  (N.to_nat (MajorityIndex (find_majority Phase p FieldsProperties))
   < length FieldsProperties)%nat.
Proof.
  unfold find_majority.
  match goal with |- context [fold_left _ ?L ?m0] =>
    destruct (majority_fold Phase p L m0) as (_ & _ & _ & I4) end.
  cbv zeta in I4. cbn [MajorityIndex MajorityVolume MajorityFound] in I4.
  intro Hf.
  destruct I4 as [(_ & _ & J3) | (ng & Hx & _ & J1 & _)]; [congruence|].
  rewrite J1, Nat2N.id. destruct ng as [n g]. cbn [fst].
  apply in_combine_l in Hx. apply in_seq in Hx. lia.
Qed.

(** X22: [CombinePhaseFields] leaves the registry as it is, so that a
    second call finds the same majority field; in exact arithmetic the
    second call changes no cell.  The call keeps the flags and creates no
    entry for an index outside the registry. *)
Theorem CombinePhaseFields_twice (Phase : N -> N)
    (FieldsProperties : list (GrainInfo Q)) (p : N) (cells : list (NodePF Q)) :
  (forall n e, In n cells -> In e (Fields n) ->
     (N.to_nat (index e) < length FieldsProperties)%nat) ->
  let once := CombinePhaseFields_phase Phase FieldsProperties p cells in
  map flag once = map flag cells /\
  (forall n e, In n once -> In e (Fields n) ->
     (N.to_nat (index e) < length FieldsProperties)%nat) /\
  CombinePhaseFields_phase Phase FieldsProperties p once = once.
Proof.
  intro Hreg. cbv zeta. unfold CombinePhaseFields_phase.
  destruct (MajorityFound (find_majority Phase p FieldsProperties)) eqn:Hf;
    cbn [andb]; [|split; [reflexivity | split; [exact Hreg | reflexivity]]].
  destruct (1 <? Nfields (find_majority Phase p FieldsProperties))%Z;
    [|split; [reflexivity | split; [exact Hreg | reflexivity]]].
  split; [rewrite map_map; reflexivity|]. split.
  - intros n e Hn He. apply in_map_iff in Hn. destruct Hn as (n0 & <- & Hn0).
    cbn [Fields] in He. unfold CombinePhaseFields_cell in He.
    set (sel := fun idx : N => _) in He.
    pose proof (absorb_indices sel (Fields n0) s0) as Hidx.
    destruct (absorb sel (Fields n0) s0) as [f1 v1]. cbn [fst] in Hidx.
    assert (Hf1 : In e f1 -> (N.to_nat (index e) < length FieldsProperties)%nat).
    { intro Hin. apply (in_map index) in Hin. rewrite Hidx in Hin.
      apply in_map_iff in Hin. destruct Hin as (e0 & <- & He0).
      exact (Hreg n0 e0 Hn0 He0). }
    destruct (sltb DBL_EPSILON v1); [|exact (Hf1 He)].
    apply in_add_value in He. destruct He as [He | [He _]]; [exact (Hf1 He)|].
    rewrite He. apply majority_in_registry. exact Hf.
  - rewrite map_map. apply map_ext. intro n. cbn [flag Fields].
    rewrite CombinePhaseFields_cell_twice. reflexivity.
Qed.

End CombineTwice.

Lemma CombinePhaseFields_twice_witness :
  (forall n e,
     In n [interface_cell [pf 0%N (6 # 10)%Q; pf 1%N (4 # 10)%Q]] ->
     In e (Fields n) ->
     (N.to_nat (index e)
      < length [ {| Exist := true; Stage := Stable; Volume := 3%Q;
                    MAXVolume := 3%Q; RefVolume := 1%Q; VolumeRatio := 1%Q |};
                 {| Exist := true; Stage := Stable; Volume := 2%Q;
                    MAXVolume := 2%Q; RefVolume := 1%Q; VolumeRatio := 1%Q |} ])%nat)
  /\
  CombinePhaseFields_phase (fun _ => 0%N)
    [ {| Exist := true; Stage := Stable; Volume := 3%Q;
         MAXVolume := 3%Q; RefVolume := 1%Q; VolumeRatio := 1%Q |};
      {| Exist := true; Stage := Stable; Volume := 2%Q;
         MAXVolume := 2%Q; RefVolume := 1%Q; VolumeRatio := 1%Q |} ] 0%N
    (CombinePhaseFields_phase (fun _ => 0%N)
       [ {| Exist := true; Stage := Stable; Volume := 3%Q;
            MAXVolume := 3%Q; RefVolume := 1%Q; VolumeRatio := 1%Q |};
         {| Exist := true; Stage := Stable; Volume := 2%Q;
            MAXVolume := 2%Q; RefVolume := 1%Q; VolumeRatio := 1%Q |} ] 0%N
       [interface_cell [pf 0%N (6 # 10)%Q; pf 1%N (4 # 10)%Q]])
  = CombinePhaseFields_phase (fun _ => 0%N)
      [ {| Exist := true; Stage := Stable; Volume := 3%Q;
           MAXVolume := 3%Q; RefVolume := 1%Q; VolumeRatio := 1%Q |};
        {| Exist := true; Stage := Stable; Volume := 2%Q;
           MAXVolume := 2%Q; RefVolume := 1%Q; VolumeRatio := 1%Q |} ] 0%N
      [interface_cell [pf 0%N (6 # 10)%Q; pf 1%N (4 # 10)%Q]].
Proof.
  assert (Hreg : forall n e,
     In n [interface_cell [pf 0%N (6 # 10)%Q; pf 1%N (4 # 10)%Q]] ->
     In e (Fields n) ->
     (N.to_nat (index e)
      < length [ {| Exist := true; Stage := Stable; Volume := 3%Q;
                    MAXVolume := 3%Q; RefVolume := 1%Q; VolumeRatio := 1%Q |};
                 {| Exist := true; Stage := Stable; Volume := 2%Q;
                    MAXVolume := 2%Q; RefVolume := 1%Q; VolumeRatio := 1%Q |} ])%nat).
  { intros n e [Hn | []] He. subst n.
    destruct He as [He | [He | []]]; subst e; cbn; lia. }
  split; [exact Hreg|].
  exact (proj2 (proj2 (CombinePhaseFields_twice (fun _ => 0%N) _ 0%N _ Hreg))).
Defined.

Section KeyedInvariants.
Context {T : Type} `{Scalar T}.

Lemma upd_sym_Forall (P : ABEntry T -> Prop) (f : ABEntry T -> ABEntry T)
    (mk : ABEntry T) (l : NodeAB T) (n m : N) :
  Forall P l -> (forall e, P e -> P (f e)) -> P mk ->
  Forall P (upd_sym f mk l n m).
Proof.
  intros Hl Hf Hmk. induction Hl as [|e l He Hl IH]; cbn [upd_sym].
  - constructor; [exact Hmk | constructor].
  - destruct (sym_pair e n m); constructor; auto.
Qed.

Lemma get_sym1_Forall (P : T -> Prop) (l : NodeAB T) (n m : N) :
  Forall (fun e => P (value1 e)) l -> P s0 -> P (get_sym1 l n m).
Proof.
  intros Hl H0. induction Hl as [|e l He Hl IH]; cbn [get_sym1]; [exact H0|].
  destruct (sym_pair e n m); assumption.
Qed.

Lemma get_sym2_Forall (P : T -> Prop) (l : NodeAB T) (n m : N) :
  Forall (fun e => P (value2 e)) l -> P s0 -> P (get_sym2 l n m).
Proof.
  intros Hl H0. induction Hl as [|e l He Hl IH]; cbn [get_sym2]; [exact H0|].
  destruct (sym_pair e n m); assumption.
Qed.

End KeyedInvariants.

Section LimitingExact.
Local Open Scope Q_scope.

Lemma collect_step_signed (loc : NodeAB Q) (it : ABEntry Q) :
  Forall signed_totals loc -> Forall signed_totals (collect_step loc it).
Proof.
  intro Hl. unfold collect_step, add_sym1, add_sym2. qsimp.
  destruct (Qlt_bool (value1 it) 0) eqn:E1;
    [apply Qlt_bool_iff in E1 | apply Qlt_bool_false in E1];
  (destruct (Qlt_bool 0 (value1 it)) eqn:E2;
    [apply Qlt_bool_iff in E2 | apply Qlt_bool_false in E2]);
  try exact Hl;
  repeat (apply upd_sym_Forall;
          [ | intros e [He1 He2]; unfold signed_totals; cbn [with1 with2 value1 value2];
              split; lra
            | unfold signed_totals; cbn [value1 value2]; split; lra ]);
  exact Hl.
Qed.

Lemma collect_increments_signed (dot : NodeAB Q) :
  Forall signed_totals (collect_increments dot).
Proof.
  unfold collect_increments.
  assert (Hg : forall loc, Forall signed_totals loc ->
                 Forall signed_totals (fold_left collect_step dot loc)).
  { induction dot as [|it dot IH]; intros loc Hl; cbn [fold_left]; [exact Hl|].
    apply IH. apply collect_step_signed. exact Hl. }
  apply Hg. constructor.
Qed.

Lemma signed_get (inc : NodeAB Q) (n m : N) :
  Forall signed_totals inc -> 0 <= get_sym1 inc n m /\ get_sym2 inc n m <= 0.
Proof.
  intro Hi. split.
  - apply (get_sym1_Forall (fun x => 0 <= x)); [|qsimp; lra].
    eapply Forall_impl; [|exact Hi]. intros e [He _]. exact He.
  - apply (get_sym2_Forall (fun x => x <= 0)); [|qsimp; lra].
    eapply Forall_impl; [|exact Hi]. intros e [_ He]. exact He.
Qed.

Lemma unit_get (lim : NodeAB Q) (n m : N) :
  Forall unit_limits lim ->
  0 <= get_sym1 lim n m <= 1 /\ 0 <= get_sym2 lim n m <= 1.
Proof.
  intro Hi. split.
  - apply (get_sym1_Forall (fun x => 0 <= x <= 1)); [|qsimp; lra].
    eapply Forall_impl; [|exact Hi]. intros e [He _]. exact He.
  - apply (get_sym2_Forall (fun x => 0 <= x <= 1)); [|qsimp; lra].
    eapply Forall_impl; [|exact Hi]. intros e [_ He]. exact He.
Qed.

Lemma set_sym1_unit (lim : NodeAB Q) (n m : N) (x : Q) :
  0 <= x <= 1 -> Forall unit_limits lim -> Forall unit_limits (set_sym1 lim n m x).
Proof.
  intros Hx Hl. unfold set_sym1. apply upd_sym_Forall; [exact Hl | |].
  - intros e [He1 He2]. unfold unit_limits. cbn [with1 value1 value2]. split; lra.
  - unfold unit_limits. cbn [value1 value2]. qsimp. split; lra.
Qed.

Lemma set_sym2_unit (lim : NodeAB Q) (n m : N) (x : Q) :
  0 <= x <= 1 -> Forall unit_limits lim -> Forall unit_limits (set_sym2 lim n m x).
Proof.
  intros Hx Hl. unfold set_sym2. apply upd_sym_Forall; [exact Hl | |].
  - intros e [He1 He2]. unfold unit_limits. cbn [with2 value1 value2]. split; lra.
  - unfold unit_limits. cbn [value1 value2]. qsimp. split; lra.
Qed.

Lemma std_min_unit (a b : Q) : 0 <= a <= 1 -> 0 <= b -> 0 <= std_min a b <= 1.
Proof.
  intros Ha Hb. unfold std_min. qsimp.
  destruct (Qlt_bool b a) eqn:E; [apply Qlt_bool_iff in E; lra | lra].
Qed.

Lemma ratio_nonneg (a b : Q) : 0 <= a -> 0 < b -> 0 <= a / b.
Proof.
  intros Ha Hb. unfold Qdiv. apply Qmult_le_0_compat; [exact Ha|].
  apply Qlt_le_weak. apply Qinv_lt_0_compat. exact Hb.
Qed.

Lemma ratio_neg_neg (a b : Q) : a <= 0 -> b < 0 -> 0 <= a / b.
Proof.
  intros Ha Hb.
  assert (E : a / b == (- a) / (- b)).
  { field. intro Hz. lra. }
  rewrite E. apply ratio_nonneg; lra.
Qed.

Lemma ratio_le_one (a b : Q) : a <= b -> 0 < b -> a / b <= 1.
Proof.
  intros Ha Hb. apply Qle_shift_div_r; [exact Hb | lra].
Qed.

Lemma ratio_le_one_neg (a b : Q) : b <= a -> b < 0 -> a / b <= 1.
Proof.
  intros Ha Hb.
  assert (E : a / b == (- a) / (- b)).
  { field. intro Hz. lra. }
  rewrite E. apply ratio_le_one; lra.
Qed.

Lemma limit_step_unit (dt : Q) (inc lim : NodeAB Q) (alpha : PFEntry Q) :
  0 <= dt -> 0 <= value alpha <= 1 ->
  Forall signed_totals inc -> Forall unit_limits lim ->
  Forall unit_limits (limit_step dt inc lim alpha).
Proof.
  intros Hdt Hv Hinc Hlim. unfold limit_step. qsimp.
  destruct (signed_get inc (index alpha) 0%N Hinc) as [Hp Hn].
  set (pos := get_sym1 inc (index alpha) 0) in *.
  set (neg := get_sym2 inc (index alpha) 0) in *.
  assert (H1 : 0 <= 1 <= 1) by lra.
  assert (Hl1 : Forall unit_limits
                 (set_sym1 (set_sym2 lim (index alpha) 0 1) (index alpha) 0 1)).
  { apply set_sym1_unit; [exact H1|]. apply set_sym2_unit; [exact H1 | exact Hlim]. }
  set (lim1 := set_sym1 (set_sym2 lim (index alpha) 0 1) (index alpha) 0 1) in *.
  assert (Hpd : 0 <= pos * dt) by (apply Qmult_le_0_compat; assumption).
  assert (Hnd : neg * dt <= 0) by nra.
  assert (Hl2 : Forall unit_limits
            (if Qlt_bool (value alpha + (pos + neg) * dt) 0
             then set_sym2 lim1 (index alpha) 0
                    (std_min (get_sym2 lim1 (index alpha) 0)
                             (- (value alpha + pos * dt) / (neg * dt)))
             else lim1)).
  { destruct (Qlt_bool (value alpha + (pos + neg) * dt) 0) eqn:E; [|exact Hl1].
    apply Qlt_bool_iff in E. apply set_sym2_unit; [|exact Hl1].
    apply std_min_unit; [apply (unit_get lim1 _ _ Hl1)|].
    apply ratio_neg_neg; nra. }
  match goal with |- Forall _ (if _ then set_sym1 ?l _ _ _ else _) =>
    set (lim2 := l) in * end.
  destruct (Qlt_bool 1 (value alpha + (pos + neg) * dt)) eqn:E; [|exact Hl2].
  apply Qlt_bool_iff in E. apply set_sym1_unit; [|exact Hl2].
  apply std_min_unit; [apply (unit_get lim2 _ _ Hl2)|].
  apply ratio_nonneg; nra.
Qed.

Lemma calculate_limits_unit (dt : Q) (fields : list (PFEntry Q)) (inc : NodeAB Q) :
  0 <= dt -> unit_values fields -> Forall signed_totals inc ->
  Forall unit_limits (calculate_limits dt fields inc).
Proof.
  intros Hdt Hu Hinc. unfold calculate_limits.
  assert (Hg : forall lim, Forall unit_limits lim ->
            Forall unit_limits (fold_left (limit_step dt inc) fields lim)).
  { induction fields as [|a fields IH]; intros lim Hl; cbn [fold_left]; [exact Hl|].
    apply IH; [intros x Hx; apply Hu; right; exact Hx|].
    apply limit_step_unit; try assumption. apply Hu. left. reflexivity. }
  apply Hg. constructor.
Qed.

Lemma limited_from_refl (e : ABEntry Q) : limited_from e e.
Proof.
  split; [reflexivity|]. split; [reflexivity|]. exists 1, 1.
  split; [lra|]. split; [lra|]. split; ring.
Qed.

Lemma limited_from_trans (a b c : ABEntry Q) :
  limited_from a b -> limited_from b c -> limited_from a c.
Proof.
  intros (A1 & A2 & c1 & c2 & Hc1 & Hc2 & V1 & V2)
         (B1 & B2 & d1 & d2 & Hd1 & Hd2 & W1 & W2).
  split; [congruence|]. split; [congruence|].
  exists (d1 * c1), (d2 * c2).
  split; [nra|]. split; [nra|]. split.
  - rewrite W1, V1. ring.
  - rewrite W2, V2. ring.
Qed.

Lemma limit_record_limited (lim : NodeAB Q) (it : ABEntry Q) :
  Forall unit_limits lim -> limited_from it (fst (limit_record lim it)).
Proof.
  intro Hl. unfold limit_record. qsimp.
  assert (Hm : forall a b c d,
             0 <= std_min (get_sym1 lim a b) (get_sym2 lim c d) <= 1 /\
             0 <= std_min (get_sym2 lim a b) (get_sym1 lim c d) <= 1).
  { intros a b c d.
    destruct (unit_get lim a b Hl) as [U1 U2].
    destruct (unit_get lim c d Hl) as [U3 U4].
    split; apply std_min_unit; lra. }
  destruct (Qlt_bool (value1 it) 0) eqn:E1.
  - apply Qlt_bool_iff in E1.
    set (t := std_min (get_sym2 lim (indexA it) 0) (get_sym1 lim (indexB it) 0)).
    assert (Ht : 0 <= t <= 1)
      by apply (proj2 (Hm (indexA it) 0%N (indexB it) 0%N)).
    assert (E2 : Qlt_bool 0 (value1 it * t) = false).
    { apply Qlt_bool_false. nra. }
    rewrite E2. cbn [fst].
    split; [reflexivity|]. split; [reflexivity|].
    exists t, 1. cbn [with1 value1 value2].
    split; [lra|]. split; [lra|]. split; ring.
  - destruct (Qlt_bool 0 (value1 it)) eqn:E2; cbn [fst].
    + set (t := std_min (get_sym1 lim (indexA it) 0) (get_sym2 lim (indexB it) 0)).
      assert (Ht : 0 <= t <= 1)
        by apply (proj1 (Hm (indexA it) 0%N (indexB it) 0%N)).
      split; [reflexivity|]. split; [reflexivity|].
      exists t, 1. cbn [with1 value1 value2].
      split; [lra|]. split; [lra|]. split; ring.
    + split; [reflexivity|]. split; [reflexivity|].
      exists 1, 1. cbn [with1 value1 value2].
      split; [lra|]. split; [lra|]. split; ring.
Qed.

Lemma limiting_pass_limited (dt : Q) (fields : list (PFEntry Q)) (dot : NodeAB Q) :
  0 <= dt -> unit_values fields ->
  Forall2 limited_from dot (fst (limiting_pass dt fields dot)).
Proof.
  intros Hdt Hu. unfold limiting_pass. cbn [fst]. rewrite map_map.
  assert (Hl : Forall unit_limits
                 (calculate_limits dt fields (collect_increments dot))).
  { apply calculate_limits_unit; [exact Hdt | exact Hu |].
    apply collect_increments_signed. }
  generalize dependent (calculate_limits dt fields (collect_increments dot)).
  intros lim Hl. induction dot as [|e dot IH]; cbn [map]; constructor.
  - apply limit_record_limited. exact Hl.
  - exact IH.
Qed.

Lemma Forall2_limited_trans (a b c : NodeAB Q) :
  Forall2 limited_from a b -> Forall2 limited_from b c -> Forall2 limited_from a c.
Proof.
  intro Hab. revert c. induction Hab as [|x y a b Hxy Hab IH]; intros c Hbc.
  - inversion Hbc. constructor.
  - inversion Hbc as [|y' z b' c' Hyz Hbc']; subst. constructor.
    + eapply limited_from_trans; eassumption.
    + apply IH. exact Hbc'.
Qed.

Lemma limiting_loop_limited (dt : Q) (fields : list (PFEntry Q)) :
  0 <= dt -> unit_values fields ->
  forall (fuel : nat) (k : Z) (dot dot' : NodeAB Q) (its : Z) (needed : bool),
    limiting_loop fuel dt fields k dot = Some (dot', its, needed) ->
    Forall2 limited_from dot dot'.
Proof.
  intros Hdt Hu fuel. induction fuel as [|fuel IH]; intros k dot dot' its needed;
    cbn [limiting_loop]; [discriminate|].
  pose proof (limiting_pass_limited dt fields dot Hdt Hu) as Hp.
  destruct (limiting_pass dt fields dot) as [d1 nd]. cbn [fst] in Hp.
  destruct (if (k + 1 >? 24)%Z then false else nd).
  - intro E. apply IH in E. eapply Forall2_limited_trans; eassumption.
  - intro E. inversion E; subst. exact Hp.
Qed.

Lemma pin_step_entries (dot0 : NodeAB Q) (fields : list (PFEntry Q))
    (acc : NodeAB Q) (pa : nat * PFEntry Q) :
  Forall (fun e => In e dot0 \/ (value1 e = 0 /\ value2 e = 0)) acc ->
  Forall (fun e => In e dot0 \/ (value1 e = 0 /\ value2 e = 0))
         (pin_step fields acc pa).
Proof.
  intro Ha. unfold pin_step. destruct pa as [p alpha].
  destruct (_ || _); [|exact Ha].
  generalize dependent acc.
  induction (others p fields) as [|beta l IH]; intros acc Ha; cbn [fold_left];
    [exact Ha|].
  apply IH. unfold set_sym_pair. apply upd_sym_Forall; [exact Ha | |].
  - intros e _. right. split; reflexivity.
  - right. split; reflexivity.
Qed.

Lemma pin_out_of_bounds_entries (fields : list (PFEntry Q)) (dot : NodeAB Q) :
  forall e, In e (remove_zero_sets (pin_out_of_bounds fields dot)) -> In e dot.
Proof.
  intros e He. unfold remove_zero_sets in He. apply filter_In in He.
  destruct He as [He Hnz].
  assert (Hinv : Forall (fun e => In e dot \/ (value1 e = 0 /\ value2 e = 0))
                        (pin_out_of_bounds fields dot)).
  { unfold pin_out_of_bounds.
    assert (Hg : forall L acc,
              Forall (fun e => In e dot \/ (value1 e = 0 /\ value2 e = 0)) acc ->
              Forall (fun e => In e dot \/ (value1 e = 0 /\ value2 e = 0))
                     (fold_left (pin_step fields) L acc)).
    { induction L as [|pa L IH]; intros acc Ha; cbn [fold_left]; [exact Ha|].
      apply IH. apply pin_step_entries. exact Ha. }
    apply Hg. apply Forall_forall. intros x Hx. left. exact Hx. }
  rewrite Forall_forall in Hinv. destruct (Hinv e He) as [Hin | [Z1 Z2]];
    [exact Hin|].
  exfalso. qsimp. rewrite Z1, Z2 in Hnz. discriminate.
Qed.

Lemma Forall2_limited_In (a b : NodeAB Q) (e' : ABEntry Q) :
  Forall2 limited_from a b -> In e' b -> exists e, In e a /\ limited_from e e'.
Proof.
  intro Hab. induction Hab as [|x y a b Hxy Hab IH]; intros Hin; [destruct Hin|].
  destruct Hin as [<-|Hin].
  - exists x. split; [left; reflexivity | exact Hxy].
  - destruct (IH Hin) as (e & He & Hl). exists e. split; [right; exact He | exact Hl].
Qed.

Lemma normalize_single_limited (dt : Q) (fields : list (PFEntry Q))
    (e e' : ABEntry Q) :
  unit_values fields ->
  In e' (normalize_single dt fields [e]) -> limited_from e e'.
Proof.
  intros Hu. unfold normalize_single.
  pose proof (get_value_unit fields (indexA e) Hu) as Hold.
  set (old := get_value fields (indexA e)) in *.
  destruct (_ || _); [intros []|].
  qsimp. set (valueA := (value1 e + value2 e) * dt).
  assert (Hn : forall norm, 0 <= norm <= 1 ->
            In e' (if Qlt_bool DBL_EPSILON norm then scale [e] norm else []) ->
            limited_from e e').
  { intros norm Hnorm. destruct (Qlt_bool DBL_EPSILON norm); [|intros []].
    intros [<-|[]]. split; [reflexivity|]. split; [reflexivity|].
    exists norm, norm. cbn [with1 with2 value1 value2]. qsimp.
    split; [exact Hnorm|]. split; [exact Hnorm|]. split; ring. }
  qsimp. apply Hn.
  destruct (Qlt_bool (old + valueA) 0) eqn:E1.
  - apply Qlt_bool_iff in E1.
    assert (Hr : 0 <= (- old) / valueA) by (apply ratio_neg_neg; lra).
    assert (Hr1 : (- old) / valueA <= 1) by (apply ratio_le_one_neg; lra).
    lra.
  - destruct (Qlt_bool 1 (old + valueA)) eqn:E2; [|lra].
    apply Qlt_bool_iff in E2.
    assert (Hr : 0 <= (1 - old) / valueA) by (apply ratio_nonneg; lra).
    assert (Hr1 : (1 - old) / valueA <= 1) by (apply ratio_le_one; lra).
    lra.
Qed.

(** X23: in exact arithmetic, for a cell whose values lie in [[0,1]] and
    a time step that is not negative, [NormalizeIncrementsSR] returns for
    every store, and every record it leaves in the store is a record the
    store held before, with each of its two tracked values multiplied by a
    factor between 0 and 1: the pass creates no record and neither
    enlarges nor reverses an increment. *)
Theorem normalisation_only_reduces (fuel : nat) (dt : Q) (n : NodePF Q)
    (dot : NodeAB Q) :
  unit_values (Fields n) -> 0 <= dt -> (25 <= fuel)%nat ->
  exists r,
    NormalizeIncrementsSR_cell fuel dt n dot = Some r /\
    forall e', In e' (increments r) -> exists e, In e dot /\ limited_from e e'.
Proof.
  intros Hu Hdt Hfuel. unfold NormalizeIncrementsSR_cell.
  assert (Hid : exists r, Some (untouched dot) = Some r /\
            forall e', In e' (increments r) ->
                       exists e, In e dot /\ limited_from e e').
  { eexists. split; [reflexivity|]. cbn [untouched increments].
    intros e' He. exists e'. split; [exact He | apply limited_from_refl]. }
  destruct (wide_interface n); [|exact Hid].
  destruct dot as [|e0 [|e1 dot]]; [exact Hid | |].
  - eexists. split; [reflexivity|]. cbn [untouched increments].
    intros e' He. exists e0. split; [left; reflexivity|].
    eapply normalize_single_limited; eassumption.
  - clear Hid. unfold normalize_general.
    pose proof (pin_out_of_bounds_entries (Fields n) (e0 :: e1 :: dot)) as Hsub.
    destruct (remove_zero_sets (pin_out_of_bounds (Fields n) (e0 :: e1 :: dot)))
      as [|d0 dot1] eqn:Ed.
    + eexists. split; [reflexivity|]. cbn [untouched increments]. intros e' [].
    + destruct (limiting_loop_total fuel dt (Fields n) 0%Z (d0 :: dot1))
        as (dot2 & its & nd & E & _); try lia.
      rewrite E. eexists. split; [reflexivity|]. cbn [increments].
      intros e' He. unfold clean_up in He. apply filter_In in He.
      destruct He as [He _].
      pose proof (limiting_loop_limited dt (Fields n) Hdt Hu _ _ _ _ _ _ E) as Hl.
      destruct (Forall2_limited_In _ _ e' Hl He) as (e & Hin & Hlim).
      exists e. split; [apply Hsub; exact Hin | exact Hlim].
Qed.

End LimitingExact.

Lemma normalisation_only_reduces_witness :
  unit_values (Fields (interface_cell [pf 5%N (6 # 10)%Q; pf 9%N (4 # 10)%Q])) /\
  (0 <= 1 # 2)%Q /\ (25 <= 25)%nat /\
  exists r,
    NormalizeIncrementsSR_cell 25 (1 # 2)%Q
      (interface_cell [pf 5%N (6 # 10)%Q; pf 9%N (4 # 10)%Q])
      [ab 5%N 9%N 2%Q 0%Q; ab 9%N 5%N (1 # 2)%Q 0%Q] = Some r /\
    forall e', In e' (increments r) ->
      exists e, In e [ab 5%N 9%N 2%Q 0%Q; ab 9%N 5%N (1 # 2)%Q 0%Q]
                /\ limited_from e e'.
Proof.
  assert (Hu : unit_values
                 (Fields (interface_cell [pf 5%N (6 # 10)%Q; pf 9%N (4 # 10)%Q]))).
  { intros e [He | [He | []]]; subst e; cbn [pf value]; split; discriminate. }
  assert (Hdt : (0 <= 1 # 2)%Q) by discriminate.
  split; [exact Hu|]. split; [exact Hdt|]. split; [apply Nat.le_refl|].
  exact (normalisation_only_reduces 25 (1 # 2)%Q _ _ Hu Hdt (Nat.le_refl 25)).
Defined.

(** ** Settings: the history of the grid *)

Section HistoryPosition.
Context {G : Type}.

Lemma history_scan_seq (t : Z) : (0 <= t)%Z ->
  forall (len a idx : nat),
    history_scan (seq a len) t idx
    = if (Z.of_nat a <=? t)%Z
      then (if (len =? 0)%nat then idx
            else Nat.min (Z.to_nat t) (a + len - 1))
      else idx.
Proof.
  intros Ht len. induction len as [|len IH]; intros a idx; cbn [seq history_scan].
  - destruct (Z.of_nat a <=? t)%Z; reflexivity.
  - destruct (Z.leb_spec (Z.of_nat a) t) as [Hle|Hgt]; [|reflexivity].
    rewrite IH. cbn [Nat.eqb].
    destruct (Z.leb_spec (Z.of_nat (S a)) t) as [Hle'|Hgt'].
    + destruct len; cbn [Nat.eqb]; lia.
    + lia.
Qed.

(** X24: [Settings::GridHistoryParameters] returns the record at the
    position [min(time_step, size - 1)] of the history (the first one for a
    negative time step): the records are chosen by their position, the time
    step stored in a record is not read.  On an empty history, and only
    then, it reads outside the history. *)
Theorem GridHistoryParameters_reads_by_position (GridHistory : list G)
    (time_step : Z) :
  GridHistoryParameters GridHistory time_step
  = nth_error GridHistory
      (Nat.min (Z.to_nat time_step) (length GridHistory - 1))
  /\ (GridHistoryParameters GridHistory time_step = None <-> GridHistory = []).
Proof.
  assert (E : GridHistoryParameters GridHistory time_step
              = nth_error GridHistory
                  (Nat.min (Z.to_nat time_step) (length GridHistory - 1))).
  { unfold GridHistoryParameters.
    destruct (Z.ltb_spec time_step 0) as [Hneg|Hpos].
    - rewrite history_scan_seq by lia. cbn [Z.of_nat Z.leb Z.compare].
      replace (Z.to_nat time_step) with 0%nat by lia.
      destruct (length GridHistory); reflexivity.
    - rewrite history_scan_seq by lia. cbn [Z.of_nat].
      destruct (Z.leb_spec 0 time_step); [|lia].
      destruct (length GridHistory) eqn:L; cbn [Nat.eqb].
      + rewrite Nat.min_0_r. reflexivity.
      + reflexivity. }
  split; [exact E|]. rewrite E. rewrite nth_error_None.
  destruct GridHistory; cbn [length]; split; intro Hx;
    [reflexivity | lia | lia | discriminate].
Qed.

End HistoryPosition.

(** ** Nucleation: shielding and the generation of seeds *)

Section ShieldingGeneric.
Context {T : Type} `{Scalar T} {Orientation : Type}.

Lemma PositionNotShielded_spec (P : @Nucleation.NucleationParameters T Orientation)
    (pos : Z * Z * Z) :
  Nucleation.PositionNotShielded P pos = true <->
  forall it, In it (Nucleation.GeneratedNuclei P) ->
    sltb (Nucleation.distanceSquare P pos it)
         (smul (Nucleation.ShieldingRadius P) (Nucleation.ShieldingRadius P))
    = false.
Proof.
  unfold Nucleation.PositionNotShielded.
  set (RR := smul _ _).
  assert (Hg : forall l b,
            fold_left (fun my_return it =>
                         if sltb (Nucleation.distanceSquare P pos it) RR
                         then false else my_return) l b = true
            <-> b = true /\ forall it, In it l ->
                  sltb (Nucleation.distanceSquare P pos it) RR = false).
  { induction l as [|a l IH]; intro b; cbn [fold_left].
    - split; [intro Hb; split; [exact Hb | intros ? []] | intros [Hb _]; exact Hb].
    - rewrite IH. destruct (sltb (Nucleation.distanceSquare P pos a) RR) eqn:E.
      + split; [intros [Hx _]; discriminate|].
        intros [_ Hx]. specialize (Hx a (or_introl eq_refl)). congruence.
      + split.
        * intros [Hb Hl]. split; [exact Hb|].
          intros it [<-|Hit]; [exact E | apply Hl; exact Hit].
        * intros [Hb Hl]. split; [exact Hb|].
          intros it Hit. apply Hl. right. exact Hit. }
  rewrite Hg. split; [intros [_ Hx]; exact Hx | intro Hx; split; [reflexivity | exact Hx]].
Qed.

End ShieldingGeneric.

Section ShieldingExact.
Context {Orientation : Type}.
Local Open Scope Q_scope.

Lemma std_min_inject (a b : Z) :
  std_min (inject_Z a) (inject_Z b) == inject_Z (Z.min a b).
Proof.
  unfold std_min. qsimp.
  destruct (Qlt_bool (inject_Z b) (inject_Z a)) eqn:E.
  - apply Qlt_bool_iff in E. rewrite <- Zlt_Qlt in E.
    rewrite Z.min_r by lia. reflexivity.
  - apply Qlt_bool_false in E. rewrite <- Zle_Qle in E.
    rewrite Z.min_l by lia. reflexivity.
Qed.

Lemma Qabs_inject (a : Z) : Qabs (inject_Z a) = inject_Z (Z.abs a).
Proof. reflexivity. Qed.

Lemma axis_distance_min (x p b : Z) :
  Nucleation.axis_distance x p b
  == inject_Z (Z.min (Z.abs (x - p))
                     (Z.min (Z.abs (x - p + b)) (Z.abs (x - p - b)))).
Proof.
  unfold Nucleation.axis_distance. qsimp. rewrite !Qabs_inject.
  unfold std_min at 2. qsimp.
  destruct (Qlt_bool (inject_Z (Z.abs (x - p - b))) (inject_Z (Z.abs (x - p + b)))) eqn:E.
  - apply Qlt_bool_iff in E. rewrite <- Zlt_Qlt in E.
    rewrite std_min_inject. rewrite (Z.min_r (Z.abs (x - p + b))) by lia. reflexivity.
  - apply Qlt_bool_false in E. rewrite <- Zle_Qle in E.
    rewrite std_min_inject. rewrite (Z.min_l (Z.abs (x - p + b))) by lia. reflexivity.
Qed.

Lemma axis_distance_wrapped (x p b : Z) :
  (0 <= x <= b)%Z -> (0 <= p <= b)%Z ->
  Nucleation.axis_distance x p b
  == inject_Z (Z.min (Z.abs (x - p)) (b - Z.abs (x - p))).
Proof.
  intros Hx Hp. rewrite axis_distance_min.
  replace (Z.min (Z.abs (x - p)) (Z.min (Z.abs (x - p + b)) (Z.abs (x - p - b))))
    with (Z.min (Z.abs (x - p)) (b - Z.abs (x - p))) by lia.
  reflexivity.
Qed.

Lemma axis_distance_sym (x p b : Z) :
  Nucleation.axis_distance x p b == Nucleation.axis_distance p x b.
Proof.
  rewrite !axis_distance_min.
  replace (Z.min (Z.abs (x - p)) (Z.min (Z.abs (x - p + b)) (Z.abs (x - p - b))))
    with (Z.min (Z.abs (p - x)) (Z.min (Z.abs (p - x + b)) (Z.abs (p - x - b))))
    by lia.
  reflexivity.
Qed.

Lemma PositionNotShielded_exact
    (P : @Nucleation.NucleationParameters Q Orientation) (pos : Z * Z * Z) :
  Nucleation.PositionNotShielded P pos = true <->
  forall it, In it (Nucleation.GeneratedNuclei P) ->
    Nucleation.ShieldingRadius P * Nucleation.ShieldingRadius P
    <= Nucleation.distanceSquare P pos it.
Proof.
  rewrite PositionNotShielded_spec. qsimp.
  split; intros Hx it Hit; specialize (Hx it Hit).
  - apply Qlt_bool_false in Hx. exact Hx.
  - apply Qlt_bool_false. exact Hx.
Qed.

(** X25: in exact arithmetic [PositionNotShielded] accepts a position
    exactly when no generated nucleus is closer to it than the shielding
    radius, in a distance that wraps around on every axis with the period
    [PositionDistribution.b()], the largest coordinate a position can have:
    between two coordinates of the range it is the smaller of [|x - p|] and
    [b - |x - p|], so the coordinates 0 and [b] count as the same place. *)
Theorem shielding_wraps_at_the_largest_coordinate
    (P : @Nucleation.NucleationParameters Q Orientation) (pos : Z * Z * Z) :
  (Nucleation.PositionNotShielded P pos = true <->
   forall it, In it (Nucleation.GeneratedNuclei P) ->
     Nucleation.ShieldingRadius P * Nucleation.ShieldingRadius P
     <= Nucleation.distanceSquare P pos it) /\
  (forall x p b : Z,
     (0 <= x <= b)%Z -> (0 <= p <= b)%Z ->
     Nucleation.axis_distance x p b
     == inject_Z (Z.min (Z.abs (x - p)) (b - Z.abs (x - p)))) /\
  (forall b : Z, (0 <= b)%Z ->
     Nucleation.axis_distance 0 b b == 0 /\ Nucleation.axis_distance b 0 b == 0).
Proof.
  split; [|split].
  - apply PositionNotShielded_exact.
  - exact axis_distance_wrapped.
  - intros b Hb. split; rewrite axis_distance_wrapped by lia.
    + replace (Z.min (Z.abs (0 - b)) (b - Z.abs (0 - b))) with 0%Z by lia. reflexivity.
    + replace (Z.min (Z.abs (b - 0)) (b - Z.abs (b - 0))) with 0%Z by lia. reflexivity.
Qed.

End ShieldingExact.

Section SeedLoopEnds.
Context {T : Type} `{Scalar T} {Orientation Gen : Type}.
Variable SizeN SizeC SizeU : Gen -> T * Gen.
Variable PosX PosY PosZ : Gen -> Z * Gen.
Variable SetSeedOrientation :
  @Nucleation.NucleationParameters T Orientation -> Gen -> Orientation * Gen.
Variable check : @Nucleation.NucleationParameters T Orientation -> Z * Z * Z -> bool.
Variable NumberOfAttempts : Z.

Let turn := Nucleation.seed_turn SizeN SizeC SizeU PosX PosY PosZ
              SetSeedOrientation check.
Let loop := fun fuel => Nucleation.seed_loop SizeN SizeC SizeU PosX PosY PosZ
              SetSeedOrientation fuel check NumberOfAttempts.

Lemma seed_turn_cases (st : Nucleation.SeedLoop) :
  (Nucleation.Parameters (turn st) = Nucleation.Parameters st /\
   Nucleation.attempts (turn st) = (Nucleation.attempts st + 1)%Z)
  \/ exists locSeed,
       Nucleation.Parameters (turn st)
       = Nucleation.push_back_seed (Nucleation.Parameters st) locSeed /\
       Nucleation.attempts (turn st) = 0%Z /\
       sleb (Nucleation.SeedRadiusMIN (Nucleation.Parameters st))
            (Nucleation.radius locSeed) = true /\
       sleb (Nucleation.radius locSeed)
            (Nucleation.SeedRadiusMAX (Nucleation.Parameters st)) = true /\
       check (Nucleation.Parameters st) (Nucleation.position locSeed) = true.
Proof.
  unfold turn, Nucleation.seed_turn.
  destruct (Nucleation.SetSeedRadius _ _ _ _ _) as [r g1].
  destruct (sleb _ r) eqn:E1; cbn [andb]; [|left; split; reflexivity].
  destruct (sleb r _) eqn:E2; [|left; split; reflexivity].
  destruct (Nucleation.SetSeedPosition _ _ _ _ _) as [pos g2].
  destruct (check _ pos) eqn:E3; [|left; split; reflexivity].
  destruct (SetSeedOrientation _ g2) as [o g3].
  right. eexists. cbn [Nucleation.Parameters Nucleation.attempts].
  split; [reflexivity|]. split; [reflexivity|].
  cbn [Nucleation.radius Nucleation.position]. auto.
Qed.

Lemma seed_loop_ends (fuel : nat) :
  forall st : Nucleation.SeedLoop,
    (0 <= Nucleation.attempts st)%Z ->
    (Nucleation.turns_left NumberOfAttempts st < fuel)%nat ->
    exists st',
      loop fuel st = Some st' /\
      Nucleation.grown check (Nucleation.Parameters st) (Nucleation.Parameters st') /\
      ((Nucleation.Nsites (Nucleation.Parameters st')
        <= Nucleation.Nseeds (Nucleation.Parameters st'))%N
       \/ (NumberOfAttempts <= Nucleation.attempts st')%Z).
Proof.
  induction fuel as [|fuel IH]; intros st Ha Hf; [lia|].
  unfold loop. cbn [Nucleation.seed_loop]. unfold Nucleation.turns_left in Hf.
  destruct (N.ltb_spec (Nucleation.Nseeds (Nucleation.Parameters st))
                       (Nucleation.Nsites (Nucleation.Parameters st))) as [Hs|Hs];
    cbn [andb] in *.
  - destruct (Z.ltb_spec (Nucleation.attempts st) NumberOfAttempts) as [Hat|Hat].
    + fold turn. fold (loop fuel).
      destruct (seed_turn_cases st) as [[E1 E2] | (nu & E1 & E2 & R1 & R2 & C)].
      * destruct (IH (turn st)) as (st' & L & G & X).
        { rewrite E2. lia. }
        { unfold Nucleation.turns_left. rewrite E1, E2.
          destruct (N.ltb_spec (Nucleation.Nseeds (Nucleation.Parameters st))
                               (Nucleation.Nsites (Nucleation.Parameters st)));
            [|lia]. cbn [andb].
          set (K := (_ * Z.to_nat NumberOfAttempts)%nat) in *.
          destruct (Z.ltb_spec (Nucleation.attempts st + 1) NumberOfAttempts); lia. }
        exists st'. split; [exact L|]. split; [rewrite <- E1; exact G | exact X].
      * destruct (IH (turn st)) as (st' & L & G & X).
        { rewrite E2. lia. }
        { unfold Nucleation.turns_left. rewrite E1, E2.
          cbn [Nucleation.push_back_seed Nucleation.Nseeds Nucleation.Nsites].
          destruct (N.ltb_spec (Nucleation.Nseeds (Nucleation.Parameters st) + 1)
                               (Nucleation.Nsites (Nucleation.Parameters st)));
            cbn [andb]; [|clear - Hf Hat Ha;
                           set (K := (_ * Z.to_nat NumberOfAttempts)%nat) in *; lia].
          destruct (Z.ltb_spec 0 NumberOfAttempts); [|lia].
          replace (N.to_nat (Nucleation.Nsites (Nucleation.Parameters st)
                             - Nucleation.Nseeds (Nucleation.Parameters st)) - 1)%nat
            with (S (N.to_nat (Nucleation.Nsites (Nucleation.Parameters st)
                     - (Nucleation.Nseeds (Nucleation.Parameters st) + 1)) - 1))%nat
            in Hf by lia.
          cbn [Nat.mul] in Hf.
          set (K := (_ * Z.to_nat NumberOfAttempts)%nat) in *. lia. }
        exists st'. split; [exact L|]. split; [|exact X].
        rewrite E1 in G. eapply Nucleation.grown_seed; eassumption.
    + exists st. split; [reflexivity|]. split; [constructor | right; exact Hat].
  - exists st. split; [reflexivity|]. split; [constructor | left; exact Hs].
Qed.

Lemma grown_extends (P P' : Nucleation.NucleationParameters) :
  Nucleation.grown check P P' ->
  exists new,
    Nucleation.GeneratedNuclei P' = Nucleation.GeneratedNuclei P ++ new /\
    Nucleation.Nseeds P' = (Nucleation.Nseeds P + N.of_nat (length new))%N /\
    (Nucleation.Nseeds P' <= N.max (Nucleation.Nsites P) (Nucleation.Nseeds P))%N /\
    Nucleation.Nsites P' = Nucleation.Nsites P /\
    Nucleation.ShieldingRadius P' = Nucleation.ShieldingRadius P /\
    Nucleation.PositionDistributionX_b P' = Nucleation.PositionDistributionX_b P /\
    Nucleation.PositionDistributionY_b P' = Nucleation.PositionDistributionY_b P /\
    Nucleation.PositionDistributionZ_b P' = Nucleation.PositionDistributionZ_b P /\
    Nucleation.MatrixPhase P' = Nucleation.MatrixPhase P /\
    Nucleation.SeedRadiusMIN P' = Nucleation.SeedRadiusMIN P /\
    Nucleation.SeedRadiusMAX P' = Nucleation.SeedRadiusMAX P /\
    Nucleation.Generated P' = Nucleation.Generated P /\
    forall nu, In nu new ->
      sleb (Nucleation.SeedRadiusMIN P) (Nucleation.radius nu) = true /\
      sleb (Nucleation.radius nu) (Nucleation.SeedRadiusMAX P) = true.
Proof.
  induction 1 as [P | P nu P' Hlt R1 R2 C G IH].
  - exists []. rewrite app_nil_r, N.add_0_r.
    repeat (split; [reflexivity || lia|]). intros nu [].
  - destruct IH as (new & I1 & I2 & I3 & I4 & I5 & I6 & I7 & I8 & I9 & I10 & I11 & I12 & I13).
    cbn [Nucleation.push_back_seed Nucleation.GeneratedNuclei Nucleation.Nseeds
         Nucleation.Nsites Nucleation.ShieldingRadius
         Nucleation.PositionDistributionX_b Nucleation.PositionDistributionY_b
         Nucleation.PositionDistributionZ_b Nucleation.MatrixPhase
         Nucleation.SeedRadiusMIN Nucleation.SeedRadiusMAX Nucleation.Generated] in *.
    exists (nu :: new). rewrite <- app_assoc in I1. cbn [app length] in *.
    split; [exact I1|]. split; [lia|]. split; [lia|].
    repeat (split; [assumption|]).
    intros x [<-|Hx]; [split; assumption | apply I13; exact Hx].
Qed.

Lemma GenerateSeeds_grown (fuel : nat) (Tx_Tmin Tx_Tmax : T)
    (P : Nucleation.NucleationParameters) (g : Gen) :
  (N.to_nat (Nucleation.Nsites P - Nucleation.Nseeds P)
   * Z.to_nat NumberOfAttempts < fuel)%nat ->
  exists P0 P' g',
    Nucleation.GenerateSeeds SizeN SizeC SizeU PosX PosY PosZ SetSeedOrientation
      fuel check NumberOfAttempts Tx_Tmin Tx_Tmax P g = Some (P', g') /\
    (P0 = P \/ P0 = Nucleation.set_Generated P true) /\
    Nucleation.grown check P0 P'.
Proof.
  intro Hf. unfold Nucleation.GenerateSeeds.
  destruct (_ && _).
  - match goal with |- context [Nucleation.seed_loop _ _ _ _ _ _ _ _ _ _ ?st0] =>
      destruct (seed_loop_ends fuel st0) as (st' & L & G & _) end.
    { cbn. lia. }
    { unfold Nucleation.turns_left.
      cbn [Nucleation.Parameters Nucleation.attempts Nucleation.set_Generated
           Nucleation.Nseeds Nucleation.Nsites].
      destruct (N.ltb_spec (Nucleation.Nseeds P) (Nucleation.Nsites P));
        cbn [andb]; [|lia].
      destruct (Z.ltb_spec 0 NumberOfAttempts); [|lia].
      rewrite Z.sub_0_r.
      replace (N.to_nat (Nucleation.Nsites P - Nucleation.Nseeds P))
        with (S (N.to_nat (Nucleation.Nsites P - Nucleation.Nseeds P) - 1)) in Hf
        by lia.
      cbn [Nat.mul] in Hf.
      set (K := (_ * Z.to_nat NumberOfAttempts)%nat) in *. lia. }
    unfold loop in L. rewrite L.
    exists (Nucleation.set_Generated P true), (Nucleation.Parameters st'),
           (Nucleation.generators st').
    split; [reflexivity|]. split; [right; reflexivity | exact G].
  - exists P, P, g. split; [reflexivity|]. split; [left; reflexivity | constructor].
Qed.

End SeedLoopEnds.

Section SeedsGenerated.
Context {T : Type} `{Scalar T} {Orientation Gen : Type}.
Variable SizeN SizeC SizeU : Gen -> T * Gen.
Variable PosX PosY PosZ : Gen -> Z * Gen.
Variable SetSeedOrientation :
  @Nucleation.NucleationParameters T Orientation -> Gen -> Orientation * Gen.
Variable check : @Nucleation.NucleationParameters T Orientation -> Z * Z * Z -> bool.

(** X26: for every outcome of the random draws and of the location check,
    [GenerateSeeds] returns after at most
    [(Nsites - Nseeds) * NumberOfAttempts] turns of its loop.  It appends
    the new seeds to [GeneratedNuclei] and counts them in [Nseeds], which
    does not pass [Nsites] (if it did not before), and every new seed has
    its radius within [[SeedRadiusMIN, SeedRadiusMAX]]. *)
Theorem GenerateSeeds_ends_within_the_attempts (fuel : nat)
    (NumberOfAttempts : Z) (Tx_Tmin Tx_Tmax : T)
    (P : Nucleation.NucleationParameters) (g : Gen) :
  (N.to_nat (Nucleation.Nsites P - Nucleation.Nseeds P)
   * Z.to_nat NumberOfAttempts < fuel)%nat ->
  exists P' g' new,
    Nucleation.GenerateSeeds SizeN SizeC SizeU PosX PosY PosZ SetSeedOrientation
      fuel check NumberOfAttempts Tx_Tmin Tx_Tmax P g = Some (P', g') /\
    Nucleation.GeneratedNuclei P' = Nucleation.GeneratedNuclei P ++ new /\
    Nucleation.Nseeds P' = (Nucleation.Nseeds P + N.of_nat (length new))%N /\
    (Nucleation.Nseeds P' <= N.max (Nucleation.Nsites P) (Nucleation.Nseeds P))%N /\
    Nucleation.Nsites P' = Nucleation.Nsites P /\
    forall nu, In nu new ->
      sleb (Nucleation.SeedRadiusMIN P) (Nucleation.radius nu) = true /\
      sleb (Nucleation.radius nu) (Nucleation.SeedRadiusMAX P) = true.
Proof.
  intro Hf.
  destruct (GenerateSeeds_grown SizeN SizeC SizeU PosX PosY PosZ
              SetSeedOrientation check NumberOfAttempts fuel Tx_Tmin Tx_Tmax P g Hf)
    as (P0 & P' & g' & E & HP0 & G).
  apply grown_extends in G.
  destruct G as (new & I1 & I2 & I3 & I4 & _ & _ & _ & _ & _ & _ & _ & _ & I13).
  exists P', g', new. split; [exact E|].
  destruct HP0 as [-> | ->];
    cbn [Nucleation.set_Generated Nucleation.GeneratedNuclei Nucleation.Nseeds
         Nucleation.Nsites Nucleation.SeedRadiusMIN Nucleation.SeedRadiusMAX] in *;
    repeat (split; [assumption|]); exact I13.
Qed.

End SeedsGenerated.

Lemma GenerateSeeds_ends_within_the_attempts_witness :
  (N.to_nat (Nucleation.Nsites two_sites - Nucleation.Nseeds two_sites)
   * Z.to_nat 3 < 7)%nat /\
  exists P' g' new,
    Nucleation.GenerateSeeds counted_size counted_size counted_size
      counted_position counted_position counted_position plain_orientation
      7 (fun _ _ => true) 3 300%Q 300%Q two_sites 0%nat = Some (P', g') /\
    Nucleation.GeneratedNuclei P' = Nucleation.GeneratedNuclei two_sites ++ new /\
    Nucleation.Nseeds P'
    = (Nucleation.Nseeds two_sites + N.of_nat (length new))%N /\
    (Nucleation.Nseeds P'
     <= N.max (Nucleation.Nsites two_sites) (Nucleation.Nseeds two_sites))%N /\
    Nucleation.Nsites P' = Nucleation.Nsites two_sites /\
    forall nu, In nu new ->
      sleb (Nucleation.SeedRadiusMIN two_sites) (Nucleation.radius nu) = true /\
      sleb (Nucleation.radius nu) (Nucleation.SeedRadiusMAX two_sites) = true.
Proof.
  assert (Hf : (N.to_nat (Nucleation.Nsites two_sites - Nucleation.Nseeds two_sites)
                * Z.to_nat 3 < 7)%nat) by (vm_compute; lia).
  split; [exact Hf|].
  exact (GenerateSeeds_ends_within_the_attempts counted_size counted_size
           counted_size counted_position counted_position counted_position
           plain_orientation (fun _ _ => true) 7 3 300%Q 300%Q two_sites 0%nat Hf).
Defined.

Section SeedsExact.
Context {Orientation Gen : Type}.
Variable SizeN SizeC SizeU : Gen -> Q * Gen.
Variable PosX PosY PosZ : Gen -> Z * Gen.
Variable SetSeedOrientation :
  @Nucleation.NucleationParameters Q Orientation -> Gen -> Orientation * Gen.
Variable PositionInLocalBounds : Z * Z * Z -> bool.
Variable Offset : Z * Z * Z.
Variable PhaseFields : Storage3D (NodePF Q).
Variable Fractions : Storage3D (N -> Q).
Local Open Scope Q_scope.

Lemma CheckLocation_accepts (P : @Nucleation.NucleationParameters Q Orientation)
    (pos : Z * Z * Z) :
  Nucleation.CheckLocation PositionInLocalBounds Offset PhaseFields Fractions P pos
  = true ->
  PositionInLocalBounds pos = true /\
  Nucleation.PositionNotShielded P pos = true /\
  1 # 4 < Nucleation.matrix_fraction_at Offset Fractions P pos.
Proof.
  unfold Nucleation.CheckLocation, Nucleation.matrix_fraction_at.
  destruct (PositionInLocalBounds pos); cbn [andb]; [|discriminate].
  destruct (Nucleation.PositionNotShielded P pos); [|discriminate].
  destruct pos as [[x y] z]. destruct Offset as [[ox oy] oz].
  set (f := Fractions _ _ _ _).
  assert (Hq : Nucleation.quarter == 1 # 4) by reflexivity.
  intro Hc. split; [reflexivity|]. split; [reflexivity|].
  destruct (Nucleation.LocationMode P); qsimp;
    repeat match goal with
           | Hx : _ && _ = true |- _ => apply andb_true_iff in Hx; destruct Hx
           end;
    repeat match goal with
           | Hx : Qlt_bool _ _ = true |- _ => apply Qlt_bool_iff in Hx
           | Hx : Qeq_bool _ _ = true |- _ => apply Qeq_bool_iff in Hx
           end;
    lra.
Qed.

Lemma grown_shielded (P P' : @Nucleation.NucleationParameters Q Orientation) :
  Nucleation.grown
    (Nucleation.CheckLocation PositionInLocalBounds Offset PhaseFields Fractions)
    P P' ->
  forall (i j : nat) (nu_i nu_j : Nucleation.Nucleus),
    (i < j)%nat -> (length (Nucleation.GeneratedNuclei P) <= j)%nat ->
    nth_error (Nucleation.GeneratedNuclei P') i = Some nu_i ->
    nth_error (Nucleation.GeneratedNuclei P') j = Some nu_j ->
    Nucleation.ShieldingRadius P * Nucleation.ShieldingRadius P
    <= Nucleation.distanceSquare P (Nucleation.position nu_j) nu_i /\
    PositionInLocalBounds (Nucleation.position nu_j) = true /\
    1 # 4 < Nucleation.matrix_fraction_at Offset Fractions P
              (Nucleation.position nu_j).
Proof.
  induction 1 as [P | P nu P' Hlt R1 R2 C G IH]; intros i j nu_i nu_j Hij Hj Hi Hnj.
  - exfalso. assert (Hx : nth_error (Nucleation.GeneratedNuclei P) j <> None)
      by congruence.
    apply nth_error_Some in Hx. lia.
  - destruct (Nat.eq_dec j (length (Nucleation.GeneratedNuclei P))) as [Ej|Ej].
    + destruct (grown_extends _ _ _ G) as (new & I1 & _).
      cbn [Nucleation.push_back_seed Nucleation.GeneratedNuclei] in I1.
      rewrite <- app_assoc in I1. cbn [app] in I1.
      rewrite I1 in Hi, Hnj.
      rewrite nth_error_app1 in Hi by lia.
      rewrite nth_error_app2 in Hnj by lia.
      replace (j - length (Nucleation.GeneratedNuclei P))%nat with 0%nat in Hnj by lia.
      cbn [nth_error] in Hnj. inversion Hnj; subst nu_j.
      destruct (CheckLocation_accepts P _ C) as (A1 & A2 & A3).
      split; [|split; assumption].
      apply (proj1 (PositionNotShielded_exact P _)); [exact A2|].
      eapply nth_error_In. exact Hi.
    + apply (IH i j nu_i nu_j Hij); [|exact Hi | exact Hnj].
      cbn [Nucleation.push_back_seed Nucleation.GeneratedNuclei].
      rewrite length_app. cbn [length]. lia.
Qed.

(** X27: in exact arithmetic and with [CheckLocation] as the location
    check, every seed that [GenerateSeeds] appends lies within the local
    bounds, in a cell whose matrix phase fraction exceeds 0.25, and keeps
    at least the shielding radius (in the wrapped distance of
    [PositionNotShielded]) from every nucleus that precedes it in
    [GeneratedNuclei], old or new. *)
Theorem generated_seeds_keep_their_distance (fuel : nat)
    (NumberOfAttempts : Z) (Tx_Tmin Tx_Tmax : Q)
    (P : Nucleation.NucleationParameters) (g : Gen) :
  (N.to_nat (Nucleation.Nsites P - Nucleation.Nseeds P)
   * Z.to_nat NumberOfAttempts < fuel)%nat ->
  exists P' g',
    Nucleation.GenerateSeeds SizeN SizeC SizeU PosX PosY PosZ SetSeedOrientation
      fuel
      (Nucleation.CheckLocation PositionInLocalBounds Offset PhaseFields Fractions)
      NumberOfAttempts Tx_Tmin Tx_Tmax P g = Some (P', g') /\
    forall (i j : nat) (nu_i nu_j : Nucleation.Nucleus),
      (i < j)%nat -> (length (Nucleation.GeneratedNuclei P) <= j)%nat ->
      nth_error (Nucleation.GeneratedNuclei P') i = Some nu_i ->
      nth_error (Nucleation.GeneratedNuclei P') j = Some nu_j ->
      Nucleation.ShieldingRadius P * Nucleation.ShieldingRadius P
      <= Nucleation.distanceSquare P (Nucleation.position nu_j) nu_i /\
      PositionInLocalBounds (Nucleation.position nu_j) = true /\
      1 # 4 < Nucleation.matrix_fraction_at Offset Fractions P
                (Nucleation.position nu_j).
Proof.
  intro Hf.
  destruct (GenerateSeeds_grown SizeN SizeC SizeU PosX PosY PosZ
              SetSeedOrientation
              (Nucleation.CheckLocation PositionInLocalBounds Offset PhaseFields
                 Fractions)
              NumberOfAttempts fuel Tx_Tmin Tx_Tmax P g Hf)
    as (P0 & P' & g' & E & HP0 & G).
  exists P', g'. split; [exact E|].
  intros i j nu_i nu_j Hij Hj Hi Hnj.
  destruct HP0 as [-> | ->].
  - exact (grown_shielded _ _ G i j nu_i nu_j Hij Hj Hi Hnj).
  - exact (grown_shielded _ _ G i j nu_i nu_j Hij Hj Hi Hnj).
Qed.

End SeedsExact.

Lemma generated_seeds_keep_their_distance_witness :
  (N.to_nat (Nucleation.Nsites two_sites - Nucleation.Nseeds two_sites)
   * Z.to_nat 3 < 7)%nat /\
  exists P' g',
    Nucleation.GenerateSeeds counted_size counted_size counted_size
      counted_position counted_position counted_position plain_orientation
      7
      (Nucleation.CheckLocation (fun _ => true) (0, 0, 0)%Z
         (fun _ _ _ => bulk_cell 0%N) (fun _ _ _ _ => 1%Q))
      3 300%Q 300%Q two_sites 0%nat = Some (P', g') /\
    forall (i j : nat) (nu_i nu_j : Nucleation.Nucleus),
      (i < j)%nat -> (length (Nucleation.GeneratedNuclei two_sites) <= j)%nat ->
      nth_error (Nucleation.GeneratedNuclei P') i = Some nu_i ->
      nth_error (Nucleation.GeneratedNuclei P') j = Some nu_j ->
      (Nucleation.ShieldingRadius two_sites * Nucleation.ShieldingRadius two_sites
       <= Nucleation.distanceSquare two_sites (Nucleation.position nu_j) nu_i)%Q /\
      true = true /\
      (1 # 4 < Nucleation.matrix_fraction_at (0, 0, 0)%Z (fun _ _ _ _ => 1%Q)
                 two_sites (Nucleation.position nu_j))%Q.
Proof.
  assert (Hf : (N.to_nat (Nucleation.Nsites two_sites - Nucleation.Nseeds two_sites)
                * Z.to_nat 3 < 7)%nat) by (vm_compute; lia).
  split; [exact Hf|].
  exact (generated_seeds_keep_their_distance counted_size counted_size
           counted_size counted_position counted_position counted_position
           plain_orientation (fun _ => true) (0, 0, 0)%Z
           (fun _ _ _ => bulk_cell 0%N) (fun _ _ _ _ => 1%Q)
           7 3 300%Q 300%Q two_sites 0%nat Hf).
Defined.

(** ** PhaseField::VicinityPhaseFields *)

Section SortUnique.

Lemma insert_sorted_In (x : Z) (l : list Z) (z : Z) :
  In z (insert_sorted x l) <-> z = x \/ In z l.
Proof.
  induction l as [|y r IH]; cbn [insert_sorted].
  - cbn. intuition.
  - destruct (x <=? y)%Z; cbn [In]; [intuition|]. rewrite IH. intuition.
Qed.

Lemma insert_sorted_sorted (x : Z) (l : list Z) :
  StronglySorted Z.le l -> StronglySorted Z.le (insert_sorted x l).
Proof.
  induction l as [|y r IH]; intro Hs; cbn [insert_sorted].
  - constructor; constructor.
  - apply StronglySorted_inv in Hs. destruct Hs as [Hr Hy].
    destruct (Z.leb_spec x y) as [Hxy|Hxy].
    + constructor; [constructor; assumption|].
      constructor; [exact Hxy|].
      eapply Forall_impl; [|exact Hy]. cbn beta. intros; lia.
    + constructor; [apply IH; exact Hr|].
      apply Forall_forall. intros z Hz. apply insert_sorted_In in Hz.
      destruct Hz as [->|Hz]; [lia|].
      rewrite Forall_forall in Hy. apply Hy. exact Hz.
Qed.

Lemma std_sort_In (l : list Z) (z : Z) : In z (std_sort l) <-> In z l.
Proof.
  induction l as [|x l IH]; cbn [std_sort fold_right]; [reflexivity|].
  fold (std_sort l). rewrite insert_sorted_In, IH. cbn [In]. intuition.
Qed.

Lemma std_sort_sorted (l : list Z) : StronglySorted Z.le (std_sort l).
Proof.
  induction l as [|x l IH]; cbn [std_sort fold_right]; [constructor|].
  apply insert_sorted_sorted. exact IH.
Qed.

Lemma unique_after_spec (l : list Z) :
  forall x, StronglySorted Z.le l -> Forall (fun y => (x <= y)%Z) l ->
    StronglySorted Z.lt (unique_after x l) /\
    Forall (fun y => (x < y)%Z) (unique_after x l) /\
    (forall z, In z (unique_after x l) <-> In z l /\ z <> x).
Proof.
  induction l as [|y r IH]; intros x Hs Hx; cbn [unique_after].
  - split; [constructor|]. split; [constructor|]. intros z. cbn. intuition.
  - apply StronglySorted_inv in Hs. destruct Hs as [Hr Hy].
    inversion Hx as [|? ? Hxy Hxr]; subst.
    destruct (Z.eqb_spec x y) as [E|E].
    + subst y. destruct (IH x Hr Hxr) as (I1 & I2 & I3).
      split; [exact I1|]. split; [exact I2|].
      intro z. rewrite I3. cbn [In]. intuition congruence.
    + destruct (IH y Hr Hy) as (I1 & I2 & I3).
      split; [constructor; assumption|]. split.
      * constructor; [lia|]. eapply Forall_impl; [|exact I2]. cbn beta. intros; lia.
      * intro z. cbn [In]. rewrite I3. split.
        -- intros [<-|[Hz Hne]]; [split; [left; reflexivity | congruence]|].
           split; [right; exact Hz|]. rewrite Forall_forall in I2.
           intro Hzx. subst z.
           rewrite Forall_forall in Hy. specialize (Hy x Hz). lia.
        -- intros [[<-|Hz] Hne]; [left; reflexivity|].
           destruct (Z.eq_dec z y) as [->|Hzy]; [left; reflexivity|].
           right. split; assumption.
Qed.

Lemma std_unique_spec (l : list Z) :
  StronglySorted Z.le l ->
  StronglySorted Z.lt (std_unique l) /\
  (forall z, In z (std_unique l) <-> In z l).
Proof.
  intro Hs. destruct l as [|x r]; cbn [std_unique].
  - split; [constructor | reflexivity].
  - apply StronglySorted_inv in Hs. destruct Hs as [Hr Hx].
    destruct (unique_after_spec r x Hr Hx) as (I1 & I2 & I3).
    split; [constructor; assumption|].
    intro z. cbn [In]. rewrite I3. split.
    + intros [<-|[Hz _]]; [left; reflexivity | right; exact Hz].
    + intros [<-|Hz]; [left; reflexivity|].
      destruct (Z.eq_dec x z) as [->|Hne]; [left; reflexivity|].
      right. split; [exact Hz | congruence].
Qed.

End SortUnique.

Section VicinityFields.
Context {T : Type} `{Scalar T}.

(** X28: [VicinityPhaseFields] returns, in strictly increasing order and
    without repetition, exactly the indices of the entries of the cells
    within [+-dN] of the cell, together with the index of the first entry
    of the cell itself; the one case without a result is a cell without
    entries, where [front()] is called on an empty node. *)
Theorem VicinityPhaseFields_lists_the_vicinity (g : GridParameters)
    (F : Storage3D (NodePF T)) (c : Z * Z * Z) :
  match VicinityPhaseFields g F c with
  | None => Fields (at3 F c) = []
  | Some l =>
      StronglySorted Z.lt l /\
      forall z : Z,
        In z l <->
        (exists front rest, Fields (at3 F c) = front :: rest
                            /\ z = Z.of_N (index front))
        \/ exists c' alpha, In c' (neighbourhood g c)
                            /\ In alpha (Fields (at3 F c'))
                            /\ z = Z.of_N (index alpha)
  end.
Proof.
  unfold VicinityPhaseFields.
  destruct (Fields (at3 F c)) as [|front rest] eqn:Ec; [reflexivity|].
  match goal with |- context [std_sort ?l] =>
    destruct (std_unique_spec (std_sort l) (std_sort_sorted l)) as [S1 S2];
    set (tmp := l) in * end.
  split; [exact S1|].
  intro z. rewrite S2, std_sort_In. unfold tmp. cbn [In].
  rewrite in_flat_map. split.
  - intros [<-|(c' & Hc' & Hz)].
    + left. exists front, rest. split; reflexivity.
    + apply in_map_iff in Hz. destruct Hz as (alpha & <- & Ha).
      apply filter_In in Ha. destruct Ha as [Ha _].
      right. exists c', alpha. auto.
  - intros [(f & r & Hf & ->) | (c' & alpha & Hc' & Ha & ->)].
    + left. congruence.
    + destruct (N.eqb_spec (index alpha) (index front)) as [E|E].
      * left. rewrite E. reflexivity.
      * right. exists c'. split; [exact Hc'|].
        apply in_map_iff. exists alpha. split; [reflexivity|].
        apply filter_In. split; [exact Ha|].
        apply negb_true_iff. apply N.eqb_neq. exact E.
Qed.

End VicinityFields.

(** ** Temperature: the control step *)

Section ControlExact.
Local Open Scope Q_scope.

Lemma ControlCycle_fold (time : Q) (L : list (nat * ControlParameter)) :
  forall cycle : Z,
    let r := fold_left
               (fun cycle ncp =>
                  if Qle_bool (ActivationTime (snd ncp)) time
                  then Z.of_nat (fst ncp) else cycle) L cycle in
    (r = cycle /\ forall ncp, In ncp L -> time < ActivationTime (snd ncp))
    \/ exists l1 ncp l2,
         L = l1 ++ ncp :: l2 /\ r = Z.of_nat (fst ncp) /\
         ActivationTime (snd ncp) <= time /\
         forall x, In x l2 -> time < ActivationTime (snd x).
Proof.
  induction L as [|a L IH]; intro cycle; cbn [fold_left]; cbv zeta.
  - left. split; [reflexivity | intros ? []].
  - match goal with |- context [fold_left _ L ?c] => destruct (IH c) as [[E Hn] | Hx] end;
      cbv zeta in *.
    + destruct (Qle_bool (ActivationTime (snd a)) time) eqn:Ea.
      * apply Qle_bool_iff in Ea. right. exists [], a, L.
        split; [reflexivity|]. split; [exact E|]. split; [exact Ea | exact Hn].
      * apply Qle_bool_false in Ea. left. split; [exact E|].
        intros x [<-|Hx]; [exact Ea | apply Hn; exact Hx].
    + destruct Hx as (l1 & ncp & l2 & EL & Er & Ht & Hl).
      right. exists (a :: l1), ncp, l2. subst L.
      split; [reflexivity|]. split; [exact Er|]. split; [exact Ht | exact Hl].
Qed.

(** X29: the temperature control of [Temperature::Set], in exact
    arithmetic.  The control parameters used are those of the last entry,
    by position, whose activation time has come; without one the field is
    left as it is.  In the mode [Newton] the distance of a cell from the
    holding temperature is multiplied by [1 - dt*NewtonRate], so that for
    [0 <= dt*NewtonRate <= 1] the cell moves towards the holding temperature
    and does not pass it.  In the mode [Linear] a cell is changed, by
    [dt*LinearRate], exactly when the rate points from the average of the
    field towards the holding temperature. *)
Theorem temperature_control_step (ControlParameters : list ControlParameter)
    (simulation_time Tavg dt tx : Q) :
  let cycle := ControlCycle ControlParameters simulation_time in
  ((cycle = (-1)%Z /\
    (forall cp, In cp ControlParameters -> simulation_time < ActivationTime cp) /\
    controlled_temperature ControlParameters simulation_time Tavg dt tx = tx)
   \/
   exists cp,
     nth_error ControlParameters (Z.to_nat cycle) = Some cp /\
     (0 <= cycle)%Z /\
     ActivationTime cp <= simulation_time /\
     (forall n cp', (Z.to_nat cycle < n)%nat ->
        nth_error ControlParameters n = Some cp' ->
        simulation_time < ActivationTime cp') /\
     controlled_temperature ControlParameters simulation_time Tavg dt tx
     = control_cell cp Tavg dt tx) /\
  (forall cp, Mode cp = ControlModes.Newton ->
     control_cell cp Tavg dt tx - HoldingTemperature cp
     == (1 - dt * NewtonRate cp) * (tx - HoldingTemperature cp) /\
     (0 <= dt * NewtonRate cp <= 1 ->
      (tx <= HoldingTemperature cp ->
       tx <= control_cell cp Tavg dt tx <= HoldingTemperature cp) /\
      (HoldingTemperature cp <= tx ->
       HoldingTemperature cp <= control_cell cp Tavg dt tx <= tx))) /\
  (forall cp, Mode cp = ControlModes.Linear ->
     ((Tavg < HoldingTemperature cp /\ 0 < LinearRate cp) \/
      (HoldingTemperature cp < Tavg /\ LinearRate cp < 0) ->
      control_cell cp Tavg dt tx = tx + dt * LinearRate cp) /\
     (~ ((Tavg < HoldingTemperature cp /\ 0 < LinearRate cp) \/
         (HoldingTemperature cp < Tavg /\ LinearRate cp < 0)) ->
      control_cell cp Tavg dt tx = tx)).
Proof.
  cbv zeta. split; [|split].
  - unfold controlled_temperature, ControlCycle. qsimp.
    match goal with |- context [fold_left _ ?L ?c] =>
      destruct (ControlCycle_fold simulation_time L c) as [[E Hn] | Hx] end;
      cbv zeta in *.
    + left. rewrite E. split; [reflexivity|]. split; [|reflexivity].
      intros cp Hcp. apply In_nth_error in Hcp. destruct Hcp as [n Hn'].
      apply (Hn (n, cp)). apply in_enumerate. exact Hn'.
    + right. destruct Hx as (l1 & [n cp] & l2 & EL & Er & Ht & Hl).
      cbn [fst snd] in *. rewrite Er. exists cp.
      assert (Hin : In (n, cp) (combine (seq 0 (length ControlParameters))
                                        ControlParameters)).
      { rewrite EL. apply in_or_app. right. left. reflexivity. }
      apply in_enumerate in Hin. rewrite Nat2Z.id.
      split; [exact Hin|]. split; [lia|]. split; [exact Ht|]. split.
      * intros m cp' Hm Hcp'.
        assert (Hin' : In (m, cp') (combine (seq 0 (length ControlParameters))
                                            ControlParameters))
          by (apply in_enumerate; exact Hcp').
        rewrite EL in Hin'. apply in_app_or in Hin'.
        destruct Hin' as [H1 | [H2 | H3]].
        -- exfalso.
           assert (Hl1 : (length l1 <= n)%nat).
           { pose proof (nth_error_enumerate ControlParameters 0 (length l1)) as Hx.
             rewrite EL in Hx. rewrite nth_error_app2 in Hx by lia.
             rewrite Nat.sub_diag in Hx. cbn [nth_error] in Hx.
             destruct (nth_error ControlParameters (length l1)); [|discriminate].
             cbn in Hx. inversion Hx. lia. }
           apply In_nth_error in H1. destruct H1 as [q Hq].
           assert (Hql : (q < length l1)%nat) by (apply nth_error_Some; congruence).
           pose proof (nth_error_enumerate ControlParameters 0 q) as Hx.
           rewrite EL in Hx. rewrite nth_error_app1 in Hx by exact Hql.
           rewrite Hq in Hx.
           destruct (nth_error ControlParameters q); [|discriminate].
           cbn in Hx. inversion Hx. lia.
        -- inversion H2. lia.
        -- exact (Hl (m, cp') H3).
      * destruct (Z.eqb_spec (Z.of_nat n) (-1)); [lia|]. rewrite Hin. reflexivity.
  - intros cp Hm. unfold control_cell. rewrite Hm. qsimp.
    split; [ring|]. intro Hk. split; intro Ht; split; nra.
  - intros cp Hm. unfold control_cell. rewrite Hm. qsimp. split.
    + intros [[H1 H2] | [H1 H2]].
      * replace (Qlt_bool Tavg (HoldingTemperature cp)) with true
          by (symmetry; apply Qlt_bool_iff; exact H1).
        replace (Qlt_bool 0 (LinearRate cp)) with true
          by (symmetry; apply Qlt_bool_iff; exact H2).
        reflexivity.
      * replace (Qlt_bool (HoldingTemperature cp) Tavg) with true
          by (symmetry; apply Qlt_bool_iff; exact H1).
        replace (Qlt_bool (LinearRate cp) 0) with true
          by (symmetry; apply Qlt_bool_iff; exact H2).
        cbn [andb]. rewrite orb_true_r. reflexivity.
    + intro Hn.
      destruct (Qlt_bool Tavg (HoldingTemperature cp)) eqn:E1;
      destruct (Qlt_bool 0 (LinearRate cp)) eqn:E2;
      destruct (Qlt_bool (HoldingTemperature cp) Tavg) eqn:E3;
      destruct (Qlt_bool (LinearRate cp) 0) eqn:E4; cbn [andb orb];
        try reflexivity; exfalso; apply Hn;
        rewrite ?Qlt_bool_iff in *; auto.
Qed.

End ControlExact.

(** ** ConsumePlane *)

Section PlaneSweeps.

Lemma back_steps_frame (n : nat) (d i End Inc : Z) :
  back_steps n d i End Inc = frame_steps n (backwards d) i End Inc.
Proof.
  revert i. induction n as [|n IH]; intro i; cbn [back_steps frame_steps];
    [reflexivity|].
  rewrite IH. unfold backwards.
  destruct (Z.geb_spec d 0) as [Hd|Hd].
  - replace (d <? 0)%Z with false by (symmetry; apply Z.ltb_ge; lia).
    cbn. rewrite orb_false_r. reflexivity.
  - replace (d <? 0)%Z with true by (symmetry; apply Z.ltb_lt; lia).
    cbn. rewrite orb_false_r. reflexivity.
Qed.

Lemma back_range_frame (d N : Z) : back_range d N = frame_range (backwards d) N.
Proof.
  unfold back_range, frame_range. rewrite back_steps_frame. unfold backwards.
  destruct (Z.geb_spec d 0) as [Hd|Hd].
  - replace (d <? 0)%Z with false by (symmetry; apply Z.ltb_ge; lia).
    cbn [Z.b2z Z.geb Z.ltb Z.compare]. f_equal; lia.
  - replace (d <? 0)%Z with true by (symmetry; apply Z.ltb_lt; lia).
    cbn [Z.b2z Z.geb Z.ltb Z.compare]. f_equal; lia.
Qed.

Lemma back_cells_frame (dx dy dz : Z) (g : GridParameters) :
  back_cells dx dy dz g
  = frame_cells (backwards dx) (backwards dy) (backwards dz) g.
Proof.
  unfold back_cells, frame_cells. rewrite !back_range_frame. reflexivity.
Qed.

Lemma sorted_filter {B : Type} (R : B -> B -> Prop) (f : B -> bool) (l : list B) :
  StronglySorted R l -> StronglySorted R (filter f l).
Proof.
  induction 1 as [|a l Hs IH Ha]; cbn [filter]; [constructor|].
  destruct (f a); [|exact IH].
  constructor; [exact IH|].
  apply Forall_forall. intros x Hx. apply filter_In in Hx.
  rewrite Forall_forall in Ha. apply Ha. exact (proj1 Hx).
Qed.

Lemma fold_left_when {St B : Type} (f : B -> bool) (step : St -> B -> St)
    (l : list B) :
  forall s, fold_left (fun s c => if f c then step s c else s) l s
            = fold_left step (filter f l) s.
Proof.
  induction l as [|a l IH]; intro s; cbn [fold_left filter]; [reflexivity|].
  destruct (f a); cbn [fold_left]; apply IH.
Qed.

Context {A : Type}.

Lemma sweep_from (R : Z * Z * Z -> Z * Z * Z -> Prop)
    (src : Z * Z * Z -> Z * Z * Z) (L : list (Z * Z * Z)) :
  StronglySorted R L -> (forall c, ~ R (src c) c) ->
  forall (s : Storage3D A) (c : Z * Z * Z),
    at3 (fold_left
           (fun s c => poke s (fst (fst c)) (snd (fst c)) (snd c) (at3 s (src c)))
           L s) c
    = if in_dec cell_eq_dec c L then at3 s (src c) else at3 s c.
Proof.
  intros Hs Hsrc. induction L as [|a L IH]; intros s c; cbn [fold_left].
  - reflexivity.
  - apply StronglySorted_inv in Hs. destruct Hs as [Hs Ha].
    rewrite Forall_forall in Ha. rewrite (IH Hs).
    destruct (in_dec cell_eq_dec c L) as [Hin|Hnin].
    + destruct (in_dec cell_eq_dec c (a :: L)) as [_|Hn];
        [|exfalso; apply Hn; right; exact Hin].
      apply at3_poke_other. intro E.
      specialize (Ha c Hin). rewrite <- E in Ha. exact (Hsrc c Ha).
    + destruct (cell_eq_dec c a) as [->|Hne].
      * destruct (in_dec cell_eq_dec a (a :: L)) as [_|Hn];
          [|exfalso; apply Hn; left; reflexivity].
        apply at3_poke_same.
      * destruct (in_dec cell_eq_dec c (a :: L)) as [[E|Hin]|_];
          [congruence | contradiction |].
        apply at3_poke_other. exact Hne.
Qed.

Lemma pulled_not_before (dx dy dz : Z) (g : GridParameters) (i j k : Z) :
  (0 <= dNx g)%Z -> (0 <= dNy g)%Z -> (0 <= dNz g)%Z ->
  ~ visited_before (backwards dx) (backwards dy) (backwards dz)
      ((i - dx * dNx g)%Z, (j - dy * dNy g)%Z, (k - dz * dNz g)%Z) (i, j, k).
Proof.
  intros Hx Hy Hz. unfold visited_before, sweep_sign, backwards.
  destruct (Z.geb_spec dx 0), (Z.geb_spec dy 0), (Z.geb_spec dz 0);
    cbn [Z.geb Z.compare]; nia.
Qed.

(** X30: the two loop nests of [Temperature::ConsumePlane] and
    [PhaseField::ConsumePlaneSR] act as one simultaneous assignment although
    they read and write the same storage: an interior cell on or ahead of
    the plane through [(x,y,z)] with normal [(dx,dy,dz)] ends with the value
    its neighbour [(i + dx*dNx, j + dy*dNy, k + dz*dNz)] had before the
    call, an interior cell behind the plane with the value of
    [(i - dx*dNx, j - dy*dNy, k - dz*dNz)], and no other cell is written. *)
Theorem ConsumePlane_closes_over_the_plane (dx dy dz x y z : Z)
    (g : GridParameters) (s : Storage3D A) (i j k : Z) :
  (0 <= dNx g)%Z -> (0 <= dNy g)%Z -> (0 <= dNz g)%Z ->
  ConsumePlane dx dy dz x y z g s i j k
  = if interior g i j k
    then if (plane_side dx dy dz x y z (i, j, k) >=? 0)%Z
         then s (i + dx * dNx g)%Z (j + dy * dNy g)%Z (k + dz * dNz g)%Z
         else s (i - dx * dNx g)%Z (j - dy * dNy g)%Z (k - dz * dNz g)%Z
    else s i j k.
Proof.
  intros Hx Hy Hz. unfold ConsumePlane.
  rewrite (fold_left_when (fun c => (plane_side dx dy dz x y z c >=? 0)%Z)
             (shift_cell dx dy dz g)).
  rewrite (fold_left_when (fun c => (plane_side dx dy dz x y z c <? 0)%Z)
             (pull_cell dx dy dz g)).
  rewrite back_cells_frame.
  set (L1 := filter _ (frame_cells dx dy dz g)).
  set (L2 := filter _ (frame_cells _ _ _ g)).
  set (src1 := fun c : Z * Z * Z =>
                 ((fst (fst c) + dx * dNx g)%Z, (snd (fst c) + dy * dNy g)%Z,
                  (snd c + dz * dNz g)%Z)).
  set (src2 := fun c : Z * Z * Z =>
                 ((fst (fst c) - dx * dNx g)%Z, (snd (fst c) - dy * dNy g)%Z,
                  (snd c - dz * dNz g)%Z)).
  assert (E1 : forall s0 : Storage3D A,
            fold_left (shift_cell dx dy dz g) L1 s0
            = fold_left (fun s c => poke s (fst (fst c)) (snd (fst c)) (snd c)
                                      (at3 s (src1 c))) L1 s0).
  { intro s0. revert s0. induction L1 as [|a l IH]; intro s0; cbn [fold_left];
      [reflexivity|].
    rewrite IH. destruct a as [[a1 a2] a3]. reflexivity. }
  assert (E2 : forall s0 : Storage3D A,
            fold_left (pull_cell dx dy dz g) L2 s0
            = fold_left (fun s c => poke s (fst (fst c)) (snd (fst c)) (snd c)
                                      (at3 s (src2 c))) L2 s0).
  { intro s0. revert s0. induction L2 as [|a l IH]; intro s0; cbn [fold_left];
      [reflexivity|].
    rewrite IH. destruct a as [[a1 a2] a3]. reflexivity. }
  rewrite E2, E1.
  pose proof (sweep_from (visited_before dx dy dz) src1 L1
                (sorted_filter _ _ _ (frame_cells_sorted dx dy dz g))) as S1.
  pose proof (sweep_from
                (visited_before (backwards dx) (backwards dy) (backwards dz))
                src2 L2
                (sorted_filter _ _ _ (frame_cells_sorted _ _ _ g))) as S2.
  assert (H1 : forall c, ~ visited_before dx dy dz (src1 c) c).
  { intros [[a b] c]. apply source_not_before; assumption. }
  assert (H2 : forall c, ~ visited_before (backwards dx) (backwards dy)
                           (backwards dz) (src2 c) c).
  { intros [[a b] c]. apply pulled_not_before; assumption. }
  specialize (S1 H1). specialize (S2 H2).
  change (at3 (fold_left
                 (fun s c => poke s (fst (fst c)) (snd (fst c)) (snd c)
                               (at3 s (src2 c))) L2
                 (fold_left
                    (fun s c => poke s (fst (fst c)) (snd (fst c)) (snd c)
                                  (at3 s (src1 c))) L1 s)) (i, j, k)
          = if interior g i j k
            then if (plane_side dx dy dz x y z (i, j, k) >=? 0)%Z
                 then at3 s (src1 (i, j, k)) else at3 s (src2 (i, j, k))
            else at3 s (i, j, k)).
  rewrite S2, !S1.
  assert (M1 : forall c, In c L1 <->
             interior g (fst (fst c)) (snd (fst c)) (snd c) = true
             /\ (0 <= plane_side dx dy dz x y z c)%Z).
  { intros [[a b] c]. unfold L1. rewrite filter_In, frame_cells_in.
    cbn [fst snd]. rewrite Z.geb_le. reflexivity. }
  assert (M2 : forall c, In c L2 <->
             interior g (fst (fst c)) (snd (fst c)) (snd c) = true
             /\ (plane_side dx dy dz x y z c < 0)%Z).
  { intros [[a b] c]. unfold L2. rewrite filter_In, frame_cells_in.
    cbn [fst snd]. rewrite Z.ltb_lt. reflexivity. }
  assert (Hside : (plane_side dx dy dz x y z (i, j, k) < 0 ->
                   plane_side dx dy dz x y z (src2 (i, j, k)) < 0)%Z).
  { unfold plane_side, src2. cbn [fst snd]. nia. }
  destruct (in_dec cell_eq_dec (i, j, k) L2) as [I2|I2].
  - apply M2 in I2. cbn [fst snd] in I2. destruct I2 as [Hi Hs].
    rewrite Hi.
    destruct (Z.geb_spec (plane_side dx dy dz x y z (i, j, k)) 0); [lia|].
    destruct (in_dec cell_eq_dec (src2 (i, j, k)) L1) as [I1|I1]; [|reflexivity].
    apply M1 in I1. destruct I1 as [_ I1]. specialize (Hside Hs). lia.
  - destruct (in_dec cell_eq_dec (i, j, k) L1) as [I1|I1].
    + apply M1 in I1. cbn [fst snd] in I1. destruct I1 as [Hi Hs].
      rewrite Hi.
      destruct (Z.geb_spec (plane_side dx dy dz x y z (i, j, k)) 0); [|lia].
      reflexivity.
    + destruct (interior g i j k) eqn:Hi; [|reflexivity].
      exfalso.
      destruct (Z.lt_ge_cases (plane_side dx dy dz x y z (i, j, k)) 0).
      * apply I2. apply M2. cbn [fst snd]. auto.
      * apply I1. apply M1. cbn [fst snd]. auto.
Qed.

End PlaneSweeps.

Lemma ConsumePlane_closes_over_the_plane_witness :
  (0 <= dNx (line_grid 5))%Z /\ (0 <= dNy (line_grid 5))%Z /\
  (0 <= dNz (line_grid 5))%Z /\
  ConsumePlane 1 0 0 2 0 0 (line_grid 5) (fun i _ _ => i) 1%Z 0%Z 0%Z = 0%Z.
Proof.
  split; [discriminate|]. split; [apply Z.le_refl|]. split; [apply Z.le_refl|].
  rewrite (ConsumePlane_closes_over_the_plane 1 0 0 2 0 0 (line_grid 5)
             (fun i _ _ => i) 1 0 0);
    [reflexivity | discriminate | apply Z.le_refl | apply Z.le_refl].
Defined.
